(** * GEMM canonicalisation and the fused accumulate op of pytensor/tensor/blas.py

    A shallow embedding of the BLAS-specialisation pipeline:
    - the symbolic graph (Variable, Apply, Op) with Python object identity
      made explicit as identifiers drawn from a counter;
    - [Elemwise.make_node], [DimShuffle.make_node], [Gemm.make_node];
    - [_gemm_canonicalize], [_factor_canonicalized], [_beta_L_plus_alpha_M],
      [_gemm_from_factored_list], [_gemm_from_node2];
    - [GemmOptimizer.apply] over an abstract function graph;
    - [Gemm.perform] over a store of arrays, so that aliasing is visible. *)

From Stdlib Require Import ZArith Lia Floats.
From stdpp Require Import base option list gmap strings.

Set Warnings "-register-all".

(** ** Exceptions and the state-and-exception monad *)

Inductive Exn : Type :=
| TypeError
| ValueError
| NotImplementedError
| AssertionError
| IndexError
| KeyError
| InconsistencyError
| ReplacementDidNotRemoveError.

#[global] Instance Exn_eq_dec : EqDecision Exn.
Proof. solve_decision. Defined.

(** The outcome of a Python call: a value, a raised exception, or (for the
    loops that are modelled with fuel) exhaustion of the fuel. *)
Inductive Result (A : Type) : Type :=
| Ok (a : A)
| Raise (e : Exn)
| OutOfFuel.
Arguments Ok {A} a.
Arguments Raise {A} e.
Arguments OutOfFuel {A}.

Definition ST (S A : Type) : Type := S -> Result A * S.

Definition ret {S A} (a : A) : ST S A := fun s => (Ok a, s).

Definition raise {S A} (e : Exn) : ST S A := fun s => (Raise e, s).

Definition out_of_fuel {S A} : ST S A := fun s => (OutOfFuel, s).

Definition bind {S A B} (c : ST S A) (k : A -> ST S B) : ST S B :=
  fun s =>
    match c s with
    | (Ok a, s') => k a s'
    | (Raise e, s') => (Raise e, s')
    | (OutOfFuel, s') => (OutOfFuel, s')
    end.

Definition lift {S A} (r : Result A) : ST S A := fun s => (r, s).

(** A call that returns or raises, and takes no fuel. *)
Definition of_sum {A} (r : Exn + A) : Result A :=
  match r with
  | inl e => Raise e
  | inr a => Ok a
  end.

Declare Scope st_scope.
Delimit Scope st_scope with st.
Notation "'let*' x ':=' c 'in' k" := (bind c (fun x => k))
  (at level 10, x pattern, c at level 100, k at level 200) : st_scope.
Open Scope st_scope.

(** [assert cond] *)
Definition assert_ {S} (b : bool) : ST S unit :=
  if b then ret tt else raise AssertionError.

(** [regular P c]: from every state, [c] returns or raises an exception
    that satisfies [P]; it does not run out of fuel. *)
Definition regular_result {A} (P : Exn -> Prop) (r : Result A) : Prop :=
  match r with
  | Ok _ => True
  | Raise e => P e
  | OutOfFuel => False
  end.

Definition regular {S A} (P : Exn -> Prop) (c : ST S A) : Prop :=
  forall s, regular_result P (c s).1.

(** ** Tensor types *)

Inductive Dtype : Type :=
| bool_ | int8 | int16 | int32 | int64
| uint8 | uint16 | uint32 | uint64
| float16 | float32 | float64
| complex64 | complex128.

#[global] Instance Dtype_eq_dec : EqDecision Dtype.
Proof. solve_decision. Defined.

(** [isinstance(t, TensorType)] and [isinstance(t, DenseTensorType)]: a
    type is a plain (dense) [TensorType], an instance of a subclass of
    [TensorType] that is not dense, or no tensor type at all. *)
Inductive TypeClass : Type := DenseTensor | OtherTensor | NotTensor.

#[global] Instance TypeClass_eq_dec : EqDecision TypeClass.
Proof. solve_decision. Defined.

(** A static shape entry is a known length or [None]. *)
Record Ty : Type := mkTy {
  tclass : TypeClass;
  dtype : Dtype;
  shape : list (option nat);
}.

Definition TensorType (d : Dtype) (sh : list (option nat)) : Ty :=
  mkTy DenseTensor d sh.

Definition ndim (t : Ty) : nat := length (shape t).

Definition isinstance_TensorType (t : Ty) : bool :=
  match tclass t with NotTensor => false | _ => true end.

Definition isinstance_DenseTensorType (t : Ty) : bool :=
  match tclass t with DenseTensor => true | _ => false end.

(** [s == 1] on a static shape entry. *)
Definition is_one (s : option nat) : bool :=
  match s with Some 1 => true | _ => false end.

(** [tuple(s == 1 for s in t.shape)], also [t.broadcastable]. *)
Definition broadcastable (t : Ty) : list bool := map is_one (shape t).

(** [all(s == 1 for s in t.shape)] *)
Definition all_one (t : Ty) : bool := forallb is_one (shape t).

Definition dtype_in (d : Dtype) (l : list Dtype) : bool := bool_decide (d ∈ l).

Definition float_dtypes : list Dtype := [float16; float32; float64].
Definition gemm_dtypes : list Dtype :=
  [float16; float32; float64; complex64; complex128].

(** [dtype.startswith("float")], [dtype.startswith("complex")] *)
Definition startswith_float (d : Dtype) : bool := dtype_in d float_dtypes.
Definition startswith_complex (d : Dtype) : bool :=
  dtype_in d [complex64; complex128].

(** ** Ops, variables and apply nodes *)

Inductive ScalarOp : Type :=
| Add | Sub | Neg | Mul
| Cast (d : Dtype)
| OtherScalarOp (name : nat).

#[global] Instance ScalarOp_eq_dec : EqDecision ScalarOp.
Proof. solve_decision. Defined.

(** Ops compare by class and [__props__]: [Elemwise] by
    (scalar_op, inplace_pattern), [DimShuffle] by
    (input_broadcastable, new_order), [Gemm] by (inplace). In a
    [new_order], [None] stands for ['x']. *)
Inductive Op : Type :=
| Elemwise (scalar_op : ScalarOp) (inplace_pattern : list (nat * nat))
| DimShuffle (input_broadcastable : list bool) (new_order : list (option nat))
| Dot22
| Gemm (inplace : bool)
| OtherOp (name : nat) (view_map : list (nat * list nat)).

#[global] Instance Op_eq_dec : EqDecision Op.
Proof. solve_decision. Defined.

Definition add : Op := Elemwise Add [].
Definition sub : Op := Elemwise Sub [].
Definition neg : Op := Elemwise Neg [].
Definition mul : Op := Elemwise Mul [].
Definition _dot22 : Op := Dot22.
Definition gemm_inplace : Op := Gemm true.
Definition gemm_no_inplace : Op := Gemm false.

(** Object identity ([is]) is an identifier. *)
Definition ident : Type := nat.

(** A variable is a graph input, a constant holding a Python number, or
    output number [idx] of the apply node [(nid, op, inputs, outs)], where
    [outs] lists the identity and type of every output of the node. *)
Inductive Var : Type :=
| Input (vid : ident) (ty : Ty)
| Constant (vid : ident) (ty : Ty) (data : float)
| Out (nid : ident) (op : Op) (inputs : list Var)
      (outs : list (ident * Ty)) (idx : nat).

Record Apply : Type := mkApply {
  node_id : ident;
  op : Op;
  inputs : list Var;
  outs : list (ident * Ty);
}.

Definition no_type : Ty := mkTy NotTensor bool_ [].

Definition var_id (v : Var) : ident :=
  match v with
  | Input i _ | Constant i _ _ => i
  | Out _ _ _ os k => (nth k os (0, no_type)).1
  end.

Definition vtype (v : Var) : Ty :=
  match v with
  | Input _ t | Constant _ t _ => t
  | Out _ _ _ os k => (nth k os (0, no_type)).2
  end.

Definition owner (v : Var) : option Apply :=
  match v with
  | Out n o ins os _ => Some (mkApply n o ins os)
  | _ => None
  end.

Definition outputs (a : Apply) : list Var :=
  map (Out (node_id a) (op a) (inputs a) (outs a)) (seq 0 (length (outs a))).

(** [a is b] on variables, on apply nodes. *)
Definition is_ (a b : Var) : bool := bool_decide (var_id a = var_id b).
Definition node_is (a b : Apply) : bool := bool_decide (node_id a = node_id b).

(** [r.owner and r.owner.op == o] *)
Definition owner_op_is (r : Var) (o : Op) : bool :=
  match owner r with
  | Some a => bool_decide (op a = o)
  | None => false
  end.

(** [Apply(op, inputs, [t() for t in types])]: a new node and new output
    variables, each with a new identity. *)
Definition mk_Apply (o : Op) (ins : list Var) (types : list Ty)
  : ST ident Apply :=
  fun n =>
    (Ok (mkApply n o ins (zip (seq (S n) (length types)) types)),
     S n + length types).

(** Calling a single-output op on its inputs: [make_node(...).outputs[0]]. *)
Definition default_output (a : Apply) : Var :=
  Out (node_id a) (op a) (inputs a) (outs a) 0.

(** A Python value used as a scale: a Python float or a symbolic
    variable. *)
Inductive Scale : Type :=
| Num (f : float)
| Sym (v : Var).

(** ** What the sources import from modules that are not part of them *)

(** The functions of [pytensor.scalar], [pytensor.tensor.type],
    [pytensor.tensor.basic] and [pytensor.graph.basic] that the code below
    calls and whose definitions are outside the sources:
    - [scalar_output_dtype op dtypes]: the dtype of the output of
      [op.make_node] on scalar variables of these dtypes (its
      [output_types_preference]), which may raise;
    - [upcast]: [pytensor.scalar.upcast];
    - [autocast_float]: the dtype [as_tensor_variable] gives to the
      constant made from a Python float;
    - [in_same_class]: [TensorType.in_same_class], known to hold only of
      types of equal dtype and rank;
    - [view_roots]: [pytensor.graph.basic.view_roots]. *)
Class Externals : Type := {
  scalar_output_dtype : ScalarOp -> list Dtype -> Exn + Dtype;
  upcast : Dtype -> Dtype -> Dtype;
  autocast_float : float -> Dtype;
  in_same_class : Ty -> Ty -> bool;
  in_same_class_sound :
    forall a b, in_same_class a b = true -> dtype a = dtype b /\ ndim a = ndim b;
  view_roots : Var -> list Var;
}.

Section Construction.
Context `{Ext : Externals}.

(** The graph-construction monad: the state is the next unused identity. *)
Definition Build (A : Type) : Type := ST ident A.

Fixpoint mapM {A B} (f : A -> Build B) (l : list A) : Build (list B) :=
  match l with
  | [] => ret []
  | x :: l' => let* y := f x in let* ys := mapM f l' in ret (y :: ys)
  end.

(** [for x in l: b = f(b, x)] *)
Fixpoint foldM {A B} (f : B -> A -> Build B) (l : list A) (b : B) : Build B :=
  match l with
  | [] => ret b
  | x :: l' => let* b' := f b x in foldM f l' b'
  end.

(** Modelled from the spec: [as_tensor_variable] of [pytensor.tensor.basic]
    is not among the sources. A variable of a tensor type is returned as it
    is and any other variable is a [TypeError]; a Python float becomes a new
    rank-0 constant. *)
Definition as_tensor_variable (x : Scale) : Build Var :=
  match x with
  | Sym v =>
      if isinstance_TensorType (vtype v) then ret v else raise TypeError
  | Num f =>
      fun n => (Ok (Constant n (TensorType (autocast_float f) []) f), S n)
  end.

(** *** DimShuffle (elemwise.py) *)

(** [j in l] for an index [j] of a [new_order]. *)
Definition index_in (j : nat) (l : list (option nat)) : bool :=
  bool_decide (Some j ∈ l).

(** The checks of [DimShuffle.__init__] on the indices of [new_order]. *)
Fixpoint check_new_order (len_ib : nat) (new_order : list (option nat))
  : Result unit :=
  match new_order with
  | [] => Ok tt
  | None :: rest => check_new_order len_ib rest
  | Some j :: rest =>
      if bool_decide (len_ib <= j) then Raise ValueError
      else if index_in j rest then Raise ValueError
      else check_new_order len_ib rest
  end.

(** The loop of [DimShuffle.__init__] that collects the dropped axes. *)
Fixpoint check_drop (i : nat) (ib : list bool) (new_order : list (option nat))
  : Result unit :=
  match ib with
  | [] => Ok tt
  | b :: rest =>
      if index_in i new_order then check_drop (S i) rest new_order
      else if b then check_drop (S i) rest new_order
      else Raise ValueError
  end.

Definition DimShuffle_init (ib : list bool) (new_order : list (option nat))
  : Build Op :=
  let* _ := lift (check_new_order (length ib) new_order) in
  let* _ := lift (check_drop 0 ib new_order) in
  ret (DimShuffle ib new_order).

(** [expected is True and b is False] for some pair of the two patterns. *)
Definition pattern_mismatch (expected ib : list bool) : bool :=
  existsb (fun '(e, b) => e && negb b) (zip expected ib).

Fixpoint out_static_shape (sh : list (option nat)) (new_order : list (option nat))
  : Result (list (option nat)) :=
  match new_order with
  | [] => Ok []
  | None :: rest =>
      match out_static_shape sh rest with
      | Ok l => Ok (Some 1 :: l)
      | r => r
      end
  | Some j :: rest =>
      match sh !! j with
      | None => Raise IndexError
      | Some s =>
          match out_static_shape sh rest with
          | Ok l => Ok (s :: l)
          | r => r
          end
      end
  end.

Definition DimShuffle_make_node (input_broadcastable : list bool)
    (new_order : list (option nat)) (_input : Var) : Build Apply :=
  let* input := as_tensor_variable (Sym _input) in
  let ib := broadcastable (vtype input) in
  let* _ :=
    if bool_decide (ib = input_broadcastable) then ret tt
    else if negb (bool_decide (length ib = length input_broadcastable))
         then raise TypeError
    else if pattern_mismatch input_broadcastable ib then raise TypeError
    else ret tt in
  let* sh := lift (out_static_shape (shape (vtype input)) new_order) in
  mk_Apply (DimShuffle input_broadcastable new_order) [input]
           [TensorType (dtype (vtype input)) sh].

(** Calling an op: [op(inputs)] is output 0 of [op.make_node(inputs)]. Only
    the ops whose [make_node] is modelled can be called. *)
Definition call_DimShuffle (o : Op) (x : Var) : Build Var :=
  match o with
  | DimShuffle ib new_order =>
      let* a := DimShuffle_make_node ib new_order x in ret (default_output a)
  | _ => raise TypeError
  end.

(** Modelled from the spec: the method [TensorVariable.dimshuffle] is not
    among the sources; it builds [DimShuffle(list(self.type.broadcastable),
    pattern)] and calls it on [self]. *)
Definition dimshuffle (x : Var) (pattern : list (option nat)) : Build Var :=
  let* o := DimShuffle_init (broadcastable (vtype x)) pattern in
  call_DimShuffle o x.

(** *** Elemwise.make_node (elemwise.py) *)

Definition remove_dups (l : list (option nat)) : list (option nat) :=
  fold_right (fun x acc => if bool_decide (x ∈ acc) then acc else x :: acc) [] l.

(** [get_most_specialized_shape] of [Elemwise.get_output_info]. *)
Definition get_most_specialized_shape (shapes : list (option nat))
  : Result (option nat) :=
  let s := remove_dups shapes in
  match s with
  | [x] => Ok x
  | _ =>
      if bool_decide (s = [None; Some 1]) || bool_decide (s = [Some 1; None])
      then Ok None
      else
        match filter (fun x => x <> Some 1 /\ x <> None) s with
        | [x] => Ok x
        | [] => Raise IndexError
        | _ => Raise ValueError
        end
  end.

(** The transposition [zip] makes of the shapes, all of one length [n]. *)
Definition transpose_shapes (n : nat) (shapes : list (list (option nat)))
  : list (list (option nat)) :=
  map (fun k => omap (fun sh => sh !! k) shapes) (seq 0 n).

Fixpoint sequence_result {A} (l : list (Result A)) : Result (list A) :=
  match l with
  | [] => Ok []
  | Ok a :: l' =>
      match sequence_result l' with
      | Ok r => Ok (a :: r)
      | Raise e => Raise e
      | OutOfFuel => OutOfFuel
      end
  | Raise e :: _ => Raise e
  | OutOfFuel :: _ => OutOfFuel
  end.

(** The left-completion of one input to [target_length] axes. *)
Definition left_complete (target_length : nat) (input : Var) : Build Var :=
  let length_ := ndim (vtype input) in
  let difference := target_length - length_ in
  if bool_decide (difference = 0) then ret input
  else
    let* o := DimShuffle_init (broadcastable (vtype input))
                (replicate difference None ++ map Some (seq 0 length_)) in
    call_DimShuffle o input.

(** The checks of [get_output_info] on the [inplace_pattern]. *)
Definition check_inplace_shapes (out_shape : list (option nat))
    (ins : list Var) (ip : list (nat * nat)) : Result unit :=
  fold_left
    (fun acc '(overwriter, overwritten) =>
       match acc with
       | Ok _ =>
           if negb (bool_decide (overwriter = 0)) then Raise IndexError
           else
             match ins !! overwritten with
             | None => Raise IndexError
             | Some i =>
                 if existsb (fun '(out_s, in_s) =>
                               is_one in_s && negb (is_one out_s))
                      (zip out_shape (shape (vtype i)))
                 then Raise ValueError else Ok tt
             end
       | r => r
       end) ip (Ok tt).

Definition check_inplace_dtypes (out_dtype : Dtype) (ins : list Var)
    (ip : list (nat * nat)) : Result unit :=
  fold_left
    (fun acc '(o, i) =>
       match acc with
       | Ok _ =>
           if negb (bool_decide (o = 0)) then Raise IndexError
           else
             match ins !! i with
             | None => Raise IndexError
             | Some v =>
                 if bool_decide (dtype (vtype v) = out_dtype) then Ok tt
                 else Raise TypeError
             end
       | r => r
       end) ip (Ok tt).

Definition Elemwise_make_node (sop : ScalarOp) (ip : list (nat * nat))
    (inputs : list Scale) : Build Apply :=
  let* inputs := mapM as_tensor_variable inputs in
  (* get_output_info *)
  let* out_dtype :=
    lift (of_sum (scalar_output_dtype sop (map (fun i => dtype (vtype i)) inputs))) in
  let* _ := if bool_decide (inputs = @nil Var) then raise ValueError else ret tt in
  let target_length := foldr max 0 (map (fun i => ndim (vtype i)) inputs) in
  let* inputs := mapM (left_complete target_length) inputs in
  let* out_shape :=
    (* [except ValueError: raise ValueError(...)] *)
    lift (sequence_result
            (map get_most_specialized_shape
                 (transpose_shapes target_length
                    (map (fun i => shape (vtype i)) inputs)))) in
  let* _ := lift (check_inplace_shapes out_shape inputs ip) in
  let* _ := lift (check_inplace_dtypes out_dtype inputs ip) in
  mk_Apply (Elemwise sop ip) inputs [TensorType out_dtype out_shape].

Definition call_Elemwise (sop : ScalarOp) (inputs : list Scale) : Build Var :=
  let* a := Elemwise_make_node sop [] inputs in ret (default_output a).

(** *** Python operators on scales and variables *)

(** [try: c except (NotImplementedError, TypeError): return NotImplemented],
    after which Python raises [TypeError] for the operator. *)
Definition binary_operator {A} (c : Build A) : Build A :=
  fun n =>
    match c n with
    | (Raise NotImplementedError, n') => (Raise TypeError, n')
    | r => r
    end.

(** Modelled from the spec: the operators of [TensorVariable] are not among
    the sources. [-v] is [neg(v)]; [v * w] and [v + w] are [mul(v, w)] and
    [add(v, w)], with a Python number on the left handled by the reflected
    method of the variable; Python floats use float arithmetic. *)
Definition scale_neg (s : Scale) : Build Scale :=
  match s with
  | Num f => ret (Num (- f)%float)
  | Sym v => let* r := call_Elemwise Neg [Sym v] in ret (Sym r)
  end.

Definition scale_add (s t : Scale) : Build Scale :=
  match s, t with
  | Num f, Num g => ret (Num (f + g)%float)
  | Num f, Sym w => let* r := call_Elemwise Add [s; t] in ret (Sym r)
  | Sym v, _ => let* r := binary_operator (call_Elemwise Add [s; t]) in ret (Sym r)
  end.

(** [s * thing] for a variable [thing]. *)
Definition scale_mul (s : Scale) (thing : Var) : Build Var :=
  match s with
  | Num f => call_Elemwise Mul [s; Sym thing]
  | Sym v => binary_operator (call_Elemwise Mul [s; Sym thing])
  end.

(** [-thing] for a variable [thing]. *)
Definition var_neg (thing : Var) : Build Var := call_Elemwise Neg [Sym thing].

(** Modelled from the spec: the class of tensor variables is not among the
    sources. [s == k] for a Python number [k] compares two Python floats by
    value; variables keep Python's default [__eq__], which is identity, so
    a variable is equal to no number. *)
Definition scale_eq (s : Scale) (k : float) : bool :=
  match s with
  | Num f => PrimFloat.eqb f k
  | Sym _ => false
  end.

(** Modelled from the spec: [cast] of [pytensor.tensor.basic] is not among
    the sources. A variable that has the dtype already is returned as it
    is; a complex variable is not cast to a real dtype; otherwise the
    result is the output of a new [Elemwise] cast node. *)
Definition cast (x : Var) (d : Dtype) : Build Var :=
  let* _x := as_tensor_variable (Sym x) in
  if bool_decide (dtype (vtype _x) = d) then ret _x
  else if startswith_complex (dtype (vtype _x)) && negb (startswith_complex d)
  then raise TypeError
  else call_Elemwise (Cast d) [Sym x].

End Construction.

(** ** blas.py: the fused accumulate op and its canonicaliser *)

(** A client of a variable: input number [pos] of a node, or output
    number [pos] of the graph. *)
Inductive Client : Type :=
| NodeClient (node : ident) (pos : nat)
| OutputClient (pos : nat).

(** The function graph, as far as the rewriter reads it: [clients] maps the
    identity of a variable to its list of clients, [apply_nodes] holds the
    identities of the nodes in the graph. *)
Record FunctionGraph : Type := mkFunctionGraph {
  fg_inputs : list Var;
  fg_outputs : list Var;
  clients : gmap ident (list Client);
  apply_nodes : gset ident;
}.

(** An entry of a canonicalised list: the tuple [(scale, term)], or a
    single variable. *)
Inductive Entry : Type :=
| Pair (s : Scale) (M : Var)
| Bare (v : Var).

Section Blas.
Context `{Ext : Externals}.

(** [set(a).intersection(set(b))] is not empty; variables hash by
    identity. *)
Definition roots_intersect (a b : list Var) : bool :=
  existsb (fun v => existsb (is_ v) b) a.

(** [Gemm.make_node] *)
Definition Gemm_make_node (inplace : bool) (inputs : list Scale) : Build Apply :=
  let* inputs := mapM as_tensor_variable inputs in
  if existsb (fun i => negb (isinstance_DenseTensorType (vtype i))) inputs
  then raise NotImplementedError
  else
    match inputs with
    | [z; a; x; y; b] =>
        let zr := view_roots z in
        let xr := view_roots x in
        let yr := view_roots y in
        if inplace && roots_intersect zr xr then raise InconsistencyError
        else if inplace && roots_intersect zr yr then raise InconsistencyError
        else if negb (ndim (vtype z) =? 2) then raise TypeError
        else if negb (ndim (vtype a) =? 0) then raise TypeError
        else if negb (ndim (vtype x) =? 2) then raise TypeError
        else if negb (ndim (vtype y) =? 2) then raise TypeError
        else if negb (ndim (vtype b) =? 0) then raise TypeError
        else if negb (bool_decide (dtype (vtype z) = dtype (vtype a)
                                   /\ dtype (vtype a) = dtype (vtype x)
                                   /\ dtype (vtype x) = dtype (vtype y)
                                   /\ dtype (vtype y) = dtype (vtype b)))
        then raise TypeError
        else if negb (startswith_float (dtype (vtype z)))
                && negb (startswith_complex (dtype (vtype z)))
        then raise TypeError
        else mk_Apply (Gemm inplace) inputs [vtype z]
    | _ => raise TypeError
    end.

Definition call_Gemm (inplace : bool) (inputs : list Scale) : Build Var :=
  let* a := Gemm_make_node inplace inputs in ret (default_output a).

(** [_is_real_matrix], [_is_real_vector] *)
Definition _is_real_matrix (res : Var) : bool :=
  dtype_in (dtype (vtype res)) float_dtypes
  && match shape (vtype res) with
     | [s0; s1] => negb (is_one s0) && negb (is_one s1)
     | _ => false
     end.

Definition _is_real_vector (res : Var) : bool :=
  dtype_in (dtype (vtype res)) float_dtypes
  && match shape (vtype res) with
     | [s0] => negb (is_one s0)
     | _ => false
     end.

(** [while i.owner and isinstance(i.owner.op, DimShuffle):
       i = i.owner.inputs[0]] *)
Fixpoint strip_DimShuffle (i : Var) : Result Var :=
  match i with
  | Out _ (DimShuffle _ _) ins _ _ =>
      match ins with
      | i0 :: _ => strip_DimShuffle i0
      | [] => Raise IndexError
      end
  | _ => Ok i
  end.

(** [l[k]] *)
Definition getitem {A} (l : list A) (k : nat) : Build A :=
  match l !! k with
  | Some x => ret x
  | None => raise IndexError
  end.

(** The helper [scaled] of [_gemm_canonicalize], closed over [scale]. *)
Definition scaled (scale : Scale) (thing : Var) : Build Var :=
  if scale_eq scale 1 then ret thing
  else if scale_eq scale (-1) && negb (bool_decide (dtype (vtype thing) = bool_))
  then var_neg thing
  else scale_mul scale thing.

(** The classification loop over the inputs of a [mul] node: [None] when
    the loop takes its early return, otherwise the three lists. *)
Fixpoint classify_factors (ins : list Var) (scalars vectors matrices : list Var)
  : Build (option (list Var * list Var * list Var)) :=
  match ins with
  | [] => ret (Some (scalars, vectors, matrices))
  | i :: rest =>
      if all_one (vtype i) then
        let* i := lift (strip_DimShuffle i) in
        let* sc := if 0 <? ndim (vtype i) then dimshuffle i [] else ret i in
        classify_factors rest (scalars ++ [sc]) vectors matrices
      else if _is_real_vector i then
        classify_factors rest scalars (vectors ++ [i]) matrices
      else if _is_real_matrix i then
        classify_factors rest scalars vectors (matrices ++ [i])
      else ret None
  end.

(** The scale handed to the recursive call on the one matrix or vector
    factor of a [mul]. *)
Definition folded_scale (scale : Scale) (scalars : list Var) : Build Scale :=
  match scalars with
  | [] => ret scale
  | [s0] => let* t := scaled scale s0 in ret (Sym t)
  | s0 :: more =>
      let* t := scaled scale s0 in
      let* p := call_Elemwise Mul (Sym t :: map Sym more) in
      ret (Sym p)
  end.

(** [_gemm_canonicalize]. The list [rval] is mutated in place by the source
    and its callers ignore the returned value, so the model returns the
    list as it is after the call. [self] stands for the recursive calls. *)
Definition canonicalize_step
    (self : Var -> Scale -> list Entry -> nat -> Build (list Entry))
    (fgraph : FunctionGraph) (r : Var) (scale : Scale) (rval : list Entry)
    (maxclients : nat) : Build (list Entry) :=
  if negb (isinstance_TensorType (vtype r)) then ret rval
  else if negb (bool_decide (ndim (vtype r) ∈ [1; 2]))
          || negb (dtype_in (dtype (vtype r)) gemm_dtypes)
  then let* t := scaled scale r in ret (rval ++ [Bare t])
  else
    let* too_many :=
      if maxclients =? 0 then ret false
      else match clients fgraph !! var_id r with
           | Some l => ret (maxclients <? length l)
           | None => raise KeyError
           end in
    if too_many then ret (rval ++ [Pair scale r])
    else if owner_op_is r sub then
      let* i0 := getitem (from_option inputs [] (owner r)) 0 in
      let* rval := self i0 scale rval 1 in
      let* i1 := getitem (from_option inputs [] (owner r)) 1 in
      let* nscale := scale_neg scale in
      self i1 nscale rval 1
    else if owner_op_is r add then
      foldM (fun rval i => self i scale rval 1)
        (from_option inputs [] (owner r)) rval
    else if owner_op_is r neg then
      let* i0 := getitem (from_option inputs [] (owner r)) 0 in
      let* nscale := scale_neg scale in
      self i0 nscale rval 1
    else if owner_op_is r mul then
      let* cls := classify_factors (from_option inputs [] (owner r)) [] [] [] in
      match cls with
      | None => ret (rval ++ [Pair scale r])
      | Some (scalars, vectors, matrices) =>
          if length matrices =? 1 then
            let* _ := assert_ (length vectors =? 0) in
            let* m := getitem matrices 0 in
            let* s := folded_scale scale scalars in
            self m s rval 1
          else if length vectors =? 1 then
            let* _ := assert_ (length matrices =? 0) in
            let* v := getitem vectors 0 in
            let* s := folded_scale scale scalars in
            self v s rval 1
          else ret (rval ++ [Pair scale r])
      end
    else ret (rval ++ [Pair scale r]).

(** The recursion descends into the inputs of [r]; [fuel] bounds its
    depth. *)
Fixpoint canonicalize_fuel (fuel : nat) (fgraph : FunctionGraph) (r : Var)
    (scale : Scale) (rval : list Entry) (maxclients : nat)
  : Build (list Entry) :=
  match fuel with
  | 0 => out_of_fuel
  | S fuel =>
      canonicalize_step (canonicalize_fuel fuel fgraph) fgraph r scale rval
        maxclients
  end.

(** The depth of the expression under a variable. *)
Fixpoint height (v : Var) : nat :=
  match v with
  | Out _ _ ins _ _ => S (foldr (fun i acc => max (height i) acc) 0 ins)
  | _ => 0
  end.

Definition _gemm_canonicalize (fgraph : FunctionGraph) (r : Var)
    (scale : Scale) (rval : list Entry) (maxclients : nat)
  : Build (list Entry) :=
  canonicalize_fuel (S (height r)) fgraph r scale rval maxclients.

(** [_factor_canonicalized]. Unpacking [s, M = lst[k]] succeeds on a tuple;
    on a single variable the source's [except Exception] branch skips the
    entry. Both loops are bounded by the length of the list, which is the
    fuel they get. *)
Fixpoint factor_inner (fuel : nat) (lst : list Entry) (i j : nat)
    (s_i : Scale) (M_i : Var) : Build (list Entry) :=
  match fuel with
  | 0 => out_of_fuel
  | S fuel =>
      if j <? length lst then
        match lst !! j with
        | Some (Pair s_j M_j) =>
            if is_ M_i M_j then
              let* s_i := scale_add s_i s_j in
              factor_inner fuel (delete j (<[i := Pair s_i M_i]> lst)) i j s_i M_i
            else factor_inner fuel lst i (S j) s_i M_i
        | _ => factor_inner fuel lst i (S j) s_i M_i
        end
      else ret lst
  end.

Fixpoint factor_outer (fuel : nat) (lst : list Entry) (i : nat)
  : Build (list Entry) :=
  match fuel with
  | 0 => out_of_fuel
  | S fuel =>
      if i <? length lst - 1 then
        match lst !! i with
        | Some (Pair s_i M_i) =>
            let* lst := factor_inner (S (length lst)) lst i (S i) s_i M_i in
            factor_outer fuel lst (S i)
        | _ => factor_outer fuel lst (S i)
        end
      else ret lst
  end.

Definition _factor_canonicalized (lst : list Entry) : Build (list Entry) :=
  factor_outer (S (length lst)) lst 0.

(** The deduplication as the specification words it: every term keeps its
    first entry, whose scale becomes the sum, taken from left to right, of
    the scales of all entries of that term; the later entries of the term
    are removed. [absorb s M rest] sums into [s] the scales of the entries
    of [M] in [rest] and removes them; [merge_all] does so for every entry
    in turn. *)
Fixpoint absorb (s : Scale) (M : Var) (rest : list Entry)
  : Build (Scale * list Entry) :=
  match rest with
  | [] => ret (s, [])
  | Pair s_j M_j :: rest =>
      if is_ M M_j then
        let* s := scale_add s s_j in absorb s M rest
      else
        let* (s, rest) := absorb s M rest in ret (s, Pair s_j M_j :: rest)
  | Bare v :: rest =>
      let* (s, rest) := absorb s M rest in ret (s, Bare v :: rest)
  end.

Fixpoint merge_all (fuel : nat) (lst : list Entry) : Build (list Entry) :=
  match fuel with
  | 0 => out_of_fuel
  | S fuel =>
      match lst with
      | [] => ret []
      | Bare v :: rest =>
          let* tl := merge_all fuel rest in ret (Bare v :: tl)
      | Pair s M :: rest =>
          let* (s, rest) := absorb s M rest in
          let* tl := merge_all fuel rest in
          ret (Pair s M :: tl)
      end
  end.

(** The identities of the terms of the tuples of a list, and the scales a
    list gives to the term [M], in order. *)
Definition term_ids (lst : list Entry) : list ident :=
  omap (fun e => match e with Pair _ M => Some (var_id M) | Bare _ => None end) lst.

Definition scales_of (M : Var) (lst : list Entry) : list Scale :=
  omap (fun e => match e with
                 | Pair s M' => if is_ M M' then Some s else None
                 | Bare _ => None
                 end) lst.

(** The entries of the term [M]. *)
Definition is_entry_of (M : Var) (e : Entry) : bool :=
  match e with
  | Pair _ M' => is_ M M'
  | Bare _ => false
  end.

(** [adds_up s l s']: adding the scales of [l] to [s], one after the other
    with Python's [+], gives [s']. *)
Inductive adds_up : Scale -> list Scale -> Scale -> Prop :=
| adds_up_nil s : adds_up s [] s
| adds_up_cons s t l s1 s' n n1 :
    scale_add s t n = (Ok s1, n1) -> adds_up s1 l s' -> adds_up s (t :: l) s'.

(** [Ml, Mr = node.inputs] *)
Definition unpack2 (l : list Var) : Build (Var * Var) :=
  match l with
  | [a; b] => ret (a, b)
  | _ => raise ValueError
  end.

Definition isinstance_DimShuffle (o : Op) : bool :=
  match o with DimShuffle _ _ => true | _ => false end.

Definition isinstance_Dot22 (o : Op) : bool :=
  match o with Dot22 => true | _ => false end.

Definition new_order_of (o : Op) : list (option nat) :=
  match o with DimShuffle _ no => no | _ => [] end.

(** The three cases of a [DimShuffle] of a [Dot22] output in
    [_beta_L_plus_alpha_M]: the pattern for [L] and the pattern applied to
    the result. *)
Definition dimshuffled_dot22 (L alpha MM beta : Var)
    (l_pattern g_pattern : list (option nat)) : Build (option (list Var * Var)) :=
  let* (MMl, MMr) := unpack2 (from_option inputs [] (owner MM)) in
  let* L' := dimshuffle L l_pattern in
  let* g := call_Gemm false [Sym L'; Sym alpha; Sym MMl; Sym MMr; Sym beta] in
  let* r := dimshuffle g g_pattern in
  ret (Some ([r], MM)).

(** [_beta_L_plus_alpha_M]; [None] is the source's [False, False]. *)
Fixpoint _beta_L_plus_alpha_M_flip (flips : nat) (beta L alpha M : Var)
  : Build (option (list Var * Var)) :=
  if owner_op_is M _dot22 then
    let* (Ml, Mr) := unpack2 (from_option inputs [] (owner M)) in
    let* g := call_Gemm false [Sym L; Sym alpha; Sym Ml; Sym Mr; Sym beta] in
    ret (Some ([g], M))
  else
    let through_dimshuffle :=
      match owner M with
      | Some a =>
          if isinstance_DimShuffle (op a) then
            match inputs a with
            | MM :: _ =>
                match owner MM with
                | Some b =>
                    if isinstance_Dot22 (op b) then Ok (Some (op a, MM))
                    else Ok None
                | None => Ok None
                end
            | [] => Raise IndexError
            end
          else Ok None
      | None => Ok None
      end in
    let* td := lift through_dimshuffle in
    let flip :=
      match flips with
      | S k => _beta_L_plus_alpha_M_flip k alpha M beta L
      | 0 => ret None
      end in
    match td with
    | Some (o, MM) =>
        if bool_decide (new_order_of o = [Some 0]) then
          dimshuffled_dot22 L alpha MM beta [Some 0; None] [Some 0]
        else if bool_decide (new_order_of o = [Some 1]) then
          dimshuffled_dot22 L alpha MM beta [None; Some 0] [Some 1]
        else if length (new_order_of o) =? 0 then
          dimshuffled_dot22 L alpha MM beta [None; None] []
        else flip
    | None => flip
    end.

Definition _beta_L_plus_alpha_M (fgraph : FunctionGraph)
    (beta L alpha M : Var) (recurse_flip : bool)
  : Build (option (list Var * Var)) :=
  _beta_L_plus_alpha_M_flip (if recurse_flip then 1 else 0) beta L alpha M.

(** The helper [item_to_var] of [_gemm_from_factored_list]. *)
Definition item_to_var (t : Entry) : Build Var :=
  match t with
  | Bare v => ret v
  | Pair s M =>
      if scale_eq s 1 then ret M
      else if scale_eq s (-1) then var_neg M
      else scale_mul s M
  end.

(** The first loop of [_gemm_from_factored_list]: keep the tuples whose
    scale casts to the dtype of the term. *)
Fixpoint matching_dtypes (lst : list Entry) : Build (list (Var * Var)) :=
  match lst with
  | [] => ret []
  | Bare _ :: rest => matching_dtypes rest
  | Pair sm0 sm1 :: rest =>
      let* sm0 := as_tensor_variable sm0 in
      if bool_decide (upcast (dtype (vtype sm0)) (dtype (vtype sm1))
                      = dtype (vtype sm1))
      then
        let* c := cast sm0 (dtype (vtype sm1)) in
        let* tl := matching_dtypes rest in
        ret ((c, sm1) :: tl)
      else matching_dtypes rest
  end.

(** [[item_to_var(input) for k, input in enumerate(lst) if k not in (i, j)]] *)
Fixpoint other_items (lst : list (Var * Var)) (k i j : nat) : Build (list Var) :=
  match lst with
  | [] => ret []
  | (s, M) :: rest =>
      if bool_decide (k = i) || bool_decide (k = j) then other_items rest (S k) i j
      else
        let* v := item_to_var (Pair (Sym s) M) in
        let* vs := other_items rest (S k) i j in
        ret (v :: vs)
  end.

(** The body of the inner [for j] loop and the loop itself over the
    remaining values of [j]. *)
Fixpoint try_j (fgraph : FunctionGraph) (lst : list (Var * Var)) (i : nat)
    (s_i M_i : Var) (js : list nat) : Build (option (list Var * Var)) :=
  match js with
  | [] => ret None
  | j :: js =>
      let* (s_j, M_j) := getitem lst j in
      if negb (in_same_class (vtype M_j) (vtype M_i)) then
        try_j fgraph lst i s_i M_i js
      else
        let* res := _beta_L_plus_alpha_M fgraph s_i M_i s_j M_j true in
        match res with
        | Some (gemm_of_sM_list, old_dot22) =>
            let* _ := assert_ (length gemm_of_sM_list =? 1) in
            let* add_inputs := other_items lst 0 i j in
            let add_inputs := add_inputs ++ gemm_of_sM_list in
            if 1 <? length add_inputs then
              let* r := call_Elemwise Add (map Sym add_inputs) in
              ret (Some ([r], old_dot22))
            else ret (Some (add_inputs, old_dot22))
        | None => try_j fgraph lst i s_i M_i js
        end
  end.

Fixpoint try_i (fgraph : FunctionGraph) (lst : list (Var * Var)) (idxs : list nat)
  : Build (option (list Var * Var)) :=
  match idxs with
  | [] => ret None
  | i :: idxs =>
      let* (s_i, M_i) := getitem lst i in
      let* res := try_j fgraph lst i s_i M_i
                    (seq (S i) (length lst - S i)) in
      match res with
      | Some r => ret (Some r)
      | None => try_i fgraph lst idxs
      end
  end.

(** [_gemm_from_factored_list]: [None], or the replacement list together
    with the [dot22] output it absorbs. *)
Definition _gemm_from_factored_list (fgraph : FunctionGraph) (lst : list Entry)
  : Build (option (list Var * Var)) :=
  let* lst := matching_dtypes lst in
  try_i fgraph lst (seq 0 (length lst - 1)).

(** [_gemm_from_node2], without its timings. *)
Definition _gemm_from_node2 (fgraph : FunctionGraph) (node : Apply)
  : Build (option (list Var * Var)) :=
  let* out0 := getitem (outputs node) 0 in
  let* lst := _gemm_canonicalize fgraph out0 (Num 1) [] 0 in
  if 1 <? length lst then
    let* lst := _factor_canonicalized lst in
    let* rval := _gemm_from_factored_list fgraph lst in
    match rval with
    | Some (new_outputs, old_dot22) =>
        let* r0 := getitem new_outputs 0 in
        if in_same_class (vtype r0) (vtype out0)
        then ret (Some (new_outputs, old_dot22))
        else ret None
    | None => ret None
    end
  else ret None.

(** [Dot22.make_node] *)
Definition Dot22_make_node (x y : Var) : Build Apply :=
  let* x := as_tensor_variable (Sym x) in
  let* y := as_tensor_variable (Sym y) in
  if existsb (fun i => negb (isinstance_DenseTensorType (vtype i))) [x; y]
  then raise NotImplementedError
  else if negb (ndim (vtype x) =? 2) || negb (dtype_in (dtype (vtype x)) gemm_dtypes)
  then raise TypeError
  else if negb (ndim (vtype y) =? 2) || negb (dtype_in (dtype (vtype y)) gemm_dtypes)
  then raise TypeError
  else if negb (bool_decide (dtype (vtype y) = dtype (vtype x)))
  then raise TypeError
  else
    let* s0 := getitem (shape (vtype x)) 0 in
    let* s1 := getitem (shape (vtype y)) 1 in
    mk_Apply Dot22 [x; y] [TensorType (dtype (vtype x)) [s0; s1]].

Definition call_Dot22 (x y : Var) : Build Var :=
  let* a := Dot22_make_node x y in ret (default_output a).

(** [local_inplace_gemm] *)
Definition local_inplace_gemm (fgraph : FunctionGraph) (node : Apply)
  : Build (option (list Var)) :=
  if bool_decide (op node = gemm_no_inplace) then
    let* new_out := call_Gemm true (map Sym (inputs node)) in
    ret (Some [new_out])
  else ret None.

End Blas.

(** ** A concrete reading of the imported functions *)

Module Numpy_promotion.

(** The size class of a dtype within its kind. *)
Definition kind_size (d : Dtype) : nat * nat :=
  match d with
  | bool_ => (0, 0)
  | uint8 => (1, 1) | uint16 => (1, 2) | uint32 => (1, 4) | uint64 => (1, 8)
  | int8 => (2, 1) | int16 => (2, 2) | int32 => (2, 4) | int64 => (2, 8)
  | float16 => (3, 2) | float32 => (3, 4) | float64 => (3, 8)
  | complex64 => (4, 8) | complex128 => (4, 16)
  end.

Definition float_of_size (n : nat) : Dtype :=
  if n <=? 2 then float16 else if n <=? 4 then float32 else float64.

Definition int_of_size (n : nat) : Dtype :=
  if n <=? 1 then int8 else if n <=? 2 then int16
  else if n <=? 4 then int32 else int64.

(** The float that holds every integer of [n] bytes, as NumPy promotes. *)
Definition float_for_int (n : nat) : nat :=
  if n <=? 1 then 2 else if n <=? 2 then 4 else 8.

(** NumPy's promotion of two dtypes. *)
Definition promote (a b : Dtype) : Dtype :=
  let '(ka, sa) := kind_size a in
  let '(kb, sb) := kind_size b in
  if bool_decide (a = b) then a
  else if ka =? 0 then b
  else if kb =? 0 then a
  else if (ka =? 4) || (kb =? 4) then
    let need k s :=
      if k =? 4 then s
      else if k =? 3 then 2 * s
      else 2 * float_for_int s in
    if max (need ka sa) (need kb sb) <=? 8 then complex64 else complex128
  else if (ka =? 3) || (kb =? 3) then
    let need k s := if k =? 3 then s else float_for_int s in
    float_of_size (max (need ka sa) (need kb sb))
  else if ka =? kb then
    (if sa <=? sb then b else a)
  else
    (* one signed, one unsigned integer *)
    let '(su, ss) := if ka =? 1 then (sa, sb) else (sb, sa) in
    if su <? ss then int_of_size ss
    else if su <? 8 then int_of_size (2 * su)
    else float64.

End Numpy_promotion.

(** Modelled from the spec: [view_roots] of [pytensor.graph.basic] is not
    among the sources. A variable without owner, or whose owner's op has no
    [view_map] entry for it, is its own root; otherwise its roots are those
    of the inputs it is a view of. Of the ops here only [DimShuffle]
    declares a [view_map] ([{0: [0]}]). *)
Definition view_map_of (o : Op) : list (nat * list nat) :=
  match o with
  | DimShuffle _ _ => [(0, [0])]
  | OtherOp _ vm => vm
  | _ => []
  end.

Fixpoint view_roots_fuel (fuel : nat) (v : Var) : list Var :=
  match fuel with
  | 0 => [v]
  | S fuel =>
      match v with
      | Out _ o ins _ k =>
          match list_find (fun e => e.1 = k) (view_map_of o) with
          | Some (_, (_, idxs)) =>
              flat_map (fun i => match ins !! i with
                                 | Some x => view_roots_fuel fuel x
                                 | None => []
                                 end) idxs
          | None => [v]
          end
      | _ => [v]
      end
  end.

Definition view_roots_model (v : Var) : list Var :=
  view_roots_fuel (S (height v)) v.

(** Modelled from the spec: the output types of the scalar ops of
    [pytensor.scalar] are not among the sources. [add], [sub] and [mul]
    upcast their inputs, [neg] keeps the dtype of its input and rejects
    [bool], as [sub] does; a cast has its target dtype. *)
Definition scalar_output_dtype_model (o : ScalarOp) (ds : list Dtype)
  : Exn + Dtype :=
  let up := match ds with
            | [] => inl TypeError
            | d :: ds => inr (fold_left Numpy_promotion.promote ds d)
            end in
  match o with
  | Add | Mul => up
  | Sub => if bool_decide (bool_ ∈ ds) then inl TypeError else up
  | Neg => match ds with
           | [d] => if bool_decide (d = bool_) then inl TypeError else inr d
           | _ => inl TypeError
           end
  | Cast d => inr d
  | OtherScalarOp _ => up
  end.

(** Modelled from the spec: [TensorType.in_same_class] is not among the
    sources; two tensor types are in one class when they have the same
    dtype and the same broadcastable pattern, hence the same rank. *)
Definition in_same_class_model (a b : Ty) : bool :=
  isinstance_TensorType b
  && bool_decide (dtype b = dtype a)
  && bool_decide (broadcastable b = broadcastable a).

(** Modelled from the spec: [autocast_float] of [pytensor.scalar.basic],
    which [as_tensor_variable] applies to a Python float, is not among the
    sources. Under the default configuration ([cast_policy] is [custom],
    [floatX] is [float64]) it tries [float32] and then [float64] and keeps
    the first dtype [d] with [x == asarray(x, d)]: a float that the cast to
    [float32] leaves equal, such as 1.0, -1.0 or 3.0, becomes a [float32]
    constant, and any other float, such as 0.1 or a NaN, a [float64] one.
    [as_float32] rounds to the nearest [float32], ties to even, and
    overflows to an infinity. *)
Definition as_float32 (x : float) : float :=
  match Prim2SF x with
  | S754_finite s m e =>
      SF2Prim (SpecFloat.binary_normalize 24 128 (cond_Zopp s (Zpos m)) e s)
  | _ => x
  end.

Definition autocast_float_model (x : float) : Dtype :=
  if PrimFloat.eqb x (as_float32 x) then float32 else float64.

#[global, refine] Instance pytensor_defaults : Externals := {|
  scalar_output_dtype := scalar_output_dtype_model;
  upcast := Numpy_promotion.promote;
  autocast_float := autocast_float_model;
  in_same_class := in_same_class_model;
  view_roots := view_roots_model;
|}.
Proof.
  intros a b H. unfold in_same_class_model in H.
  apply andb_prop in H as [H Hb]. apply andb_prop in H as [_ Hd].
  apply bool_decide_eq_true in Hb, Hd. split; [done|].
  unfold ndim. unfold broadcastable in Hb.
  rewrite <- (length_map is_one (shape a)), <- Hb. by rewrite length_map.
Defined.

(** The same reading with [config.floatX] set to [float32]: a Python float
    becomes a [float32] constant. *)
Definition pytensor_floatX32 : Externals :=
  {| scalar_output_dtype := scalar_output_dtype_model;
     upcast := Numpy_promotion.promote;
     autocast_float := fun _ => float32;
     in_same_class := in_same_class_model;
     in_same_class_sound := @in_same_class_sound pytensor_defaults;
     view_roots := view_roots_model |}.

(** Modelled from the spec: the constructor of [FunctionGraph] is not among
    the sources. The graph holds the nodes reachable from its outputs, and
    [clients] lists for every variable the node inputs and graph outputs
    that use it. *)
Fixpoint nodes_under (v : Var) : list Apply :=
  match v with
  | Out n o ins os _ =>
      (fix each (l : list Var) : list Apply :=
         match l with
         | [] => []
         | x :: l' => nodes_under x ++ each l'
         end) ins ++ [mkApply n o ins os]
  | _ => []
  end.

Fixpoint distinct_nodes (seen : gset ident) (l : list Apply) : list Apply :=
  match l with
  | [] => []
  | a :: l' =>
      if bool_decide (node_id a ∈ seen) then distinct_nodes seen l'
      else a :: distinct_nodes ({[node_id a]} ∪ seen) l'
  end.

Definition add_client (c : Client) (v : Var) (m : gmap ident (list Client))
  : gmap ident (list Client) :=
  <[var_id v := default [] (m !! var_id v) ++ [c]]> m.

Definition node_clients (a : Apply) (m : gmap ident (list Client))
  : gmap ident (list Client) :=
  let m := fold_left (fun m '(pos, v) => add_client (NodeClient (node_id a) pos) v m)
             (imap (fun pos v => (pos, v)) (inputs a)) m in
  fold_left (fun m v => if m !! var_id v is Some _ then m else <[var_id v := []]> m)
    (outputs a) m.

Definition FunctionGraph_of (ins outs : list Var) : FunctionGraph :=
  let nodes := distinct_nodes ∅ (flat_map nodes_under outs) in
  let m := fold_left (fun m v => <[var_id v := []]> m) ins ∅ in
  let m := fold_left (fun m a => node_clients a m) nodes m in
  let m := fold_left (fun m '(pos, v) => add_client (OutputClient pos) v m)
             (imap (fun pos v => (pos, v)) outs) m in
  mkFunctionGraph ins outs m (list_to_set (map node_id nodes)).

(** ** Gemm.perform *)

(** The NumPy calls [Gemm.perform] makes, as pure functions on array
    values. The in-place operations ([z[:] = v], [z += v], [z -= v],
    [z *= v], [z.itemset(v)]) return the new contents of [z]; storing them
    back is the business of [perform] below. *)
Class Numpy (ndarray : Type) : Type := {
  np_shape : ndarray -> list nat;
  np_dot : ndarray -> ndarray -> Result ndarray;
  np_negative : ndarray -> Result ndarray;
  np_multiply : ndarray -> ndarray -> Result ndarray;
  np_add : ndarray -> ndarray -> Result ndarray;
  np_broadcast_to : ndarray -> list nat -> Result ndarray;
  np_equals_float : ndarray -> float -> Result bool;
  np_setslice : ndarray -> ndarray -> Result ndarray;
  np_iadd : ndarray -> ndarray -> Result ndarray;
  np_isub : ndarray -> ndarray -> Result ndarray;
  np_imul : ndarray -> ndarray -> Result ndarray;
  np_itemset : ndarray -> ndarray -> Result ndarray;
}.

Abbreviation loc := nat.

Section Perform.
Context {ndarray : Type} `{NP : Numpy ndarray}.

(** Arrays live in a store, a list of arrays, and are named by their
    position in it, so that two names of one array are visible as such. *)
Definition Run (A : Type) : Type := ST (list ndarray) A.

(** Reading the array a name refers to. A name outside the store refers to
    nothing; no call of [perform] on allocated arrays gets there. *)
Definition load (l : loc) : Run ndarray :=
  fun σ => match σ !! l with
           | Some v => (Ok v, σ)
           | None => (Raise KeyError, σ)
           end.

(** Overwriting the contents of an array in place. *)
Definition write (l : loc) (v : ndarray) : Run unit :=
  fun σ => (Ok tt, <[l := v]> σ).

(** A new array. *)
Definition alloc (v : ndarray) : Run loc :=
  fun σ => (Ok (length σ), σ ++ [v]).

(** [z.copy()] *)
Definition copy (z : loc) : Run loc :=
  let* v := load z in alloc v.

(** [np.dot(x, y)] *)
Definition dot (x y : loc) : Run ndarray :=
  let* vx := load x in
  let* vy := load y in
  lift (np_dot vx vy).

(** An in-place operation [z op= v]. *)
Definition inplace_op (f : ndarray -> ndarray -> Result ndarray)
    (z : loc) (v : ndarray) : Run unit :=
  let* vz := load z in
  let* w := lift (f vz v) in
  write z w.

(** [l.shape[k]] *)
Definition shape_at (l : loc) (k : nat) : Run nat :=
  let* v := load l in
  match np_shape v !! k with
  | Some n => ret n
  | None => raise IndexError
  end.

(** [b == k] as the condition of an [if]. *)
Definition equals (b : loc) (k : float) : Run bool :=
  let* vb := load b in lift (np_equals_float vb k).

(** [a * np.dot(x, y)] *)
Definition a_dot (a x y : loc) : Run ndarray :=
  let* va := load a in
  let* d := dot x y in
  lift (np_multiply va d).

(** The accumulation of [perform] into the array [z], by the values of
    [b] and [a]. *)
Definition accumulate (z a x y b : loc) : Run unit :=
  let* b0 := equals b 0 in
  if b0 then
    let* a1 := equals a 1 in
    if a1 then
      let* d := dot x y in inplace_op np_setslice z d
    else
      let* am1 := equals a (-1) in
      if am1 then
        let* d := dot x y in
        let* nd := lift (np_negative d) in
        inplace_op np_setslice z nd
      else
        let* ad := a_dot a x y in inplace_op np_setslice z ad
  else
    let* b1 := equals b 1 in
    if b1 then
      let* a1 := equals a 1 in
      if a1 then
        let* d := dot x y in inplace_op np_iadd z d
      else
        let* am1 := equals a (-1) in
        if am1 then
          let* d := dot x y in inplace_op np_isub z d
        else
          let* ad := a_dot a x y in inplace_op np_iadd z ad
    else
      let* vb := load b in
      let* _ := inplace_op np_imul z vb in
      let* ad := a_dot a x y in
      inplace_op np_iadd z ad.

(** [if (x.shape[0] > z.shape[0]) or (y.shape[1] > z.shape[1]):
       z = np.broadcast_to(z, (max(...), max(...))).copy()] *)
Definition broadcast_z (z x y : loc) : Run loc :=
  let* x0 := shape_at x 0 in
  let* z0 := shape_at z 0 in
  let* needed :=
    if z0 <? x0 then ret true
    else
      let* y1 := shape_at y 1 in
      let* z1 := shape_at z 1 in
      ret (z1 <? y1) in
  if needed then
    let* vz := load z in
    let* x0 := shape_at x 0 in
    let* z0 := shape_at z 0 in
    let* y1 := shape_at y 1 in
    let* z1 := shape_at z 1 in
    let* v := lift (np_broadcast_to vz [max x0 z0; max y1 z1]) in
    alloc v
  else ret z.

(** [z, a, x, y, b = inp] *)
Definition unpack5 (inp : list loc) : Run (loc * loc * loc * loc * loc) :=
  match inp with
  | [z; a; x; y; b] => ret (z, a, x, y, b)
  | _ => raise ValueError
  end.

(** The part of [perform] after [z] has been copied or not. *)
Definition perform_on (z a x y b : loc) : Run loc :=
  let* vz := load z in
  if bool_decide (np_shape vz = []) then
    let* va := load a in
    let* za := lift (np_multiply vz va) in
    let* vb := load b in
    let* d := dot x y in
    let* bd := lift (np_multiply vb d) in
    let* v := lift (np_add za bd) in
    let* _ := inplace_op np_itemset z v in
    ret z
  else
    let* z := broadcast_z z x y in
    let* _ := accumulate z a x y b in
    ret z.

(** [Gemm.perform]: [inplace] is [params.inplace], [inp] names the five
    input arrays, and the returned name is what is stored in [zout[0]]. *)
Definition perform (inplace : bool) (inp : list loc) : Run loc :=
  let* (z, a, x, y, b) := unpack5 inp in
  let* va := load a in
  let* _ := assert_ (bool_decide (np_shape va = [])) in
  let* vb := load b in
  let* _ := assert_ (bool_decide (np_shape vb = [])) in
  let* z := if negb inplace then copy z else ret z in
  perform_on z a x y b.

(** What a call leaves in the output storage: the contents of the array
    named by [zout[0]], or the exception. *)
Definition output_value (r : Result loc * list ndarray)
  : Result (option ndarray) :=
  match r.1 with
  | Ok l => Ok (r.2 !! l)
  | Raise e => Raise e
  | OutOfFuel => OutOfFuel
  end.

(** Two runs side by side. The destructive run works on the array named
    [zA] in its store, the other run on [zB] in its own store. The two
    stores agree when the two arrays have the same contents and every
    array named in [RL] (the arrays that are only read) exists and is the
    same in both. *)
Definition agree (RL : list loc) (zA zB : loc) (σA σB : list ndarray) : Prop :=
  is_Some (σA !! zA)
  /\ σA !! zA = σB !! zB
  /\ Forall (fun l => is_Some (σA !! l) /\ σA !! l = σB !! l) RL.

(** From stores related by [Pre], the two runs both return, with [Post],
    or both raise the same exception. *)
Definition rel_run {A B} (Pre : list ndarray -> list ndarray -> Prop)
    (cA : Run A) (cB : Run B)
    (Post : A -> B -> list ndarray -> list ndarray -> Prop) : Prop :=
  forall σA σB : list ndarray, Pre σA σB ->
    match cA σA, cB σB with
    | (Ok a, σA'), (Ok b, σB') => Post a b σA' σB'
    | (Raise e, _), (Raise e', _) => e = e'
    | (OutOfFuel, _), (OutOfFuel, _) => True
    | _, _ => False
    end.

(** The two runs returned the same value and the stores still agree. *)
Definition same {A} (RL : list loc) (zA zB : loc)
  : A -> A -> list ndarray -> list ndarray -> Prop :=
  fun a b σA σB => a = b /\ agree RL zA zB σA σB.

(** The two runs leave the same contents in their output arrays. *)
Definition same_output : loc -> loc -> list ndarray -> list ndarray -> Prop :=
  fun lA lB σA σB => σA !! lA = σB !! lB.

(** [untouched n0 σ σ']: the store [σ'] still holds the first [n0] arrays
    of [σ], with their contents. [frame n0 Q c]: run from a store of at
    least [n0] arrays, [c] leaves these untouched, and a value it returns
    satisfies [Q]. *)
Definition untouched (n0 : nat) (σ σ' : list ndarray) : Prop :=
  n0 <= length σ' /\ forall l, l < n0 -> σ' !! l = σ !! l.

Definition frame {A} (n0 : nat) (Q : A -> Prop) (c : Run A) : Prop :=
  forall σ : list ndarray, n0 <= length σ ->
    untouched n0 σ (c σ).2
    /\ match (c σ).1 with
       | Ok a => Q a
       | _ => True
       end.

End Perform.

(** ** GemmOptimizer.apply *)

(** The counters [apply] returns (its timings are left out). *)
Record Counters : Type := mkCounters {
  nb_iter : nat;
  nb_replacement : nat;
  nb_replacement_didn_t_remove : nat;
  nb_inconsistency_make : nat;
  nb_inconsistency_replace : nat;
}.

(** What [apply] mutates: the function graph, the supply of identities,
    the counters and [self.warned]. *)
Record OptState : Type := mkOptState {
  st_fgraph : FunctionGraph;
  st_next : ident;
  st_counters : Counters;
  st_warned : bool;
}.

Section GemmOptimizer.
Context `{Ext : Externals}.

(** [pytensor.graph.basic.io_toposort] and
    [FunctionGraph.replace_all_validate_remove] are not among the sources.
    The replacement returns, whether it succeeds or raises, the graph it
    leaves and the nodes whose import it announced to the [on_import]
    callback. *)
Variable io_toposort : list Var -> list Var -> list Apply.
Variable replace_all_validate_remove :
  FunctionGraph -> list (Var * Var) -> list Var ->
  Result unit * FunctionGraph * list Apply.

(** The filter at the head of the [for] loop. *)
Definition is_candidate (node : Apply) : bool :=
  match op node with
  | Elemwise Add _ | Elemwise Sub _ | Elemwise Neg _ | Elemwise Mul _ => true
  | _ => false
  end.

Definition count_inconsistency_make (st : OptState) (n : ident) : OptState :=
  let c := st_counters st in
  mkOptState (st_fgraph st) n
    (mkCounters (nb_iter c) (nb_replacement c) (nb_replacement_didn_t_remove c)
       (S (nb_inconsistency_make c)) (nb_inconsistency_replace c))
    (st_warned st).

Definition count_replacement (st : OptState) (fg : FunctionGraph) (n : ident)
  : OptState :=
  let c := st_counters st in
  mkOptState fg n
    (mkCounters (nb_iter c) (S (nb_replacement c)) (nb_replacement_didn_t_remove c)
       (nb_inconsistency_make c) (nb_inconsistency_replace c))
    (st_warned st).

Definition count_inconsistency_replace (st : OptState) (fg : FunctionGraph)
    (n : ident) : OptState :=
  let c := st_counters st in
  mkOptState fg n
    (mkCounters (nb_iter c) (nb_replacement c) (nb_replacement_didn_t_remove c)
       (nb_inconsistency_make c) (S (nb_inconsistency_replace c)))
    (st_warned st).

Definition count_didn_t_remove (st : OptState) (fg : FunctionGraph) (n : ident)
  : OptState :=
  let c := st_counters st in
  mkOptState fg n
    (mkCounters (nb_iter c) (nb_replacement c) (S (nb_replacement_didn_t_remove c))
       (nb_inconsistency_make c) (nb_inconsistency_replace c))
    true.

Definition count_iter (st : OptState) : OptState :=
  let c := st_counters st in
  mkOptState (st_fgraph st) (st_next st)
    (mkCounters (S (nb_iter c)) (nb_replacement c) (nb_replacement_didn_t_remove c)
       (nb_inconsistency_make c) (nb_inconsistency_replace c))
    (st_warned st).

(** The callback [on_import]: the imported nodes other than [node] are
    appended to the list the [for] loop is iterating over. *)
Definition on_import (node : Apply) (nodelist imported : list Apply) : list Apply :=
  nodelist ++ filter (fun new_node => node_is new_node node = false) imported.

(** The [for node in nodelist] loop of one pass. [nodelist] is what is left
    to visit; it can grow while the loop runs, so the loop takes fuel. The
    result is the state and [did_something]. *)
Fixpoint pass (fuel : nat) (nodelist : list Apply) (st : OptState)
    (did_something : bool) : Result (OptState * bool) :=
  match fuel with
  | 0 => OutOfFuel
  | S fuel =>
      match nodelist with
      | [] => Ok (st, did_something)
      | node :: nodelist =>
          if negb (is_candidate node) then pass fuel nodelist st did_something
          else if negb (bool_decide (node_id node ∈ apply_nodes (st_fgraph st)))
          then pass fuel nodelist st did_something
          else
            match _gemm_from_node2 (st_fgraph st) node (st_next st) with
            | (Raise InconsistencyError, n) =>
                pass fuel nodelist (count_inconsistency_make st n) did_something
            | (Raise e, _) => Raise e
            | (OutOfFuel, _) => OutOfFuel
            | (Ok None, n) =>
                pass fuel nodelist
                  (mkOptState (st_fgraph st) n (st_counters st) (st_warned st))
                  did_something
            | (Ok (Some (new_outputs, old_dot22)), n) =>
                if negb (length new_outputs =? length (outputs node))
                then Raise AssertionError
                else
                  match replace_all_validate_remove (st_fgraph st)
                          (zip (outputs node) new_outputs) [old_dot22] with
                  | (Ok _, fg, imported) =>
                      pass fuel (on_import node nodelist imported)
                        (count_replacement st fg n) true
                  | (Raise InconsistencyError, fg, imported) =>
                      pass fuel (on_import node nodelist imported)
                        (count_inconsistency_replace st fg n) did_something
                  | (Raise ReplacementDidNotRemoveError, fg, imported) =>
                      pass fuel (on_import node nodelist imported)
                        (count_didn_t_remove st fg n) did_something
                  | (Raise e, _, _) => Raise e
                  | (OutOfFuel, _, _) => OutOfFuel
                  end
            end
      end
  end.

(** The [while did_something] loop, entered with [did_something] true. *)
Fixpoint while_did_something (fuel : nat) (st : OptState) : Result OptState :=
  match fuel with
  | 0 => OutOfFuel
  | S fuel =>
      let st := count_iter st in
      let nodelist :=
        rev (io_toposort (fg_inputs (st_fgraph st)) (fg_outputs (st_fgraph st))) in
      match pass fuel nodelist st false with
      | Ok (st, true) => while_did_something fuel st
      | Ok (st, false) => Ok st
      | Raise e => Raise e
      | OutOfFuel => OutOfFuel
      end
  end.

(** [GemmOptimizer.apply]: the final state holds the graph as rewritten,
    the counters of the returned tuple and [self.warned]. *)
Definition GemmOptimizer_apply (fuel : nat) (warned : bool)
    (fgraph : FunctionGraph) (next : ident) : Result OptState :=
  while_did_something fuel
    (mkOptState fgraph next (mkCounters 0 0 0 0 0) warned).

(** *** The pass as the specification describes it *)

(** What the loop does at one node of the list: it leaves the node alone
    (the node is no add, sub, neg or mul [Elemwise], or it is no longer in
    the graph), the candidate builder returns nothing, the candidate
    builder raises [InconsistencyError], the replacement is committed, or
    the commit raises [InconsistencyError] or
    [ReplacementDidNotRemoveError]. *)
Inductive Outcome : Type :=
| Left_alone
| No_candidate
| Make_inconsistent
| Replaced
| Replace_inconsistent
| Did_not_remove.

#[global] Instance Outcome_eq_dec : EqDecision Outcome.
Proof. solve_decision. Defined.

(** How often the outcome [k] occurs in a trace. *)
Definition occurrences (k : Outcome) (trace : list (Apply * Outcome)) : nat :=
  length (filter (fun e => e.2 = k) trace).

(** [visits nodelist st trace st']: the [for] loop started on [nodelist]
    in the state [st] visits the nodes of [trace], in this order and each
    with the outcome listed, and ends in the state [st']. A state is
    written out as (graph, next identity, (nb_iter, nb_replacement,
    nb_replacement_didn_t_remove, nb_inconsistency_make,
    nb_inconsistency_replace), warned).
    - After an [InconsistencyError] of the candidate builder the loop goes
      on with the rest of the list, [nb_inconsistency_make] one higher.
    - After a commit the loop goes on with the rest of the list followed
      by the imported nodes other than the node itself, in the graph the
      commit leaves: [nb_replacement] is one higher when the commit
      returned, [nb_inconsistency_replace] when it raised
      [InconsistencyError], and [nb_replacement_didn_t_remove] when it
      raised [ReplacementDidNotRemoveError], which also sets [warned].
    - The loop ends at the end of the list only. *)
Inductive visits :
  list Apply -> OptState -> list (Apply * Outcome) -> OptState -> Prop :=
| visits_end st :
    visits [] st [] st
| visits_left_alone node nodelist st trace st' :
    is_candidate node = false \/ node_id node ∉ apply_nodes (st_fgraph st) ->
    visits nodelist st trace st' ->
    visits (node :: nodelist) st ((node, Left_alone) :: trace) st'
| visits_no_candidate node nodelist fg n0 c w n trace st' :
    is_candidate node = true -> node_id node ∈ apply_nodes fg ->
    _gemm_from_node2 fg node n0 = (Ok None, n) ->
    visits nodelist (mkOptState fg n c w) trace st' ->
    visits (node :: nodelist) (mkOptState fg n0 c w)
      ((node, No_candidate) :: trace) st'
| visits_make_inconsistent node nodelist fg n0 it rp dr im ir w n trace st' :
    is_candidate node = true -> node_id node ∈ apply_nodes fg ->
    _gemm_from_node2 fg node n0 = (Raise InconsistencyError, n) ->
    visits nodelist (mkOptState fg n (mkCounters it rp dr (S im) ir) w)
      trace st' ->
    visits (node :: nodelist) (mkOptState fg n0 (mkCounters it rp dr im ir) w)
      ((node, Make_inconsistent) :: trace) st'
| visits_replaced node nodelist fg n0 it rp dr im ir w new_outputs old_dot22
    n fg' imported trace st' :
    is_candidate node = true -> node_id node ∈ apply_nodes fg ->
    _gemm_from_node2 fg node n0 = (Ok (Some (new_outputs, old_dot22)), n) ->
    length new_outputs = length (outputs node) ->
    replace_all_validate_remove fg (zip (outputs node) new_outputs) [old_dot22]
    = (Ok tt, fg', imported) ->
    visits
      (nodelist ++ filter (fun new_node => node_id new_node <> node_id node)
                     imported)
      (mkOptState fg' n (mkCounters it (S rp) dr im ir) w) trace st' ->
    visits (node :: nodelist) (mkOptState fg n0 (mkCounters it rp dr im ir) w)
      ((node, Replaced) :: trace) st'
| visits_replace_inconsistent node nodelist fg n0 it rp dr im ir w new_outputs
    old_dot22 n fg' imported trace st' :
    is_candidate node = true -> node_id node ∈ apply_nodes fg ->
    _gemm_from_node2 fg node n0 = (Ok (Some (new_outputs, old_dot22)), n) ->
    length new_outputs = length (outputs node) ->
    replace_all_validate_remove fg (zip (outputs node) new_outputs) [old_dot22]
    = (Raise InconsistencyError, fg', imported) ->
    visits
      (nodelist ++ filter (fun new_node => node_id new_node <> node_id node)
                     imported)
      (mkOptState fg' n (mkCounters it rp dr im (S ir)) w) trace st' ->
    visits (node :: nodelist) (mkOptState fg n0 (mkCounters it rp dr im ir) w)
      ((node, Replace_inconsistent) :: trace) st'
| visits_did_not_remove node nodelist fg n0 it rp dr im ir w new_outputs
    old_dot22 n fg' imported trace st' :
    is_candidate node = true -> node_id node ∈ apply_nodes fg ->
    _gemm_from_node2 fg node n0 = (Ok (Some (new_outputs, old_dot22)), n) ->
    length new_outputs = length (outputs node) ->
    replace_all_validate_remove fg (zip (outputs node) new_outputs) [old_dot22]
    = (Raise ReplacementDidNotRemoveError, fg', imported) ->
    visits
      (nodelist ++ filter (fun new_node => node_id new_node <> node_id node)
                     imported)
      (mkOptState fg' n (mkCounters it rp (S dr) im ir) true) trace st' ->
    visits (node :: nodelist) (mkOptState fg n0 (mkCounters it rp dr im ir) w)
      ((node, Did_not_remove) :: trace) st'.

(** One whole pass from the state [st]: [nb_iter] is counted up, the nodes
    of the graph are sorted, and the loop visits them in the reverse of
    that order, from the first to the end of the list. *)
Definition whole_pass (st : OptState) (trace : list (Apply * Outcome))
    (st' : OptState) : Prop :=
  visits
    (rev (io_toposort (fg_inputs (st_fgraph st)) (fg_outputs (st_fgraph st))))
    (mkOptState (st_fgraph st) (st_next st)
       (mkCounters (S (nb_iter (st_counters st)))
          (nb_replacement (st_counters st))
          (nb_replacement_didn_t_remove (st_counters st))
          (nb_inconsistency_make (st_counters st))
          (nb_inconsistency_replace (st_counters st)))
       (st_warned st))
    trace st'.

(** [passes st st']: a sequence of whole passes leads from [st] to [st'];
    in every pass but the last at least one replacement was committed, and
    in the last none was. *)
Inductive passes : OptState -> OptState -> Prop :=
| passes_last st trace st' :
    whole_pass st trace st' ->
    (forall node, (node, Replaced) ∉ trace) ->
    passes st st'
| passes_again st trace st1 st' :
    whole_pass st trace st1 ->
    (exists node, (node, Replaced) ∈ trace) ->
    passes st1 st' ->
    passes st st'.

End GemmOptimizer.

(** ** NumPy on float64 arrays of rank 0 and 2 *)

Module Float_arrays.

(** A C-contiguous array of float64: its shape and its items in row-major
    order. *)
Record ndarray : Type := mk_ndarray {
  arr_shape : list nat;
  arr_data : list float;
}.

Definition item (a : ndarray) (k : nat) : float := nth k (arr_data a) 0%float.

(** The length of one broadcast axis. *)
Definition broadcast_dim (m n : nat) : Result nat :=
  if m =? n then Ok m
  else if m =? 1 then Ok n
  else if n =? 1 then Ok m
  else Raise ValueError.

(** The broadcast of two shapes; shapes of rank other than 0 and 2 are
    outside this model. *)
Definition broadcast_shapes (s t : list nat) : Result (list nat) :=
  match s, t with
  | [], _ => match t with [] | [_; _] => Ok t | _ => Raise NotImplementedError end
  | [_; _], [] => Ok s
  | [r1; c1], [r2; c2] =>
      match broadcast_dim r1 r2, broadcast_dim c1 c2 with
      | Ok r, Ok c => Ok [r; c]
      | _, _ => Raise ValueError
      end
  | _, _ => Raise NotImplementedError
  end.

(** [np.broadcast_to(a, sh)] *)
Definition broadcast_to (a : ndarray) (sh : list nat) : Result ndarray :=
  match arr_shape a, sh with
  | [], [] => Ok a
  | [], [R; C] => Ok (mk_ndarray sh (replicate (R * C) (item a 0)))
  | [r; c], [R; C] =>
      if ((r =? R) || (r =? 1)) && ((c =? C) || (c =? 1)) then
        Ok (mk_ndarray sh
              (flat_map
                 (fun i => map (fun j => item a ((if r =? 1 then 0 else i) * c
                                                 + (if c =? 1 then 0 else j)))
                               (seq 0 C))
                 (seq 0 R)))
      else Raise ValueError
  | [_; _], [] => Raise ValueError
  | _, _ => Raise NotImplementedError
  end.

(** An elementwise binary operation with broadcasting, giving a new
    array. *)
Definition binary (f : float -> float -> float) (a b : ndarray) : Result ndarray :=
  match broadcast_shapes (arr_shape a) (arr_shape b) with
  | Ok sh =>
      match broadcast_to a sh, broadcast_to b sh with
      | Ok a', Ok b' => Ok (mk_ndarray sh (zip_with f (arr_data a') (arr_data b')))
      | Raise e, _ | _, Raise e => Raise e
      | _, _ => OutOfFuel
      end
  | Raise e => Raise e
  | OutOfFuel => OutOfFuel
  end.

(** An elementwise operation into [z]: [v] is broadcast to the shape of
    [z]. *)
Definition binary_into (f : float -> float -> float) (z v : ndarray)
  : Result ndarray :=
  match broadcast_to v (arr_shape z) with
  | Ok v' => Ok (mk_ndarray (arr_shape z) (zip_with f (arr_data z) (arr_data v')))
  | r => r
  end.

(** [np.dot] of two matrices, and of two scalars. *)
Definition dot (x y : ndarray) : Result ndarray :=
  match arr_shape x, arr_shape y with
  | [], [] => binary PrimFloat.mul x y
  | [n; k], [k'; m] =>
      if k =? k' then
        Ok (mk_ndarray [n; m]
              (flat_map
                 (fun i => map (fun j =>
                                  fold_left
                                    (fun acc l => (acc + item x (i * k + l)
                                                        * item y (l * m + j))%float)
                                    (seq 0 k) 0%float)
                               (seq 0 m))
                 (seq 0 n)))
      else Raise ValueError
  | _, _ => Raise NotImplementedError
  end.

Definition equals_float (b : ndarray) (k : float) : Result bool :=
  match arr_data b with
  | [v] => Ok (PrimFloat.eqb v k)
  | _ => Raise ValueError
  end.

Definition itemset (z v : ndarray) : Result ndarray :=
  match arr_data z, arr_data v with
  | [_], [w] => Ok (mk_ndarray (arr_shape z) [w])
  | _, _ => Raise ValueError
  end.

#[global] Instance float_numpy : Numpy ndarray := {|
  np_shape := arr_shape;
  np_dot := dot;
  np_negative := fun a => Ok (mk_ndarray (arr_shape a) (map PrimFloat.opp (arr_data a)));
  np_multiply := binary PrimFloat.mul;
  np_add := binary PrimFloat.add;
  np_broadcast_to := broadcast_to;
  np_equals_float := equals_float;
  np_setslice := binary_into (fun _ v => v);
  np_iadd := binary_into PrimFloat.add;
  np_isub := binary_into PrimFloat.sub;
  np_imul := binary_into PrimFloat.mul;
  np_itemset := itemset;
|}.

Definition scalar (f : float) : ndarray := mk_ndarray [] [f].
Definition matrix22 (a b c d : float) : ndarray := mk_ndarray [2; 2] [a; b; c; d].

End Float_arrays.

(** ** The worked example: [beta * Z + alpha * dot(X, Y)] *)

Module Example.
Import Float_arrays.

Definition dmatrix : Ty := TensorType float64 [None; None].
Definition dscalar : Ty := TensorType float64 [].

Definition Z : Var := Input 0 dmatrix.
Definition X : Var := Input 1 dmatrix.
Definition Y : Var := Input 2 dmatrix.
Definition alpha : Var := Input 3 dscalar.
Definition beta : Var := Input 4 dscalar.

(** The graph of [beta * Z + alpha * _dot22(X, Y)], built by the
    constructors above from the first unused identity, 5. *)
Definition expression : Build Var :=
  let* d := call_Dot22 X Y in
  let* bz := scale_mul (Sym beta) Z in
  let* ad := scale_mul (Sym alpha) d in
  let* e := scale_add (Sym bz) (Sym ad) in
  as_tensor_variable e.

Definition fgraph_of (e : Var) : FunctionGraph :=
  FunctionGraph_of [Z; X; Y; alpha; beta] [e].

(** The expression as built from identity 5 on, its root node, the
    [dot22] output in it, and the output of the [Gemm] node that
    [_gemm_from_node2] builds for it from identity 17 on. *)
Definition root : Var :=
  Eval vm_compute in
    match expression 5 with (Ok e, _) => e | _ => Z end.

Definition root_node : Apply :=
  Eval vm_compute in
    match owner root with Some a => a | None => mkApply 0 add [] [] end.

Definition dot22_XY : Var :=
  Eval vm_compute in
    match call_Dot22 X Y 5 with (Ok d, _) => d | _ => Z end.

Definition fused : Var :=
  Eval vm_compute in
    match call_Gemm false [Sym Z; Sym alpha; Sym X; Sym Y; Sym beta] 17 with
    | (Ok g, _) => g
    | _ => Z
    end.

Definition fused_node : Apply :=
  Eval vm_compute in
    match owner fused with Some a => a | None => mkApply 0 add [] [] end.

(** The input arrays, stored in the order [z, a, x, y, b]. *)
Definition arrays : list ndarray :=
  [matrix22 1 2 3 4; scalar 2; matrix22 1 0 0 1; matrix22 5 6 7 8; scalar 1].

(** [3 * M + (-1) * M] for one matrix [M]. *)
Definition M : Var := Input 0 dmatrix.

Definition three_M_minus_M : Build Var :=
  let* a := scale_mul (Num 3) M in
  let* b := scale_mul (Num (-1)) M in
  let* e := scale_add (Sym a) (Sym b) in
  as_tensor_variable e.

(** A matrix of booleans, and a matrix of integers. *)
Definition bmatrix : Ty := TensorType bool_ [None; None].
Definition lmatrix : Ty := TensorType int64 [None; None].
Definition B : Var := Input 7 bmatrix.
Definition I : Var := Input 8 lmatrix.

(** [Z + W + _dot22(X, Y)] for one more float matrix [W]. *)
Definition W : Var := Input 4 dmatrix.

Definition Z_plus_W_plus_dot : Build Var :=
  let* d := call_Dot22 X Y in
  let* zw := scale_add (Sym Z) (Sym W) in
  let* e := scale_add zw (Sym d) in
  as_tensor_variable e.

(** [Z + I], a float matrix plus an integer matrix. *)
Definition Z_plus_I : Build Var :=
  let* e := scale_add (Sym Z) (Sym I) in
  as_tensor_variable e.

(** Modelled from the spec: [io_toposort] and
    [FunctionGraph.replace_all_validate_remove] are not among the sources.
    The order lists every node after the nodes of its inputs. The
    replacement substitutes the new variables for the old ones where they
    are used, keeps the nodes reachable from the outputs, and reports the
    nodes that were not in the graph before; when a variable of the remove
    list is still the output of a node of the new graph, it leaves the
    graph as it was and raises [ReplacementDidNotRemoveError]. This model
    attaches no validator that raises [InconsistencyError]. *)
Definition io_toposort (ins outs : list Var) : list Apply :=
  distinct_nodes ∅ (flat_map nodes_under outs).

Fixpoint substitute (pairs : list (Var * Var)) (v : Var) : Var :=
  match list_find (fun p => var_id p.1 = var_id v) pairs with
  | Some (_, (_, new)) => new
  | None =>
      match v with
      | Out n o ins os k => Out n o (map (substitute pairs) ins) os k
      | _ => v
      end
  end.

Definition replace_all_validate_remove (fg : FunctionGraph)
    (pairs : list (Var * Var)) (remove : list Var)
  : Result unit * FunctionGraph * list Apply :=
  let fg' := FunctionGraph_of (fg_inputs fg)
               (map (substitute pairs) (fg_outputs fg)) in
  let imported :=
    List.filter (fun a => negb (bool_decide (node_id a ∈ apply_nodes fg)))
      (io_toposort (fg_inputs fg') (fg_outputs fg')) in
  if existsb (fun v => match owner v with
                       | Some a => bool_decide (node_id a ∈ apply_nodes fg')
                       | None => false
                       end) remove
  then (Raise ReplacementDidNotRemoveError, fg, imported)
  else (Ok tt, fg', imported).

(** A graph whose validators reject every replacement. *)
Definition reject_all (fg : FunctionGraph) (pairs : list (Var * Var))
    (remove : list Var) : Result unit * FunctionGraph * list Apply :=
  (Raise InconsistencyError, fg, []).

(** The state in which [apply] starts on the worked example, and the
    state in which it returns. *)
Definition initial : OptState :=
  mkOptState (fgraph_of root) 17 (mkCounters 0 0 0 0 0) false.

Definition optimized : OptState :=
  Eval vm_compute in
    match GemmOptimizer_apply io_toposort replace_all_validate_remove 10 false
            (fgraph_of root) 17 with
    | Ok st => st
    | _ => initial
    end.

(** The state in which [apply] returns on the worked example when the
    validators reject every replacement. *)
Definition rejected : OptState :=
  Eval vm_compute in
    match GemmOptimizer_apply io_toposort reject_all 10 false
            (fgraph_of root) 17 with
    | Ok st => st
    | _ => initial
    end.

(** The graph whose outputs are the worked example and the [dot22] output
    in it, and the state in which [apply] returns on it. *)
Definition kept_graph : FunctionGraph :=
  FunctionGraph_of [Z; X; Y; alpha; beta] [root; dot22_XY].

Definition not_removed : OptState :=
  Eval vm_compute in
    match GemmOptimizer_apply io_toposort replace_all_validate_remove 10 false
            kept_graph 17 with
    | Ok st => st
    | _ => initial
    end.

End Example.

(** ** A coefficient that upcasts: [s * A + B + _dot22(X, Y)]

    [A], [B], [X], [Y] are [float32] matrices and [s] is a [float64]
    scalar; [floatX] is [float32]. *)

Module Upcast.
#[local] Existing Instance pytensor_floatX32 | 0.

Definition fmatrix : Ty := TensorType float32 [None; None].
Definition dscalar : Ty := TensorType float64 [].

Definition A : Var := Input 0 fmatrix.
Definition B : Var := Input 1 fmatrix.
Definition X : Var := Input 2 fmatrix.
Definition Y : Var := Input 3 fmatrix.
Definition s : Var := Input 4 dscalar.

Definition expression : Build Var :=
  let* d := call_Dot22 X Y in
  let* sA := scale_mul (Sym s) A in
  let* sA_B := scale_add (Sym sA) (Sym B) in
  let* e := scale_add sA_B (Sym d) in
  as_tensor_variable e.

Definition fgraph_of (e : Var) : FunctionGraph :=
  FunctionGraph_of [A; B; X; Y; s] [e].

End Upcast.

(** ** More of blas.py and elemwise.py *)

(** The other ops of blas.py, and [Dot] of math.py. [Op] has no
    constructor of their own for them: each is the [OtherOp] of a name,
    one name for every value of its [__props__], so that two of them are
    equal exactly when Python's [==] holds of the ops. None of them
    declares a [view_map]. *)
Definition Gemv (inplace : bool) : Op := OtherOp (if inplace then 1 else 0) [].
Definition gemv_no_inplace : Op := Gemv false.
Definition gemv_inplace : Op := Gemv true.
Definition Ger (destructive : bool) : Op := OtherOp (if destructive then 3 else 2) [].
Definition ger : Op := Ger false.
Definition ger_destructive : Op := Ger true.
Definition _dot22scalar : Op := OtherOp 4 [].
Definition _batched_dot : Op := OtherOp 5 [].
Definition Dot : Op := OtherOp 6 [].

(** [integer_dtypes] of [pytensor.tensor.type]. *)
Definition integer_dtypes : list Dtype :=
  [int8; int16; int32; int64; uint8; uint16; uint32; uint64].

Section More_blas.
Context `{Ext : Externals}.

(** [Gemv.make_node] *)
Definition Gemv_make_node (inplace : bool) (y alpha A x beta : Scale)
  : Build Apply :=
  let* y := as_tensor_variable y in
  let* x := as_tensor_variable x in
  let* A := as_tensor_variable A in
  let* alpha := as_tensor_variable alpha in
  let* beta := as_tensor_variable beta in
  if negb (bool_decide (dtype (vtype y) = dtype (vtype A)))
     || negb (bool_decide (dtype (vtype y) = dtype (vtype x)))
  then raise TypeError
  else if negb (ndim (vtype A) =? 2) then raise TypeError
  else if negb (ndim (vtype x) =? 1) then raise TypeError
  else if negb (ndim (vtype y) =? 1) then raise TypeError
  else
    let inputs := [y; alpha; A; x; beta] in
    if existsb (fun i => negb (isinstance_DenseTensorType (vtype i))) inputs
    then raise NotImplementedError
    else mk_Apply (Gemv inplace) inputs [vtype y].

Definition call_Gemv (inplace : bool) (y alpha A x beta : Scale) : Build Var :=
  let* a := Gemv_make_node inplace y alpha A x beta in ret (default_output a).

(** [Ger.make_node] *)
Definition Ger_make_node (destructive : bool) (A alpha x y : Scale)
  : Build Apply :=
  let* A := as_tensor_variable A in
  let* y := as_tensor_variable y in
  let* x := as_tensor_variable x in
  let* alpha := as_tensor_variable alpha in
  if negb (bool_decide (dtype (vtype A) = dtype (vtype x)
                        /\ dtype (vtype x) = dtype (vtype y)
                        /\ dtype (vtype y) = dtype (vtype alpha)))
  then raise TypeError
  else if negb (ndim (vtype alpha) =? 0) then raise TypeError
  else if negb (ndim (vtype A) =? 2) then raise TypeError
  else if negb (ndim (vtype x) =? 1) then raise TypeError
  else if negb (ndim (vtype y) =? 1) then raise TypeError
  else if negb (dtype_in (dtype (vtype x))
                  [float32; float64; complex64; complex128])
  then raise TypeError
  else
    let inputs := [A; alpha; x; y] in
    if existsb (fun i => negb (isinstance_DenseTensorType (vtype i))) inputs
    then raise NotImplementedError
    else mk_Apply (Ger destructive) inputs [vtype A].

Definition call_Ger (destructive : bool) (A alpha x y : Scale) : Build Var :=
  let* a := Ger_make_node destructive A alpha x y in ret (default_output a).

(** [Dot22Scalar.make_node]; its arguments are variables, it does not
    call [as_tensor_variable]. *)
Definition Dot22Scalar_make_node (x y a : Var) : Build Apply :=
  if existsb (fun i => negb (isinstance_DenseTensorType (vtype i))) [x; y; a]
  then raise NotImplementedError
  else if negb (ndim (vtype a) =? 0) then raise TypeError
  else if negb (ndim (vtype x) =? 2) then raise TypeError
  else if negb (ndim (vtype y) =? 2) then raise TypeError
  else if negb (bool_decide (dtype (vtype a) = dtype (vtype x)
                             /\ dtype (vtype x) = dtype (vtype y)))
  then raise TypeError
  else if negb (startswith_float (dtype (vtype a)))
          && negb (startswith_complex (dtype (vtype a)))
  then raise TypeError
  else
    let* s0 := getitem (shape (vtype x)) 0 in
    let* s1 := getitem (shape (vtype y)) 1 in
    mk_Apply _dot22scalar [x; y; a] [TensorType (dtype (vtype x)) [s0; s1]].

(** [1 if s == 1 else None] *)
Definition one_or_None (s : option nat) : option nat :=
  if is_one s then Some 1 else None.

(** [BatchedDot.make_node] *)
Definition BatchedDot_make_node (inputs : list Scale) : Build Apply :=
  let* inputs := mapM as_tensor_variable inputs in
  if existsb (fun i => negb (isinstance_DenseTensorType (vtype i))) inputs
  then raise NotImplementedError
  else
    match inputs with
    | [i0; i1] =>
        if negb (bool_decide (ndim (vtype i0) ∈ [2; 3])) then raise TypeError
        else if negb (bool_decide (ndim (vtype i1) ∈ [2; 3])) then raise TypeError
        else
          let dtype_ := upcast (dtype (vtype i0)) (dtype (vtype i1)) in
          let* upcasted_inputs := mapM (fun i => cast i dtype_) inputs in
          let* s00 := getitem (shape (vtype i0)) 0 in
          let* s10 := getitem (shape (vtype i1)) 0 in
          let sh0 := shape (vtype i0) in
          let out_shape :=
            (if is_one s00 || is_one s10 then Some 1 else None)
            :: drop 1 (take (length sh0 - 1) sh0)
            ++ drop 2 (shape (vtype i1)) in
          mk_Apply _batched_dot upcasted_inputs
            [TensorType dtype_ (map one_or_None out_shape)]
    | _ => raise TypeError
    end.

(** [_as_scalar(res, dtype)]; without its second argument the source takes
    [config.floatX] for it. The result [None] is the source's [None]. *)
Definition _as_scalar (res : Var) (dtype_ : Dtype) : Build (option Var) :=
  if all_one (vtype res) then
    let* res := lift (strip_DimShuffle res) in
    let* rval := if 0 <? ndim (vtype res) then dimshuffle res [] else ret res in
    if dtype_in (dtype (vtype rval)) integer_dtypes then
      if bool_decide (upcast (dtype (vtype res)) dtype_ = dtype_) then
        let* c := cast rval dtype_ in ret (Some c)
      else ret None
    else ret (Some rval)
  else ret None.

(** [local_dot_to_dot22]; [None] stands for its results [None] and
    [False]. *)
Definition local_dot_to_dot22 (fgraph : FunctionGraph) (node : Apply)
  : Build (option (list Var)) :=
  if negb (bool_decide (op node = Dot)) then ret None
  else if existsb (fun i => negb (isinstance_DenseTensorType (vtype i)))
            (inputs node)
  then ret None
  else
    let* (x, y) := unpack2 (inputs node) in
    if negb (bool_decide (dtype (vtype y) = dtype (vtype x))) then ret None
    else if dtype_in (dtype (vtype y)) gemm_dtypes then
      if (ndim (vtype x) =? 2) && (ndim (vtype y) =? 2) then
        let* r := call_Dot22 x y in ret (Some [r])
      else if (ndim (vtype x) =? 2) && (ndim (vtype y) =? 1) then
        let* y' := dimshuffle y [Some 0; None] in
        let* d := call_Dot22 x y' in
        let* r := dimshuffle d [Some 0] in
        ret (Some [r])
      else if (ndim (vtype x) =? 1) && (ndim (vtype y) =? 2) then
        let* x' := dimshuffle x [None; Some 0] in
        let* d := call_Dot22 x' y in
        let* r := dimshuffle d [Some 1] in
        ret (Some [r])
      else if (ndim (vtype x) =? 1) && (ndim (vtype y) =? 1) then
        let* x' := dimshuffle x [None; Some 0] in
        let* y' := dimshuffle y [Some 0; None] in
        let* d := call_Dot22 x' y' in
        let* r := dimshuffle d [] in
        ret (Some [r])
      else ret None
    else ret None.

(** Calling an op on the unpacked list [node.inputs], for an op whose
    [make_node] takes five arguments, four arguments. *)
Definition unpack5_vars (l : list Var) : Build (Var * Var * Var * Var * Var) :=
  match l with
  | [a; b; c; d; e] => ret (a, b, c, d, e)
  | _ => raise TypeError
  end.

Definition unpack4_vars (l : list Var) : Build (Var * Var * Var * Var) :=
  match l with
  | [a; b; c; d] => ret (a, b, c, d)
  | _ => raise TypeError
  end.

(** [local_inplace_gemv], [local_inplace_ger] *)
Definition local_inplace_gemv (fgraph : FunctionGraph) (node : Apply)
  : Build (option (list Var)) :=
  if bool_decide (op node = gemv_no_inplace) then
    let* (y, alpha, A, x, beta) := unpack5_vars (inputs node) in
    let* new_out := call_Gemv true (Sym y) (Sym alpha) (Sym A) (Sym x) (Sym beta) in
    ret (Some [new_out])
  else ret None.

Definition local_inplace_ger (fgraph : FunctionGraph) (node : Apply)
  : Build (option (list Var)) :=
  if bool_decide (op node = ger) then
    let* (A, alpha, x, y) := unpack4_vars (inputs node) in
    let* new_out := call_Ger true (Sym A) (Sym alpha) (Sym x) (Sym y) in
    ret (Some [new_out])
  else ret None.

(** Modelled from the spec: the property [T] of a tensor variable is not
    among the sources; it is the [dimshuffle] that reverses the axes. *)
Definition var_T (y : Var) : Build Var :=
  dimshuffle y (map Some (rev (seq 0 (ndim (vtype y))))).

(** [z, a, x, y, b = node.inputs] *)
Definition unpack5_inputs (l : list Var) : Build (Var * Var * Var * Var * Var) :=
  match l with
  | [z; a; x; y; b] => ret (z, a, x, y, b)
  | _ => raise ValueError
  end.

(** [local_gemm_to_gemv] *)
Definition local_gemm_to_gemv (fgraph : FunctionGraph) (node : Apply)
  : Build (option (list Var)) :=
  if bool_decide (op node = gemm_no_inplace) then
    let* (z, a, x, y, b) := unpack5_inputs (inputs node) in
    if bool_decide (broadcastable (vtype z) = broadcastable (vtype x))
       && bool_decide (broadcastable (vtype x) = [true; false])
    then
      let* zv := dimshuffle z [Some 1] in
      let* yT := var_T y in
      let* xv := dimshuffle x [Some 1] in
      let* r := call_Gemv false (Sym zv) (Sym a) (Sym yT) (Sym xv) (Sym b) in
      let* o := dimshuffle r [None; Some 0] in
      ret (Some [o])
    else if bool_decide (broadcastable (vtype z) = broadcastable (vtype y))
            && bool_decide (broadcastable (vtype y) = [false; true])
    then
      let* zv := dimshuffle z [Some 0] in
      let* yv := dimshuffle y [Some 0] in
      let* r := call_Gemv false (Sym zv) (Sym a) (Sym x) (Sym yv) (Sym b) in
      let* o := dimshuffle r [Some 0; None] in
      ret (Some [o])
    else ret None
  else ret None.

End More_blas.

(** *** Shapes: [infer_shape] *)

(** [l[k]] outside the graph-construction monad. *)
Definition getitem_result {A} (l : list A) (k : nat) : Result A :=
  match l !! k with
  | Some x => Ok x
  | None => Raise IndexError
  end.

(** [Gemm.infer_shape]; the lengths are symbolic in the source and
    [scalar_maximum] is their maximum. *)
Definition Gemm_infer_shape (input_shapes : list (list nat))
  : Result (list (list nat)) :=
  match input_shapes with
  | [z_shape; _; x_shape; y_shape; _] =>
      match getitem_result z_shape 0, getitem_result x_shape 0,
            getitem_result z_shape 1, getitem_result y_shape 1 with
      | Ok z0, Ok x0, Ok z1, Ok y1 => Ok [[max z0 x0; max z1 y1]]
      | _, _, _, _ => Raise IndexError
      end
  | _ => Raise ValueError
  end.

(** [BatchedDot.infer_shape] *)
Definition BatchedDot_infer_shape {A} (shapes : list (list A))
  : Result (list (list A)) :=
  if existsb (fun shape_ => negb (bool_decide (length shape_ ∈ [2; 3]))) shapes
  then Raise NotImplementedError
  else
    match shapes with
    | [xshp; yshp] => Ok [take (length xshp - 1) xshp ++ drop 2 yshp]
    | _ => Raise ValueError
    end.

(** The attributes [shuffle], [drop] and [augment] that
    [DimShuffle.__init__] computes from [new_order]. The positions of
    ['x'] are collected in increasing order, so that sorting them changes
    nothing. *)
Definition DimShuffle_shuffle (new_order : list (option nat)) : list nat :=
  omap id new_order.

Definition DimShuffle_drop (input_broadcastable : list bool)
    (new_order : list (option nat)) : list nat :=
  filter (fun i => index_in i new_order = false)
    (seq 0 (length input_broadcastable)).

Fixpoint positions_of_x (i : nat) (new_order : list (option nat)) : list nat :=
  match new_order with
  | [] => []
  | None :: rest => i :: positions_of_x (S i) rest
  | Some _ :: rest => positions_of_x (S i) rest
  end.

Definition DimShuffle_augment (new_order : list (option nat)) : list nat :=
  positions_of_x 0 new_order.

(** [l.insert(i, x)] *)
Definition list_insert_at {A} (i : nat) (x : A) (l : list A) : list A :=
  take i l ++ x :: drop i l.

(** [DimShuffle.infer_shape]: the lengths are symbolic in the source, so
    they are of any type [A] here, with [one] for the literal 1. *)
Definition DimShuffle_infer_shape {A} (one : A) (new_order : list (option nat))
    (ishp : list A) : Result (list A) :=
  match sequence_result
          (map (getitem_result ishp) (DimShuffle_shuffle new_order)) with
  | Ok rval =>
      Ok (fold_left (fun rval augm => list_insert_at augm one rval)
            (DimShuffle_augment new_order) rval)
  | Raise e => Raise e
  | OutOfFuel => OutOfFuel
  end.

(** *** What [make_node] asks of its inputs *)

Definition dense (v : Var) : Prop :=
  isinstance_DenseTensorType (vtype v) = true.

Section Accepts.
Context `{Ext : Externals}.

(** The inputs (z, a, x, y, b) that [Gemm.make_node] accepts. *)
Definition Gemm_accepts (inplace : bool) (z a x y b : Var) : Prop :=
  Forall dense [z; a; x; y; b]
  /\ (inplace = true ->
      roots_intersect (view_roots z) (view_roots x) = false
      /\ roots_intersect (view_roots z) (view_roots y) = false)
  /\ ndim (vtype z) = 2 /\ ndim (vtype a) = 0 /\ ndim (vtype x) = 2
  /\ ndim (vtype y) = 2 /\ ndim (vtype b) = 0
  /\ dtype (vtype z) = dtype (vtype a) /\ dtype (vtype a) = dtype (vtype x)
  /\ dtype (vtype x) = dtype (vtype y) /\ dtype (vtype y) = dtype (vtype b)
  /\ dtype (vtype z) ∈ gemm_dtypes.

End Accepts.

(** The inputs (y, alpha, A, x, beta) that [Gemv.make_node] accepts. *)
Definition Gemv_accepts (y alpha A x beta : Var) : Prop :=
  Forall dense [y; alpha; A; x; beta]
  /\ dtype (vtype y) = dtype (vtype A) /\ dtype (vtype y) = dtype (vtype x)
  /\ ndim (vtype A) = 2 /\ ndim (vtype x) = 1 /\ ndim (vtype y) = 1.

(** The inputs (A, alpha, x, y) that [Ger.make_node] accepts. *)
Definition Ger_accepts (A alpha x y : Var) : Prop :=
  Forall dense [A; alpha; x; y]
  /\ dtype (vtype A) = dtype (vtype x) /\ dtype (vtype x) = dtype (vtype y)
  /\ dtype (vtype y) = dtype (vtype alpha)
  /\ ndim (vtype alpha) = 0 /\ ndim (vtype A) = 2
  /\ ndim (vtype x) = 1 /\ ndim (vtype y) = 1
  /\ dtype (vtype x) ∈ [float32; float64; complex64; complex128].

(** The inputs (x, y) that [Dot22.make_node] accepts. *)
Definition Dot22_accepts (x y : Var) : Prop :=
  dense x /\ dense y
  /\ ndim (vtype x) = 2 /\ dtype (vtype x) ∈ gemm_dtypes
  /\ ndim (vtype y) = 2 /\ dtype (vtype y) = dtype (vtype x).

(** *** More of [perform] *)

(** [np.outer], which [Ger.perform] calls. *)
Class Numpy_outer (ndarray : Type) : Type := {
  np_outer : ndarray -> ndarray -> Result ndarray;
}.

Section More_perform.
Context {ndarray : Type} `{NP : Numpy ndarray} `{NO : Numpy_outer ndarray}.

(** [cA, calpha, cx, cy = inp] *)
Definition unpack4 (inp : list loc) : Run (ndarray:=ndarray) (loc * loc * loc * loc) :=
  match inp with
  | [cA; calpha; cx; cy] => ret (cA, calpha, cx, cy)
  | _ => raise ValueError
  end.

(** [np.outer(cx, cy)] *)
Definition outer (cx cy : loc) : Run (ndarray:=ndarray) ndarray :=
  let* vx := load cx in
  let* vy := load cy in
  lift (np_outer vx vy).

(** [Ger.perform]. The condition [calpha != 1] of the source is the
    negation of [calpha == 1], also on a NaN. *)
Definition Ger_perform (destructive : bool) (inp : list loc) : Run (ndarray:=ndarray) loc :=
  let* (cA, calpha, cx, cy) := unpack4 inp in
  let* A := if destructive then ret cA else copy cA in
  let* is_one := equals calpha 1 in
  let* _ :=
    if negb is_one then
      let* valpha := load calpha in
      let* o := outer cx cy in
      let* v := lift (np_multiply valpha o) in
      inplace_op np_iadd A v
    else
      let* o := outer cx cy in
      inplace_op np_iadd A o in
  ret A.

(** [untouched_but z n0 σ σ']: the store [σ'] still holds the first [n0]
    arrays of [σ] with their contents, but for the array [z].
    [frame_but z n0 Q c]: run from a store of at least [n0] arrays, [c]
    leaves these untouched but for [z], and a value it returns satisfies
    [Q]. *)
Definition untouched_but (z : loc) (n0 : nat) (σ σ' : list ndarray) : Prop :=
  n0 <= length σ' /\ forall l, l < n0 -> l <> z -> σ' !! l = σ !! l.

Definition frame_but {A} (z : loc) (n0 : nat) (Q : A -> Prop) (c : Run (ndarray:=ndarray) A)
  : Prop :=
  forall σ : list ndarray, n0 <= length σ ->
    untouched_but z n0 σ (c σ).2
    /\ match (c σ).1 with
       | Ok a => Q a
       | _ => True
       end.

(** [same_shapes n0 σ σ']: the store [σ'] still holds the first [n0]
    arrays of [σ], each with the shape it had. *)
Definition same_shapes (n0 : nat) (σ σ' : list ndarray) : Prop :=
  n0 <= length σ'
  /\ forall l, l < n0 -> np_shape <$> σ' !! l = np_shape <$> σ !! l.

End More_perform.

(** *** Pickling a [Gemm] op *)

(** The values the attributes of a [Gemm] op hold: a Boolean, a
    [destroy_map], a string of code. *)
Inductive AttrValue : Type :=
| AttrBool (b : bool)
| AttrMap (m : list (nat * list nat))
| AttrStr (s : string).

#[global] Instance AttrValue_eq_dec : EqDecision AttrValue.
Proof. solve_decision. Defined.

(** The truth value of an attribute in a condition. *)
Definition truthy (v : AttrValue) : bool :=
  match v with
  | AttrBool b => b
  | AttrMap m => negb (bool_decide (m = []))
  | AttrStr s => negb (bool_decide (s = ""%string))
  end.

(** The [__dict__] of an op. *)
Abbreviation Attrs := (gmap string AttrValue).

(** [Gemm.__init__] *)
Definition Gemm_init (inplace : bool) : Attrs :=
  let d := {[ "inplace"%string := AttrBool inplace ]} in
  if inplace then <[ "destroy_map"%string := AttrMap [(0, [0])] ]> d else d.

(** [Gemm.__getstate__]: a copy of [__dict__] without the key
    [setup_z_Nz_Sz]; [__dict__] itself is left as it is. *)
Definition Gemm_getstate (d : Attrs) : Attrs :=
  delete "setup_z_Nz_Sz"%string d.

(** [Gemm.__setstate__] on an op whose [__dict__] is [d]: the new
    [__dict__], or [None] when reading [self.inplace] raises
    [AttributeError]. *)
Definition Gemm_setstate (d dct : Attrs) : option Attrs :=
  let d := dct ∪ d in
  match d !! "destroy_map"%string with
  | Some _ => Some d
  | None =>
      match d !! "inplace"%string with
      | Some inplace =>
          if truthy inplace
          then Some (<[ "destroy_map"%string := AttrMap [(0, [0])] ]> d)
          else Some d
      | None => None
      end
  end.

(** ** More examples *)

Module Float_outer.
Import Float_arrays.

(** [np.outer] flattens its two arguments; the result has one row for
    every item of the first and one column for every item of the second. *)
Definition outer (a b : ndarray) : Result ndarray :=
  Ok (mk_ndarray [length (arr_data a); length (arr_data b)]
        (flat_map (fun u => map (fun v => (u * v)%float) (arr_data b))
           (arr_data a))).

#[global] Instance float_outer : Numpy_outer ndarray := {| np_outer := outer |}.

Definition vector2 (a b : float) : ndarray := mk_ndarray [2] [a; b].

End Float_outer.

Module More_examples.

Definition dvector : Ty := TensorType float64 [None].
Definition drow : Ty := TensorType float64 [Some 1; None].
Definition dtensor3 : Ty := TensorType float64 [None; None; None].

Definition u : Var := Input 10 dvector.
Definition v : Var := Input 11 dvector.
Definition z_row : Var := Input 12 drow.
Definition x_row : Var := Input 13 drow.
Definition s3 : Var := Input 14 dtensor3.
Definition t3 : Var := Input 15 dtensor3.
Definition two_rows : Var := Input 16 (TensorType float64 [Some 2; None]).
Definition three_rows : Var := Input 17 (TensorType float64 [Some 3; None]).

Definition no_node : Apply := mkApply 0 add [] [].

(** [DimShuffle((False, False), [1, 'x', 0]).make_node(Z)] *)
Definition shuffled_node : Apply :=
  Eval vm_compute in
    match DimShuffle_make_node [false; false] [Some 1; None; Some 0]
            Example.Z 20 with
    | (Ok a, _) => a
    | _ => no_node
    end.

(** [gemv_no_inplace.make_node(u, alpha, X, v, beta)] *)
Definition gemv_node : Apply :=
  Eval vm_compute in
    match Gemv_make_node false (Sym u) (Sym Example.alpha) (Sym Example.X)
            (Sym v) (Sym Example.beta) 20 with
    | (Ok a, _) => a
    | _ => no_node
    end.

(** [ger.make_node(Z, alpha, u, v)] *)
Definition ger_node : Apply :=
  Eval vm_compute in
    match Ger_make_node false (Sym Example.Z) (Sym Example.alpha) (Sym u)
            (Sym v) 20 with
    | (Ok a, _) => a
    | _ => no_node
    end.

(** [gemm_no_inplace.make_node(z_row, alpha, x_row, Y, beta)] *)
Definition row_gemm_node : Apply :=
  Eval vm_compute in
    match Gemm_make_node false
            (map Sym [z_row; Example.alpha; x_row; Example.Y; Example.beta])
            20 with
    | (Ok a, _) => a
    | _ => no_node
    end.

(** A [Dot] node on the matrix X and the vector v, and an [add] node on
    two integer matrices. *)
Definition dot_node : Apply := mkApply 20 Dot [Example.X; v] [(21, dvector)].

Definition integer_add_node : Apply :=
  mkApply 20 add [Example.I; Example.I] [(21, Example.lmatrix)].

(** [_batched_dot.make_node(s3, t3)] *)
Definition batched_node : Apply :=
  Eval vm_compute in
    match BatchedDot_make_node [Sym s3; Sym t3] 20 with
    | (Ok a, _) => a
    | _ => no_node
    end.

(** The graph of [_dot22(X, Y)] alone. *)
Definition dot22_graph : FunctionGraph :=
  FunctionGraph_of [Example.X; Example.Y] [Example.dot22_XY].

(** Arrays for [Ger.perform], stored in the order [A, alpha, x, y]. *)
Definition ger_arrays : list Float_arrays.ndarray :=
  [Float_arrays.matrix22 1 2 3 4; Float_arrays.scalar 2;
   Float_outer.vector2 1 0; Float_outer.vector2 5 6].

End More_examples.

(** * Theorems *)

(** ** The monad *)

Lemma bind_ret_l {S A B} (a : A) (k : A -> ST S B) s : bind (ret a) k s = k a s.
Proof. reflexivity. Qed.

Lemma bind_assoc {S A B C} (c : ST S A) (k : A -> ST S B) (h : B -> ST S C) s :
  bind (bind c k) h s = bind c (fun a => bind (k a) h) s.
Proof. unfold bind. destruct (c s) as [[a| |] s']; reflexivity. Qed.

Lemma bind_Ok_inv {S A B} (c : ST S A) (k : A -> ST S B) s b s2 :
  bind c k s = (Ok b, s2) ->
  exists a s1, c s = (Ok a, s1) /\ k a s1 = (Ok b, s2).
Proof.
  unfold bind. destruct (c s) as [[a| |] s1]; intros H; try discriminate.
  eauto.
Qed.

(** ** The worked example *)

(** C1. For Z = [[1,2],[3,4]], X = [[1,0],[0,1]], Y = [[5,6],[7,8]],
    alpha = 2.0 and beta = 1.0: the graph of beta*Z + alpha*dot(X,Y) is
    turned by [_gemm_from_node2] into a single replacement, the output of
    one [Gemm] node applied to (Z, alpha, X, Y, beta) that absorbs the
    [dot22] output; [GemmOptimizer.apply] returns with a graph whose only
    output is that variable and whose only node is that [Gemm] node; and
    [perform] of that op on the five arrays leaves [[11,14],[17,20]] in
    the output storage. *)
Theorem example_gemm_fused_and_performed :
  exists e n node g gnode d n' st,
    Example.expression 5 = (Ok e, n)
    /\ owner e = Some node
    /\ op node = add
    /\ _gemm_from_node2 (Example.fgraph_of e) node n = (Ok (Some ([g], d)), n')
    /\ owner g = Some gnode
    /\ op gnode = gemm_no_inplace
    /\ inputs gnode
       = [Example.Z; Example.alpha; Example.X; Example.Y; Example.beta]
    /\ option_map op (owner d) = Some _dot22
    /\ GemmOptimizer_apply Example.io_toposort
         Example.replace_all_validate_remove 10 false (Example.fgraph_of e) n
       = Ok st
    /\ fg_outputs (st_fgraph st) = [g]
    /\ elements (apply_nodes (st_fgraph st)) = [node_id gnode]
    /\ output_value (perform false [0; 1; 2; 3; 4] Example.arrays)
       = Ok (Some (Float_arrays.matrix22 11 14 17 20)).
Proof.
  do 8 eexists. repeat split; try (vm_compute; reflexivity).
Qed.

(** ** Floats, inversion of the monad, induction on variables *)

Lemma float_minus_one_not_one (f : float) :
  PrimFloat.eqb f (-1) = true -> PrimFloat.eqb f 1 = false.
Proof.
  rewrite !FloatAxioms.eqb_spec.
  replace (FloatOps.Prim2SF (-1))
    with (SpecFloat.S754_finite true 4503599627370496 (-52))
    by (vm_compute; reflexivity).
  replace (FloatOps.Prim2SF 1)
    with (SpecFloat.S754_finite false 4503599627370496 (-52))
    by (vm_compute; reflexivity).
  generalize (FloatOps.Prim2SF f). intros x.
  unfold SpecFloat.SFeqb, SpecFloat.SFcompare.
  destruct x as [s|s| |s m e]; try destruct s; try congruence; try reflexivity.
Qed.

Lemma ret_Ok_inv {S A} (a b : A) (s s' : S) :
  ret a s = (Ok b, s') -> a = b /\ s = s'.
Proof. unfold ret. intros; by simplify_eq. Qed.

Lemma lift_Ok_inv {S A} (r : Result A) (b : A) (s s' : S) :
  lift r s = (Ok b, s') -> r = Ok b /\ s = s'.
Proof. unfold lift. intros; by simplify_eq. Qed.

(** Induction on variables, with the hypothesis for every input of a
    node. *)
Lemma Var_ind' (Q : Var -> Prop) :
  (forall vid ty, Q (Input vid ty)) ->
  (forall vid ty data, Q (Constant vid ty data)) ->
  (forall nid o ins, Forall Q ins -> forall os k, Q (Out nid o ins os k)) ->
  forall v, Q v.
Proof.
  intros HI HC HO. fix IH 1. intros [i t|i t d|n o ins os k]; [apply HI|apply HC|].
  apply HO. induction ins as [|x ins IHins]; constructor; [apply IH|apply IHins].
Qed.

(** ** Which exceptions a computation can raise *)

Section Regular.
Context {S : Type} (P : Exn -> Prop).

Lemma regular_ret {A} (a : A) : regular (S:=S) P (ret a).
Proof. by intros s. Qed.

Lemma regular_raise {A} (e : Exn) : P e -> regular (S:=S) (A:=A) P (raise e).
Proof. by intros H s. Qed.

Lemma regular_lift {A} (r : Result A) :
  regular_result P r -> regular (S:=S) P (lift r).
Proof. by intros H s. Qed.

Lemma regular_bind {A B} (c : ST S A) (k : A -> ST S B) :
  regular P c -> (forall a, regular P (k a)) -> regular P (bind c k).
Proof.
  intros Hc Hk s. unfold bind. specialize (Hc s).
  destruct (c s) as [[a|e|] s1]; cbn in *; [apply Hk|done|done].
Qed.

Lemma regular_bind_strong {A B} (c : ST S A) (k : A -> ST S B) :
  regular P c ->
  (forall a s s', c s = (Ok a, s') -> regular P (k a)) ->
  regular P (bind c k).
Proof.
  intros Hc Hk s. unfold bind. specialize (Hc s).
  destruct (c s) as [[a|e|] s1] eqn:E; cbn in *; [by eapply Hk|done|done].
Qed.

Lemma regular_assert (b : bool) : P AssertionError -> regular (S:=S) P (assert_ b).
Proof. intros H. destruct b; [apply regular_ret|by apply regular_raise]. Qed.

Lemma regular_of_sum {A} (r : Exn + A) :
  (forall e, r = inl e -> P e) -> regular_result P (of_sum r).
Proof. destruct r as [e|a]; cbn; auto. Qed.

End Regular.

Create HintDb regular.
#[global] Hint Resolve regular_ret regular_raise regular_lift regular_assert : regular.
#[global] Hint Extern 2 (regular _ (bind _ _)) =>
  apply regular_bind; [|intros ?] : regular.
#[global] Hint Extern 3 (regular _ (if ?b then _ else _)) => destruct b : regular.
#[global] Hint Extern 3 (regular _ (match ?x with _ => _ end)) => destruct x : regular.
#[global] Hint Extern 3 (regular_result _ (match ?x with _ => _ end)) =>
  destruct x : regular.
#[global] Hint Extern 1 (regular_result _ (Ok _)) => exact I : regular.
#[global] Hint Extern 1 (regular_result _ (Raise _)) => cbn : regular.

Section Regular_construction.
Context `{Ext : Externals}.
Context (P : Exn -> Prop).
Hypothesis P_TypeError : P TypeError.
Hypothesis P_ValueError : P ValueError.
Hypothesis P_NotImplementedError : P NotImplementedError.
Hypothesis P_AssertionError : P AssertionError.
Hypothesis P_IndexError : P IndexError.
Hypothesis P_KeyError : P KeyError.
Hypothesis P_InconsistencyError : P InconsistencyError.
Hypothesis P_scalar : forall o ds e, scalar_output_dtype o ds = inl e -> P e.

#[local] Hint Resolve P_TypeError P_ValueError P_NotImplementedError
  P_AssertionError P_IndexError P_KeyError P_InconsistencyError : regular.

Ltac regular := eauto 30 with regular.

Lemma regular_mapM {A B} (f : A -> Build B) (l : list A) :
  (forall a, regular P (f a)) -> regular P (mapM f l).
Proof. intros Hf. induction l as [|x l IH]; cbn; regular. Qed.

Lemma regular_as_tensor_variable (x : Scale) : regular P (as_tensor_variable x).
Proof. destruct x; cbn; [by intros n|regular]. Qed.
#[local] Hint Resolve regular_as_tensor_variable regular_mapM : regular.

Lemma regular_check_new_order (len : nat) (no : list (option nat)) :
  regular_result P (check_new_order len no).
Proof. induction no as [|[j|] no IH]; cbn; regular. Qed.

Lemma regular_check_drop (i : nat) (ib : list bool) (no : list (option nat)) :
  regular_result P (check_drop i ib no).
Proof. revert i. induction ib as [|b ib IH]; intros i; cbn; regular. Qed.
#[local] Hint Resolve regular_check_new_order regular_check_drop : regular.

Lemma regular_DimShuffle_init (ib : list bool) (no : list (option nat)) :
  regular P (DimShuffle_init ib no).
Proof. unfold DimShuffle_init. regular. Qed.

Lemma regular_out_static_shape (sh no : list (option nat)) :
  regular_result P (out_static_shape sh no).
Proof.
  induction no as [|[j|] no IH]; cbn; [regular| |].
  - destruct (sh !! j); [|regular].
    destruct (out_static_shape sh no); regular.
  - destruct (out_static_shape sh no); regular.
Qed.

Lemma regular_mk_Apply (o : Op) (ins : list Var) (tys : list Ty) :
  regular P (mk_Apply o ins tys).
Proof. by intros n. Qed.
#[local] Hint Resolve regular_DimShuffle_init regular_out_static_shape
  regular_mk_Apply : regular.

Lemma regular_DimShuffle_make_node ib no (x : Var) :
  regular P (DimShuffle_make_node ib no x).
Proof. unfold DimShuffle_make_node. regular. Qed.
#[local] Hint Resolve regular_DimShuffle_make_node : regular.

Lemma regular_call_DimShuffle (o : Op) (x : Var) : regular P (call_DimShuffle o x).
Proof. unfold call_DimShuffle. regular. Qed.
#[local] Hint Resolve regular_call_DimShuffle : regular.

Lemma regular_dimshuffle (x : Var) (pattern : list (option nat)) :
  regular P (dimshuffle x pattern).
Proof. unfold dimshuffle. regular. Qed.
#[local] Hint Resolve regular_dimshuffle : regular.

Lemma regular_get_most_specialized_shape (shapes : list (option nat)) :
  regular_result P (get_most_specialized_shape shapes).
Proof. unfold get_most_specialized_shape. repeat case_match; cbn; regular. Qed.

Lemma regular_sequence_result {A} (l : list (Result A)) :
  Forall (regular_result P) l -> regular_result P (sequence_result l).
Proof.
  induction 1 as [|r l Hr _ IH]; cbn; [done|].
  destruct r; [|done|done]. by destruct (sequence_result l).
Qed.

Lemma regular_left_complete (t : nat) (x : Var) : regular P (left_complete t x).
Proof. unfold left_complete. regular. Qed.
#[local] Hint Resolve regular_left_complete : regular.

Lemma regular_fold_left_result {A B} (f : Result B -> A -> Result B) l r :
  (forall r a, regular_result P r -> regular_result P (f r a)) ->
  regular_result P r -> regular_result P (fold_left f l r).
Proof. intros Hf. revert r. induction l as [|a l IH]; cbn; auto. Qed.

Lemma regular_check_inplace_shapes sh ins ip :
  regular_result P (check_inplace_shapes sh ins ip).
Proof.
  unfold check_inplace_shapes. apply regular_fold_left_result; [|done].
  intros r [o i] Hr. destruct r; [|done|done]. repeat case_match; cbn; regular.
Qed.

Lemma regular_check_inplace_dtypes d ins ip :
  regular_result P (check_inplace_dtypes d ins ip).
Proof.
  unfold check_inplace_dtypes. apply regular_fold_left_result; [|done].
  intros r [o i] Hr. destruct r; [|done|done]. repeat case_match; cbn; regular.
Qed.
#[local] Hint Resolve regular_check_inplace_shapes regular_check_inplace_dtypes
  : regular.

Lemma regular_Elemwise_make_node sop ip (ins : list Scale) :
  regular P (Elemwise_make_node sop ip ins).
Proof.
  unfold Elemwise_make_node.
  apply regular_bind; [regular|intros vs].
  apply regular_bind; [apply regular_lift, regular_of_sum, P_scalar|intros d].
  apply regular_bind; [regular|intros _].
  apply regular_bind; [regular|intros vs'].
  apply regular_bind; [|intros sh; regular].
  apply regular_lift, regular_sequence_result, Forall_forall.
  intros r (x & <- & _)%list_elem_of_In%in_map_iff.
  apply regular_get_most_specialized_shape.
Qed.
#[local] Hint Resolve regular_Elemwise_make_node : regular.

Lemma regular_call_Elemwise sop (ins : list Scale) : regular P (call_Elemwise sop ins).
Proof. unfold call_Elemwise. regular. Qed.
#[local] Hint Resolve regular_call_Elemwise : regular.

Lemma regular_binary_operator {A} (c : Build A) :
  regular P c -> regular P (binary_operator c).
Proof.
  intros Hc n. unfold binary_operator. specialize (Hc n).
  destruct (c n) as [[a|e|] n']; cbn in *; [done| |done].
  destruct e; cbn; auto.
Qed.
#[local] Hint Resolve regular_binary_operator : regular.

Lemma regular_scale_neg (s : Scale) : regular P (scale_neg s).
Proof. destruct s; cbn; regular. Qed.

Lemma regular_scale_add (s t : Scale) : regular P (scale_add s t).
Proof. destruct s, t; cbn; regular. Qed.

Lemma regular_scale_mul (s : Scale) (v : Var) : regular P (scale_mul s v).
Proof. destruct s; cbn; regular. Qed.

Lemma regular_var_neg (v : Var) : regular P (var_neg v).
Proof. unfold var_neg. regular. Qed.

Lemma regular_cast (x : Var) (d : Dtype) : regular P (cast x d).
Proof. unfold cast. regular. Qed.
#[local] Hint Resolve regular_scale_neg regular_scale_add regular_scale_mul
  regular_var_neg regular_cast : regular.

Lemma regular_Gemm_make_node (inplace : bool) (ins : list Scale) :
  regular P (Gemm_make_node inplace ins).
Proof.
  unfold Gemm_make_node. apply regular_bind; [regular|intros vs].
  repeat case_match; regular.
Qed.
#[local] Hint Resolve regular_Gemm_make_node : regular.

Lemma regular_call_Gemm (inplace : bool) (ins : list Scale) :
  regular P (call_Gemm inplace ins).
Proof. unfold call_Gemm. regular. Qed.

Lemma regular_strip_DimShuffle (i : Var) : regular_result P (strip_DimShuffle i).
Proof.
  induction i as [| |nid o ins IH os k] using Var_ind'; cbn; try done.
  destruct o; try done. destruct ins as [|i0 ins]; [exact P_IndexError|].
  by inversion IH.
Qed.

Lemma regular_getitem {A} (l : list A) (k : nat) : regular P (getitem l k).
Proof. unfold getitem. regular. Qed.

Lemma regular_scaled (s : Scale) (v : Var) : regular P (scaled s v).
Proof. unfold scaled. regular. Qed.
#[local] Hint Resolve regular_call_Gemm regular_strip_DimShuffle regular_getitem
  regular_scaled : regular.

Lemma regular_classify_factors (ins scalars vectors matrices : list Var) :
  regular P (classify_factors ins scalars vectors matrices).
Proof.
  revert scalars vectors matrices.
  induction ins as [|i ins IH]; intros; cbn; regular.
Qed.

Lemma regular_folded_scale (scale : Scale) (scalars : list Var) :
  regular P (folded_scale scale scalars).
Proof. unfold folded_scale. regular. Qed.
#[local] Hint Resolve regular_classify_factors regular_folded_scale : regular.

(** The factors that [classify_factors] files as vectors or matrices are
    inputs of the node, unchanged. *)
Lemma classify_factors_subset (ins sc ve ma sc' ve' ma' : list Var) (n n' : ident) :
  classify_factors ins sc ve ma n = (Ok (Some (sc', ve', ma')), n') ->
  (forall x, x ∈ ve' -> x ∈ ve \/ x ∈ ins)
  /\ (forall x, x ∈ ma' -> x ∈ ma \/ x ∈ ins).
Proof.
  revert sc ve ma n. induction ins as [|i ins IH]; intros sc ve ma n; cbn.
  - intros [= <- <- <-]%ret_Ok_inv%proj1. auto.
  - destruct (all_one (vtype i)).
    + intros (i' & n1 & _ & H)%bind_Ok_inv.
      apply bind_Ok_inv in H as (s' & n2 & _ & H).
      apply IH in H as [Hv Hm]. split; intros x Hx.
      * destruct (Hv x Hx); [auto|right; by constructor].
      * destruct (Hm x Hx); [auto|right; by constructor].
    + destruct (_is_real_vector i).
      * intros [Hv Hm]%IH. split; intros x Hx.
        -- destruct (Hv x Hx) as [[?| ->%list_elem_of_singleton]%elem_of_app|?];
             [auto|right; constructor|right; by constructor].
        -- destruct (Hm x Hx); [auto|right; by constructor].
      * destruct (_is_real_matrix i); [|by intros [=]%ret_Ok_inv%proj1].
        intros [Hv Hm]%IH. split; intros x Hx.
        -- destruct (Hv x Hx); [auto|right; by constructor].
        -- destruct (Hm x Hx) as [[?| ->%list_elem_of_singleton]%elem_of_app|?];
             [auto|right; constructor|right; by constructor].
Qed.

Lemma height_input (x : Var) (ins : list Var) :
  x ∈ ins -> height x <= foldr (fun i acc => max (height i) acc) 0 ins.
Proof. induction 1; cbn; lia. Qed.

Lemma height_owner_input (r x : Var) :
  x ∈ from_option inputs [] (owner r) -> height x < height r.
Proof.
  destruct r as [| |n o ins os k]; cbn; [by intros ?%elem_of_nil..|].
  intros H%height_input. lia.
Qed.

Lemma getitem_Ok {A} (l : list A) (k : nat) (x : A) (n n' : ident) :
  getitem l k n = (Ok x, n') -> x ∈ l /\ l !! k = Some x /\ n' = n.
Proof.
  unfold getitem. destruct (l !! k) as [y|] eqn:E; [|done].
  intros [-> ->]%ret_Ok_inv. eauto using list_elem_of_lookup_2.
Qed.

(** With fuel beyond the height of the expression, [_gemm_canonicalize]
    does not run out of it. *)
Lemma regular_canonicalize_fuel (fuel : nat) (fg : FunctionGraph) (r : Var)
    (scale : Scale) (rval : list Entry) (maxclients : nat) :
  height r < fuel ->
  regular P (canonicalize_fuel fuel fg r scale rval maxclients).
Proof.
  revert r scale rval maxclients.
  induction fuel as [|fuel IH]; intros r scale rval mc Hh; [lia|].
  cbn [canonicalize_fuel]. unfold canonicalize_step.
  destruct (negb (isinstance_TensorType (vtype r))); [regular|].
  destruct (_ || _); [regular|].
  apply regular_bind; [regular|intros too_many].
  destruct too_many; [regular|].
  assert (Hin : forall x, x ∈ from_option inputs [] (owner r) -> height x < fuel).
  { intros x Hx%height_owner_input. lia. }
  destruct (owner_op_is r sub).
  { eapply regular_bind_strong; [regular|intros i0 ? ? [H0 _]%getitem_Ok].
    apply regular_bind; [by apply IH, Hin|intros rval1].
    eapply regular_bind_strong; [regular|intros i1 ? ? [H1 _]%getitem_Ok].
    apply regular_bind; [regular|intros ns]. by apply IH, Hin. }
  destruct (owner_op_is r add).
  { revert rval. induction (from_option inputs [] (owner r)) as [|i ins IHins];
      intros rval; cbn [foldM]; [regular|].
    apply regular_bind; [apply IH, Hin; constructor|intros rval1].
    apply IHins. intros x Hx. apply Hin. by constructor. }
  destruct (owner_op_is r neg).
  { eapply regular_bind_strong; [regular|intros i0 ? ? [H0 _]%getitem_Ok].
    apply regular_bind; [regular|intros ns]. by apply IH, Hin. }
  destruct (owner_op_is r mul); [|regular].
  eapply regular_bind_strong; [regular|intros cls n n' Hcls].
  destruct cls as [[[sc ve] ma]|]; [|regular].
  apply classify_factors_subset in Hcls as [Hve Hma].
  destruct (length ma =? 1).
  { apply regular_bind; [regular|intros _].
    eapply regular_bind_strong; [regular|intros m ? ? [Hm _]%getitem_Ok].
    apply regular_bind; [regular|intros fscale].
    apply IH, Hin. destruct (Hma m Hm) as [?%elem_of_nil|?]; done. }
  destruct (length ve =? 1); [|regular].
  apply regular_bind; [regular|intros _].
  eapply regular_bind_strong; [regular|intros m ? ? [Hm _]%getitem_Ok].
  apply regular_bind; [regular|intros fscale].
  apply IH, Hin. destruct (Hve m Hm) as [?%elem_of_nil|?]; done.
Qed.

Lemma regular_gemm_canonicalize (fg : FunctionGraph) (r : Var) (scale : Scale)
    (rval : list Entry) (maxclients : nat) :
  regular P (_gemm_canonicalize fg r scale rval maxclients).
Proof. apply regular_canonicalize_fuel. lia. Qed.

End Regular_construction.

(** ** Deduplication of a canonicalised list *)

Lemma bind_ext {S A B} (c : ST S A) (k k' : A -> ST S B) (s : S) :
  (forall a s', c s = (Ok a, s') -> k a s' = k' a s') ->
  bind c k s = bind c k' s.
Proof. unfold bind. destruct (c s) as [[a| |] s']; auto. Qed.

Lemma bind_cong_l {S A B} (c c' : ST S A) (k : A -> ST S B) (s : S) :
  c s = c' s -> bind c k s = bind c' k s.
Proof. unfold bind. by intros ->. Qed.

Lemma bind_ret_r {S A} (c : ST S A) (s : S) : bind c ret s = c s.
Proof. unfold bind, ret. by destruct (c s) as [[a| |] s']. Qed.

Section Factor.
Context `{Ext : Externals}.

Lemma absorb_length (s : Scale) (M : Var) (rest : list Entry) n s' rest' n' :
  absorb s M rest n = (Ok (s', rest'), n') -> length rest' <= length rest.
Proof.
  revert s n s' rest' n'. induction rest as [|[sj Mj|v] rest IH];
    intros s n s' rest' n'; cbn.
  - intros [[= <- <-] _]%ret_Ok_inv. done.
  - destruct (is_ M Mj).
    + intros (s1 & n1 & _ & H)%bind_Ok_inv. apply IH in H. lia.
    + intros ([s1 r1] & n1 & H & [[= <- <-] _]%ret_Ok_inv)%bind_Ok_inv.
      apply IH in H. cbn. lia.
  - intros ([s1 r1] & n1 & H & [[= <- <-] _]%ret_Ok_inv)%bind_Ok_inv.
    apply IH in H. cbn. lia.
Qed.

(** The inner loop, started behind the entries [mid] that are not merged,
    sums the entries of [M_i] in the rest of the list into entry [i]. *)
Lemma factor_inner_absorb (suf pre mid : list Entry) (s : Scale) (M : Var)
    (fuel : nat) (n : ident) :
  length suf < fuel ->
  factor_inner fuel (pre ++ Pair s M :: mid ++ suf) (length pre)
    (S (length pre + length mid)) s M n
  = bind (absorb s M suf)
      (fun '(s', suf') => ret (pre ++ Pair s' M :: mid ++ suf')) n.
Proof.
  revert mid s fuel n. induction suf as [|x suf IH]; intros mid s fuel n Hf.
  - destruct fuel as [|fuel]; [lia|]. cbn [factor_inner absorb].
    rewrite bind_ret_l.
    assert ((S (length pre + length mid)
             <? length (pre ++ Pair s M :: mid ++ [])) = false) as ->.
    { apply Nat.ltb_ge. rewrite length_app. cbn. rewrite length_app. cbn. lia. }
    done.
  - destruct fuel as [|fuel]; [cbn in Hf; lia|]. cbn [factor_inner].
    assert ((S (length pre + length mid)
             <? length (pre ++ Pair s M :: mid ++ x :: suf)) = true) as ->.
    { apply Nat.ltb_lt. rewrite length_app. cbn. rewrite length_app. cbn. lia. }
    assert ((pre ++ Pair s M :: mid ++ x :: suf) !! S (length pre + length mid)
            = Some x) as ->.
    { replace (pre ++ Pair s M :: mid ++ x :: suf)
        with ((pre ++ Pair s M :: mid) ++ x :: suf)
        by (by rewrite <- app_assoc).
      apply list_lookup_middle. rewrite length_app. cbn. lia. }
    assert (Hskip :
      factor_inner fuel (pre ++ Pair s M :: mid ++ x :: suf) (length pre)
        (S (S (length pre + length mid))) s M n
      = bind (absorb s M suf)
          (fun '(s', suf') => ret (pre ++ Pair s' M :: mid ++ x :: suf')) n).
    { replace (S (S (length pre + length mid)))
        with (S (length pre + length (mid ++ [x])))
        by (rewrite length_app; cbn; lia).
      replace (mid ++ x :: suf) with ((mid ++ [x]) ++ suf)
        by (by rewrite <- app_assoc).
      rewrite IH by (cbn in Hf; lia).
      apply bind_ext. intros [s' suf'] n' _. by rewrite <- app_assoc. }
    destruct x as [sj Mj|v]; cbn [absorb].
    + destruct (is_ M Mj).
      * rewrite bind_assoc. apply bind_ext. intros s1 n1 _.
        assert (delete (S (length pre + length mid))
                  (<[length pre := Pair s1 M]> (pre ++ Pair s M :: mid ++ Pair sj Mj :: suf))
                = pre ++ Pair s1 M :: mid ++ suf) as ->.
        { rewrite insert_app_r_alt by lia. rewrite Nat.sub_diag. cbn.
          replace (pre ++ Pair s1 M :: mid ++ Pair sj Mj :: suf)
            with ((pre ++ Pair s1 M :: mid) ++ Pair sj Mj :: suf)
            by (by rewrite <- app_assoc).
          replace (S (length pre + length mid))
            with (length (pre ++ Pair s1 M :: mid))
            by (rewrite length_app; cbn; lia).
          rewrite delete_middle. by rewrite <- app_assoc. }
        apply IH. cbn in Hf. lia.
      * rewrite Hskip, bind_assoc. apply bind_ext. by intros [s' suf'] n' _.
    + rewrite Hskip, bind_assoc. apply bind_ext. by intros [s' suf'] n' _.
Qed.

(** The outer loop, started at entry [i], merges the rest of the list as
    [merge_all] does. *)
Lemma factor_outer_merge_all (fuel : nat) (pre rest : list Entry) (n : ident) :
  length rest < fuel ->
  factor_outer fuel (pre ++ rest) (length pre) n
  = bind (merge_all fuel rest) (fun r => ret (pre ++ r)) n.
Proof.
  revert pre rest n. induction fuel as [|fuel IH]; intros pre rest n Hf; [lia|].
  cbn [factor_outer merge_all].
  destruct rest as [|x rest].
  { rewrite bind_ret_l.
    assert ((length pre <? length (pre ++ []) - 1) = false) as ->; [|done].
    apply Nat.ltb_ge. rewrite length_app. cbn. lia. }
  destruct rest as [|y rest].
  { assert ((length pre <? length (pre ++ [x]) - 1) = false) as ->.
    { apply Nat.ltb_ge. rewrite length_app. cbn. lia. }
    destruct fuel as [|fuel]; [cbn in Hf; lia|].
    destruct x as [s M|v]; reflexivity. }
  assert ((length pre <? length (pre ++ x :: y :: rest) - 1) = true) as ->.
  { apply Nat.ltb_lt. rewrite length_app. cbn. lia. }
  rewrite list_lookup_middle by done.
  assert (Hnext : forall e r m, length r < fuel ->
    factor_outer fuel (pre ++ e :: r) (S (length pre)) m
    = bind (merge_all fuel r) (fun tl => ret (pre ++ e :: tl)) m).
  { intros e r m Hr.
    replace (pre ++ e :: r) with ((pre ++ [e]) ++ r) by (by rewrite <- app_assoc).
    replace (S (length pre)) with (length (pre ++ [e]))
      by (rewrite length_app; cbn; lia).
    rewrite IH by done. apply bind_ext. intros tl m' _. by rewrite <- app_assoc. }
  destruct x as [s M|v].
  - pose proof (factor_inner_absorb (y :: rest) pre [] s M
                  (S (length (pre ++ Pair s M :: y :: rest))) n) as Hin.
    rewrite Nat.add_0_r in Hin. cbn [app length] in Hin.
    rewrite (bind_cong_l _ _ _ _ (Hin ltac:(rewrite length_app; cbn; lia))).
    clear Hin. rewrite !bind_assoc.
    apply bind_ext. intros [s' rest'] n1 Ha%absorb_length.
    cbn in Ha, Hf. rewrite bind_ret_l, Hnext by lia.
    rewrite bind_assoc. apply bind_ext. by intros tl m' _.
  - rewrite Hnext by (cbn in Hf; cbn; lia).
    rewrite bind_assoc. apply bind_ext. by intros tl m' _.
Qed.

Lemma factor_canonicalized_merge_all (lst : list Entry) (n : ident) :
  _factor_canonicalized lst n = merge_all (S (length lst)) lst n.
Proof.
  unfold _factor_canonicalized.
  pose proof (factor_outer_merge_all (S (length lst)) [] lst n) as H.
  cbn [app length] in H. rewrite H by lia.
  apply (bind_ret_r (merge_all (S (length lst)) lst)).
Qed.

Lemma is_sym (a b : Var) : is_ a b = is_ b a.
Proof. unfold is_. apply bool_decide_ext. split; congruence. Qed.

Lemma is_refl (a : Var) : is_ a a = true.
Proof. unfold is_. by apply bool_decide_eq_true_2. Qed.

Lemma scale_add_fuel (s t : Scale) (n : ident) : (scale_add s t n).1 <> OutOfFuel.
Proof.
  assert (regular (fun _ => True) (scale_add s t)) as H
    by (apply regular_scale_add; done).
  specialize (H n). by destruct (scale_add s t n) as [[?|?|] ?].
Qed.

(** What [absorb] returns: the sum, and the list without the entries of
    [M]. It raises only what an addition of two scales raised. *)
Lemma absorb_outcome (s : Scale) (M : Var) (rest : list Entry) (n : ident) :
  match absorb s M rest n with
  | (Ok (s', rest'), _) =>
      adds_up s (scales_of M rest) s'
      /\ rest' = List.filter (fun e => negb (is_entry_of M e)) rest
  | (Raise e, _) => exists s t m, (scale_add s t m).1 = Raise e
  | (OutOfFuel, _) => False
  end.
Proof.
  revert s n. induction rest as [|[sj Mj|v] rest IH]; intros s n; cbn.
  - split; [constructor|done].
  - destruct (is_ M Mj) eqn:E; cbn.
    + unfold bind. pose proof (scale_add_fuel s sj n) as Hfuel.
      destruct (scale_add s sj n) as [[s1|e|] n1] eqn:Ha; cbn in *; [| |done].
      * specialize (IH s1 n1).
        destruct (absorb s1 M rest n1) as [[[s' rest']|e|] n2]; [|done|done].
        destruct IH as [IH1 IH2]. split; [by econstructor|done].
      * exists s, sj, n. by rewrite Ha.
    + unfold bind. specialize (IH s n).
      destruct (absorb s M rest n) as [[[s' rest']|e|] n2]; [|done|done].
      destruct IH as [IH1 ->]. done.
  - unfold bind. specialize (IH s n).
    destruct (absorb s M rest n) as [[[s' rest']|e|] n2]; [|done|done].
    destruct IH as [IH1 ->]. done.
Qed.

Lemma term_ids_filter (M : Var) (rest : list Entry) (k : ident) :
  k ∈ term_ids (List.filter (fun e => negb (is_entry_of M e)) rest)
  <-> k ∈ term_ids rest /\ k <> var_id M.
Proof.
  unfold term_ids. induction rest as [|[sj Mj|v] rest IH]; cbn.
  - split; [by intros ?%elem_of_nil|by intros [?%elem_of_nil _]].
  - destruct (is_ M Mj) eqn:E; cbn; rewrite ?elem_of_cons, IH.
    + apply bool_decide_eq_true in E.
      split; [tauto|]. intros [[->|?] ?]; [congruence|done].
    + apply bool_decide_eq_false in E.
      split; [|tauto]. intros [->|[? ?]]; [split; [by left|congruence]|tauto].
  - apply IH.
Qed.

Lemma scales_of_filter (M N : Var) (rest : list Entry) :
  var_id N <> var_id M ->
  scales_of N (List.filter (fun e => negb (is_entry_of M e)) rest)
  = scales_of N rest.
Proof.
  intros Hne. unfold scales_of. induction rest as [|[sj Mj|v] rest IH]; cbn; [done| |done].
  destruct (is_ M Mj) eqn:E; cbn.
  - apply bool_decide_eq_true in E. rewrite IH.
    unfold is_. rewrite bool_decide_eq_false_2 by congruence. done.
  - by rewrite IH.
Qed.

Lemma elem_of_term_ids (s : Scale) (M : Var) (lst : list Entry) :
  Pair s M ∈ lst -> var_id M ∈ term_ids lst.
Proof.
  unfold term_ids. intros H. apply list_elem_of_omap. by exists (Pair s M).
Qed.

(** What [merge_all] returns, with fuel beyond the length of the list. *)
Lemma merge_all_outcome (fuel : nat) (lst : list Entry) (n : ident) :
  length lst < fuel ->
  match merge_all fuel lst n with
  | (Ok lst', _) =>
      NoDup (term_ids lst')
      /\ (forall k, k ∈ term_ids lst' <-> k ∈ term_ids lst)
      /\ (forall s' M, Pair s' M ∈ lst' ->
            exists s0 l, scales_of M lst = s0 :: l /\ adds_up s0 l s')
  | (Raise e, _) => exists s t m, (scale_add s t m).1 = Raise e
  | (OutOfFuel, _) => False
  end.
Proof.
  revert lst n. induction fuel as [|fuel IH]; intros lst n Hf; [lia|].
  destruct lst as [|[s M|v] rest]; cbn [merge_all].
  - cbn. split; [constructor|]. split; [done|]. by intros ? ? ?%elem_of_nil.
  - unfold bind at 1. pose proof (absorb_outcome s M rest n) as Ha.
    destruct (absorb s M rest n) as [[[s' rest']|e|] n1] eqn:Habs; [|done|done].
    destruct Ha as [Hsum ->]. apply absorb_length in Habs.
    unfold bind. cbn in Hf.
    specialize (IH (List.filter (fun e => negb (is_entry_of M e)) rest) n1
                  ltac:(lia)).
    destruct (merge_all fuel _ n1) as [[tl|e|] n2]; [|done|done].
    destruct IH as (Hnd & Hids & Hsc). cbn.
    split; [|split].
    + constructor; [|done]. rewrite Hids, term_ids_filter. tauto.
    + intros k. rewrite !elem_of_cons, Hids, term_ids_filter.
      destruct (decide (k = var_id M)); tauto.
    + intros t N [[= -> ->]|HN]%elem_of_cons.
      * exists s, (scales_of M rest). cbn. by rewrite is_refl.
      * assert (var_id N <> var_id M) as Hne.
        { apply elem_of_term_ids, Hids, term_ids_filter in HN. tauto. }
        destruct (Hsc t N HN) as (s0 & l & Hl & Hadd).
        exists s0, l. split; [|done].
        rewrite scales_of_filter in Hl by done.
        unfold is_. by rewrite bool_decide_eq_false_2.
  - unfold bind. cbn in Hf. specialize (IH rest n ltac:(lia)).
    destruct (merge_all fuel rest n) as [[tl|e|] n2]; [|done|done].
    destruct IH as (Hnd & Hids & Hsc). cbn. split; [done|]. split; [done|].
    intros t N [[=]|HN]%elem_of_cons. eauto.
Qed.

(** C2. [_factor_canonicalized] does not run out of fuel and raises only
    what an addition of two scales raised. In the list it returns no two
    tuples have the same term by identity, the terms are those of the
    given list, and the scale of each term is the sum, from left to right,
    of the scales the given list has for that term. In particular two
    entries of one term are merged into one entry with scale s_i + s_j,
    and the entries (3, M) and (-1, M) into the single entry (2, M). *)
Theorem factor_canonicalized_merges (lst : list Entry) (n : ident) :
  match _factor_canonicalized lst n with
  | (Ok lst', _) =>
      NoDup (term_ids lst')
      /\ (forall k, k ∈ term_ids lst' <-> k ∈ term_ids lst)
      /\ (forall s' M, Pair s' M ∈ lst' ->
            exists s0 l, scales_of M lst = s0 :: l /\ adds_up s0 l s')
  | (Raise e, _) => exists s t m, (scale_add s t m).1 = Raise e
  | (OutOfFuel, _) => False
  end
  /\ (forall s_i s_j M_i M_j,
        is_ M_i M_j = true ->
        _factor_canonicalized [Pair s_i M_i; Pair s_j M_j] n
        = bind (scale_add s_i s_j) (fun s => ret [Pair s M_i]) n)
  /\ (forall M,
        _factor_canonicalized [Pair (Num 3) M; Pair (Num (-1)) M] n
        = (Ok [Pair (Num 2) M], n)).
Proof.
  split; [|split].
  - rewrite factor_canonicalized_merge_all. apply merge_all_outcome. lia.
  - intros s_i s_j M_i M_j E. rewrite factor_canonicalized_merge_all.
    cbn. rewrite E. unfold bind.
    by destruct (scale_add s_i s_j n) as [[?|?|] ?].
  - intros M. rewrite factor_canonicalized_merge_all. cbn. by rewrite is_refl.
Qed.

End Factor.

(** On graphs the scales are variables: [3 * M + (-1) * M] canonicalises to
    the two entries of [M] with the constants 3 and -1, and the
    deduplication leaves the one entry of [M] whose scale is the variable
    [3 + (-1)], the output of an [add] node on the two constants. *)
Lemma three_M_minus_M_single_entry :
  exists e n c3 cm1 n1 s n2 i3 im1 ty,
    Example.three_M_minus_M 1 = (Ok e, n)
    /\ _gemm_canonicalize (FunctionGraph_of [Example.M] [e]) e (Num 1) [] 0 n
       = (Ok [Pair (Sym c3) Example.M; Pair (Sym cm1) Example.M], n1)
    /\ c3 = Constant i3 ty 3
    /\ cm1 = Constant im1 ty (-1)
    /\ _factor_canonicalized
         [Pair (Sym c3) Example.M; Pair (Sym cm1) Example.M] n1
       = (Ok [Pair (Sym s) Example.M], n2)
    /\ option_map op (owner s) = Some add
    /\ option_map inputs (owner s) = Some [c3; cm1].
Proof.
  do 10 eexists. repeat split; try (vm_compute; reflexivity).
Qed.

(** ** Scales of exactly 1 and -1 *)

Section Scaling.
Context `{Ext : Externals}.

Lemma scale_eq_minus_one_not_one (s : Scale) :
  scale_eq s (-1) = true -> scale_eq s 1 = false.
Proof. destruct s as [f|v]; simpl; [apply float_minus_one_not_one|done]. Qed.

(** An [Elemwise] node over a single input takes that input as it is and
    makes nothing but the node and its output. *)
Lemma Elemwise_make_node_unary (sop : ScalarOp) (v : Var) (n n1 : ident) (a : Apply) :
  Elemwise_make_node sop [] [Sym v] n = (Ok a, n1) ->
  exists ty, a = mkApply n (Elemwise sop []) [v] [(S n, ty)] /\ n1 = S (S n).
Proof.
  unfold Elemwise_make_node. intros H.
  apply bind_Ok_inv in H as (ins & n2 & Hins & H).
  assert (ins = [v] /\ n2 = n) as [-> ->].
  { cbn in Hins. unfold bind, ret, raise in Hins.
    destruct (isinstance_TensorType (vtype v)); by simplify_eq. }
  apply bind_Ok_inv in H as (d & n2 & Hd & H).
  apply lift_Ok_inv in Hd as [Hd <-].
  apply bind_Ok_inv in H as ([] & n3 & Hnil & H).
  cbn in Hnil. apply ret_Ok_inv in Hnil as [_ <-].
  apply bind_Ok_inv in H as (ins & n3 & Hins2 & H).
  assert (ins = [v] /\ n3 = n) as [-> ->].
  { cbn in Hins2. unfold left_complete in Hins2.
    rewrite Nat.max_0_r, Nat.sub_diag in Hins2.
    rewrite bool_decide_eq_true_2 in Hins2 by done.
    unfold bind, ret in Hins2. by simplify_eq. }
  apply bind_Ok_inv in H as (sh & n3 & Hsh & H).
  apply lift_Ok_inv in Hsh as [Hsh <-].
  apply bind_Ok_inv in H as ([] & n3 & H1 & H).
  apply lift_Ok_inv in H1 as [_ <-].
  apply bind_Ok_inv in H as ([] & n4 & H2 & H).
  apply lift_Ok_inv in H2 as [_ <-].
  unfold mk_Apply in H. cbn in H. simplify_eq.
  eexists. split; [reflexivity|lia].
Qed.

(** [-v] makes one node, an [Elemwise] negation of [v] alone, and nothing
    else. *)
Lemma var_neg_Ok (v r : Var) (n n' : ident) :
  var_neg v n = (Ok r, n') ->
  exists ty, r = Out n neg [v] [(S n, ty)] 0 /\ n' = S (S n).
Proof.
  unfold var_neg, call_Elemwise. intros H.
  apply bind_Ok_inv in H as (a & n1 & Ha & H).
  apply Elemwise_make_node_unary in Ha as (ty & -> & ->).
  apply ret_Ok_inv in H as [<- <-]. eauto.
Qed.

Lemma var_neg_fuel (v : Var) (n : ident) : (var_neg v n).1 <> OutOfFuel.
Proof.
  assert (regular (fun _ => True) (var_neg v)) as H
    by (apply regular_var_neg; done).
  specialize (H n). by destruct (var_neg v n) as [[?|?|] ?].
Qed.

Lemma mapM_Ok_length {A B} (f : A -> Build B) (l : list A) (l' : list B)
    (n n' : ident) :
  mapM f l n = (Ok l', n') -> length l' = length l.
Proof.
  revert l' n n'. induction l as [|x l IH]; intros l' n n'; cbn [mapM].
  - by intros [<- _]%ret_Ok_inv.
  - intros (y & n1 & _ & H)%bind_Ok_inv.
    apply bind_Ok_inv in H as (ys & n2 & Hys%IH & [<- _]%ret_Ok_inv).
    cbn. by rewrite Hys.
Qed.

(** The node [Elemwise.make_node] returns is a node of the op it was
    called on, with as many inputs as it was given. *)
Lemma Elemwise_make_node_Ok_op (sop : ScalarOp) (ip : list (nat * nat))
    (ins : list Scale) (n n' : ident) (a : Apply) :
  Elemwise_make_node sop ip ins n = (Ok a, n') ->
  op a = Elemwise sop ip /\ length (inputs a) = length ins.
Proof.
  unfold Elemwise_make_node.
  intros (l1 & n1 & Hl1%mapM_Ok_length & H)%bind_Ok_inv.
  apply bind_Ok_inv in H as (d & n2 & _ & H).
  apply bind_Ok_inv in H as ([] & n3 & _ & H).
  apply bind_Ok_inv in H as (l2 & n4 & Hl2%mapM_Ok_length & H).
  apply bind_Ok_inv in H as (sh & n5 & _ & H).
  apply bind_Ok_inv in H as ([] & n6 & _ & H).
  apply bind_Ok_inv in H as ([] & n7 & _ & H).
  unfold mk_Apply in H. injection H as <- _. cbn. split; [done|congruence].
Qed.

Lemma binary_operator_Ok {A} (c : Build A) (n n' : ident) (a : A) :
  binary_operator c n = (Ok a, n') -> c n = (Ok a, n').
Proof.
  unfold binary_operator. destruct (c n) as [[?|[]|] ?]; intros; by simplify_eq.
Qed.

(** [scale * thing] is the output of a multiplication node of two
    inputs. *)
Lemma scale_mul_Ok (s : Scale) (thing r : Var) (n n' : ident) :
  scale_mul s thing n = (Ok r, n') ->
  option_map op (owner r) = Some mul
  /\ exists factor term, option_map inputs (owner r) = Some [factor; term].
Proof.
  intros H.
  assert (call_Elemwise Mul [s; Sym thing] n = (Ok r, n')) as Hc.
  { destruct s; [exact H|by apply binary_operator_Ok]. }
  unfold call_Elemwise in Hc.
  apply bind_Ok_inv in Hc as (a & n1 & [Hop Hlen]%Elemwise_make_node_Ok_op
                              & [<- _]%ret_Ok_inv).
  cbn. split; [by rewrite Hop|].
  destruct (inputs a) as [|x [|y [|]]]; try done. by exists x, y.
Qed.

(** The terms [_gemm_from_factored_list] puts back into the sum. *)
Lemma other_items_multiply (lst : list (Var * Var)) (k i j : nat)
    (n n' : ident) (vs : list Var) :
  other_items lst k i j n = (Ok vs, n') ->
  Forall (fun v => option_map op (owner v) = Some mul) vs.
Proof.
  revert k n n' vs.
  induction lst as [|[s M] lst IH]; intros k n n' vs; cbn [other_items].
  - by intros [<- _]%ret_Ok_inv.
  - destruct (_ || _); [apply IH|].
    intros (v & n1 & Hv & H)%bind_Ok_inv.
    apply bind_Ok_inv in H as (vs' & n2 & Hvs%IH & [<- _]%ret_Ok_inv).
    constructor; [|done].
    change (scale_mul (Sym s) M n = (Ok v, n1)) in Hv.
    by apply scale_mul_Ok in Hv as [? _].
Qed.


End Scaling.



(** The claim C8 as stated fails in [item_to_var] as well. Where
    [_gemm_from_factored_list] calls it, the scales have been through
    [as_tensor_variable] and [cast]: they are variables, and a variable
    compares equal to no number. For [Z + W + _dot22(X, Y)] the canonical
    list gives every term the Python scale 1.0, the pair of [Z] and the
    [dot22] output becomes the [Gemm] node, and the remaining entry of [W]
    comes back as a product with [W]: a multiplication node whose first
    input is the literal 1, a [float32] constant cast to [float64] (and
    brought to rank 2). *)
Lemma item_to_var_of_tensor_one_multiplies :
  exists e n node lst n1 r d n2 w g one c i,
    Example.Z_plus_W_plus_dot 5 = (Ok e, n)
    /\ owner e = Some node
    /\ _gemm_canonicalize
         (FunctionGraph_of [Example.Z; Example.X; Example.Y; Example.W] [e])
         e (Num 1) [] 0 n
       = (Ok lst, n1)
    /\ lst = [Pair (Num 1) Example.Z; Pair (Num 1) Example.W;
              Pair (Num 1) Example.dot22_XY]
    /\ _gemm_from_node2
         (FunctionGraph_of [Example.Z; Example.X; Example.Y; Example.W] [e])
         node n
       = (Ok (Some ([r], d)), n2)
    /\ option_map op (owner r) = Some add
    /\ option_map inputs (owner r) = Some [w; g]
    /\ option_map op (owner g) = Some gemm_no_inplace
    /\ option_map op (owner w) = Some mul
    /\ option_map inputs (owner w) = Some [one; Example.W]
    /\ strip_DimShuffle one = Ok c
    /\ option_map op (owner c) = Some (Elemwise (Cast float64) [])
    /\ option_map inputs (owner c)
       = Some [Constant i (TensorType float32 []) 1].
Proof.
  do 13 eexists. repeat split; vm_compute; reflexivity.
Qed.


(** ** Gemm.make_node and aliasing *)

Section Make_node.
Context `{Ext : Externals}.

Lemma as_tensor_variable_raises (x : Scale) (n n' : ident) (e : Exn) :
  as_tensor_variable x n = (Raise e, n') -> e = TypeError.
Proof.
  destruct x as [f|v]; cbn; [discriminate|].
  destruct (isinstance_TensorType (vtype v)); unfold ret, raise; intros;
    by simplify_eq.
Qed.

Lemma mapM_as_tensor_variable_raises (l : list Scale) (n n' : ident) (e : Exn) :
  mapM as_tensor_variable l n = (Raise e, n') -> e = TypeError.
Proof.
  revert n. induction l as [|x l IH]; intros n; cbn; [discriminate|].
  unfold bind at 1.
  destruct (as_tensor_variable x n) as [[v| |] n1] eqn:Hx; try discriminate.
  - unfold bind at 1.
    destruct (mapM as_tensor_variable l n1) as [[vs| |] n2] eqn:Hl;
      unfold ret; try discriminate.
    intros; simplify_eq. by eapply IH.
  - intros; simplify_eq. by eapply as_tensor_variable_raises.
Qed.

Lemma mapM_as_tensor_variable_dense (l : list Var) (n : ident) :
  Forall (fun v => isinstance_DenseTensorType (vtype v) = true) l ->
  mapM as_tensor_variable (map Sym l) n = (Ok l, n).
Proof.
  induction 1 as [|v l Hv _ IH]; [done|].
  cbn. unfold bind at 1.
  assert (isinstance_TensorType (vtype v) = true) as ->.
  { unfold isinstance_DenseTensorType, isinstance_TensorType in *.
    by destruct (tclass (vtype v)). }
  cbn. unfold bind at 1. by rewrite IH.
Qed.

(** C3, as amended. The destructive variant [Gemm(inplace=True)] refuses
    five dense tensor inputs (z, a, x, y, b) with [InconsistencyError]
    whenever the view roots of z meet those of x or of y. The check is
    made by the destructive variant only: [make_node] of
    [Gemm(inplace=False)] raises [InconsistencyError] on no input. *)
Theorem Gemm_make_node_inplace_rejects_alias (z a x y b : Var) (n : ident) :
  Forall (fun v => isinstance_DenseTensorType (vtype v) = true) [z; a; x; y; b] ->
  roots_intersect (view_roots z) (view_roots x)
  || roots_intersect (view_roots z) (view_roots y) = true ->
  Gemm_make_node true (map Sym [z; a; x; y; b]) n = (Raise InconsistencyError, n)
  /\ forall inputs m, (Gemm_make_node false inputs m).1 <> Raise InconsistencyError.
Proof.
  intros Hd Hr. split.
  - unfold Gemm_make_node, bind.
    rewrite (mapM_as_tensor_variable_dense _ _ Hd).
    assert (existsb (fun i => negb (isinstance_DenseTensorType (vtype i)))
              [z; a; x; y; b] = false) as ->.
    { apply not_true_is_false. intros (v & Hv & Hn)%existsb_exists.
      rewrite Forall_forall in Hd. apply list_elem_of_In, Hd in Hv.
      by rewrite Hv in Hn. }
    cbn [andb]. apply orb_prop in Hr as [-> | ->]; [done|].
    by destruct (roots_intersect (view_roots z) (view_roots x)).
  - intros inputs m. unfold Gemm_make_node, bind.
    destruct (mapM as_tensor_variable inputs m) as [[vs| |] m1] eqn:Hm; cbn;
      [|intros ?; simplify_eq;
        by apply mapM_as_tensor_variable_raises in Hm|done].
    unfold raise, mk_Apply.
    repeat (case_match; cbn; try done).
Qed.

End Make_node.

Lemma Gemm_make_node_inplace_rejects_alias_witness :
  Forall (fun v => isinstance_DenseTensorType (vtype v) = true)
    [Example.Z; Example.alpha; Example.Z; Example.Y; Example.beta]
  /\ roots_intersect (view_roots Example.Z) (view_roots Example.Z)
     || roots_intersect (view_roots Example.Z) (view_roots Example.Y) = true
  /\ Gemm_make_node true
       (map Sym [Example.Z; Example.alpha; Example.Z; Example.Y; Example.beta]) 5
     = (Raise InconsistencyError, 5)
  /\ forall inputs m, (Gemm_make_node false inputs m).1 <> Raise InconsistencyError.
Proof.
  assert (H1 : Forall (fun v => isinstance_DenseTensorType (vtype v) = true)
                 [Example.Z; Example.alpha; Example.Z; Example.Y; Example.beta])
    by (repeat constructor).
  assert (H2 : roots_intersect (view_roots Example.Z) (view_roots Example.Z)
               || roots_intersect (view_roots Example.Z) (view_roots Example.Y)
               = true) by reflexivity.
  split; [exact H1|]. split; [exact H2|].
  exact (Gemm_make_node_inplace_rejects_alias
           Example.Z Example.alpha Example.Z Example.Y Example.beta 5 H1 H2).
Defined.


(** The claim C3 as stated fails for the non-destructive variant: with z
    also given as x, the view roots of z and x meet, and
    [Gemm(inplace=False).make_node] returns a node all the same. *)
Lemma Gemm_make_node_no_inplace_accepts_alias :
  roots_intersect (view_roots Example.Z) (view_roots Example.Z) = true
  /\ exists node,
      Gemm_make_node false
        (map Sym [Example.Z; Example.alpha; Example.Z; Example.Y; Example.beta]) 5
      = (Ok node, 7)
      /\ op node = gemm_no_inplace
      /\ inputs node = [Example.Z; Example.alpha; Example.Z; Example.Y; Example.beta].
Proof.
  split; [reflexivity|]. eexists. repeat split; vm_compute; reflexivity.
Qed.

(** ** The exceptions of the candidate builder *)

Section Regular_candidate.
Context `{Ext : Externals}.
Context (P : Exn -> Prop).
Hypothesis P_TypeError : P TypeError.
Hypothesis P_ValueError : P ValueError.
Hypothesis P_NotImplementedError : P NotImplementedError.
Hypothesis P_AssertionError : P AssertionError.
Hypothesis P_IndexError : P IndexError.
Hypothesis P_KeyError : P KeyError.
Hypothesis P_InconsistencyError : P InconsistencyError.
Hypothesis P_scalar : forall o ds e, scalar_output_dtype o ds = inl e -> P e.

#[local] Hint Resolve P_TypeError P_ValueError P_NotImplementedError
  P_AssertionError P_IndexError P_KeyError P_InconsistencyError : regular.
#[local] Hint Resolve regular_as_tensor_variable regular_mapM regular_dimshuffle
  regular_call_Elemwise regular_scale_neg regular_scale_add regular_scale_mul
  regular_var_neg regular_cast regular_call_Gemm regular_getitem regular_scaled
  regular_gemm_canonicalize : regular.

Ltac regular := eauto 30 with regular.

Lemma regular_factor_canonicalized (lst : list Entry) :
  regular P (_factor_canonicalized lst).
Proof.
  intros n. rewrite factor_canonicalized_merge_all.
  pose proof (merge_all_outcome (S (length lst)) lst n ltac:(lia)) as H.
  destruct (merge_all (S (length lst)) lst n) as [[l|e|] n']; cbn; [done| |done].
  destruct H as (s & t & m & H).
  assert (regular P (scale_add s t)) as Hr by regular.
  specialize (Hr m). by rewrite H in Hr.
Qed.

Lemma regular_unpack2 (l : list Var) : regular P (unpack2 l).
Proof. unfold unpack2. regular. Qed.
#[local] Hint Resolve regular_factor_canonicalized regular_unpack2 : regular.

Lemma regular_dimshuffled_dot22 (L alpha MM beta : Var) lp gp :
  regular P (dimshuffled_dot22 L alpha MM beta lp gp).
Proof.
  unfold dimshuffled_dot22.
  apply regular_bind; [regular|intros [MMl MMr]]. regular.
Qed.
#[local] Hint Resolve regular_dimshuffled_dot22 : regular.

Lemma regular_beta_L_plus_alpha_M_flip (flips : nat) (beta L alpha M : Var) :
  regular P (_beta_L_plus_alpha_M_flip flips beta L alpha M).
Proof.
  revert beta L alpha M. induction flips as [|k IH]; intros beta L alpha M;
    cbn [_beta_L_plus_alpha_M_flip].
  - destruct (owner_op_is M _dot22).
    + apply regular_bind; [regular|intros [Ml Mr]]. regular.
    + apply regular_bind; [apply regular_lift; repeat case_match; cbn; regular|].
      intros [[o MM]|]; regular.
  - destruct (owner_op_is M _dot22).
    + apply regular_bind; [regular|intros [Ml Mr]]. regular.
    + apply regular_bind; [apply regular_lift; repeat case_match; cbn; regular|].
      intros [[o MM]|]; [|apply IH].
      repeat case_match; try apply IH; regular.
Qed.

Lemma regular_beta_L_plus_alpha_M fg (beta L alpha M : Var) (flip : bool) :
  regular P (_beta_L_plus_alpha_M fg beta L alpha M flip).
Proof. apply regular_beta_L_plus_alpha_M_flip. Qed.

Lemma regular_item_to_var (t : Entry) : regular P (item_to_var t).
Proof. unfold item_to_var. regular. Qed.
#[local] Hint Resolve regular_beta_L_plus_alpha_M regular_item_to_var : regular.

Lemma regular_matching_dtypes (lst : list Entry) : regular P (matching_dtypes lst).
Proof. induction lst as [|[s M|v] lst IH]; cbn [matching_dtypes]; regular. Qed.

Lemma regular_other_items (lst : list (Var * Var)) (k i j : nat) :
  regular P (other_items lst k i j).
Proof.
  revert k. induction lst as [|[s M] lst IH]; intros k; cbn [other_items];
    [regular|].
  destruct (_ || _); [apply IH|].
  apply regular_bind; [regular|intros v].
  apply regular_bind; [apply IH|intros vs]. regular.
Qed.
#[local] Hint Resolve regular_matching_dtypes regular_other_items : regular.

Lemma regular_try_j fg (lst : list (Var * Var)) (i : nat) (s_i M_i : Var) js :
  regular P (try_j fg lst i s_i M_i js).
Proof.
  induction js as [|j js IH]; cbn [try_j]; [regular|].
  apply regular_bind; [regular|intros [s_j M_j]].
  destruct (negb _); [apply IH|].
  apply regular_bind; [regular|intros [[g old]|]]; [|apply IH].
  regular.
Qed.
#[local] Hint Resolve regular_try_j : regular.

Lemma regular_try_i fg (lst : list (Var * Var)) idxs :
  regular P (try_i fg lst idxs).
Proof.
  induction idxs as [|i idxs IH]; cbn [try_i]; [regular|].
  apply regular_bind; [regular|intros [s_i M_i]].
  apply regular_bind; [regular|intros [r|]]; [regular|apply IH].
Qed.
#[local] Hint Resolve regular_try_i : regular.

Lemma regular_gemm_from_factored_list fg (lst : list Entry) :
  regular P (_gemm_from_factored_list fg lst).
Proof. unfold _gemm_from_factored_list. regular. Qed.
#[local] Hint Resolve regular_gemm_from_factored_list : regular.

Lemma regular_gemm_from_node2 fg (node : Apply) :
  regular P (_gemm_from_node2 fg node).
Proof.
  unfold _gemm_from_node2.
  apply regular_bind; [regular|intros out0].
  apply regular_bind; [regular|intros lst].
  destruct (1 <? length lst); [|regular].
  apply regular_bind; [regular|intros lst'].
  apply regular_bind; [regular|intros [[new old]|]]; regular.
Qed.

End Regular_candidate.

(** ** The type check of [_gemm_from_node2] *)

Section Type_check.
Context `{Ext : Externals}.

Lemma try_j_single fg (lst : list (Var * Var)) (i : nat) (s_i M_i : Var) js
    n new old n' :
  try_j fg lst i s_i M_i js n = (Ok (Some (new, old)), n') -> length new = 1.
Proof.
  revert n. induction js as [|j js IH]; intros n; cbn [try_j].
  - by intros [[=] _]%ret_Ok_inv.
  - intros ([s_j M_j] & n1 & _ & H)%bind_Ok_inv.
    destruct (negb _); [by eapply IH|].
    apply bind_Ok_inv in H as ([[g old']|] & n2 & _ & H); [|by eapply IH].
    apply bind_Ok_inv in H as ([] & n3 & Hlen & H).
    apply bind_Ok_inv in H as (items & n4 & _ & H).
    destruct (1 <? length (items ++ g)) eqn:E.
    + apply bind_Ok_inv in H as (r & n5 & _ & [[= <- <-] _]%ret_Ok_inv). done.
    + apply ret_Ok_inv in H as [[= <- <-] _].
      apply Nat.ltb_ge in E. unfold assert_ in Hlen.
      destruct (length g =? 1) eqn:Eg; [|done].
      apply Nat.eqb_eq in Eg. rewrite length_app in *. lia.
Qed.

Lemma try_i_single fg (lst : list (Var * Var)) idxs n new old n' :
  try_i fg lst idxs n = (Ok (Some (new, old)), n') -> length new = 1.
Proof.
  revert n. induction idxs as [|i idxs IH]; intros n; cbn [try_i].
  - by intros [[=] _]%ret_Ok_inv.
  - intros ([s_i M_i] & n1 & _ & H)%bind_Ok_inv.
    apply bind_Ok_inv in H as ([[new' old']|] & n2 & Hj & H); [|by eapply IH].
    apply ret_Ok_inv in H as [[= <- <-] _]. by eapply try_j_single.
Qed.

Lemma gemm_from_factored_list_single fg (lst : list Entry) n new old n' :
  _gemm_from_factored_list fg lst n = (Ok (Some (new, old)), n') ->
  length new = 1.
Proof.
  unfold _gemm_from_factored_list.
  intros (l2 & n1 & _ & H)%bind_Ok_inv. by eapply try_i_single.
Qed.

(** C5. When [_gemm_from_node2] returns a replacement, it is a single
    variable whose type is in the same class as the type of the output of
    the root node, so of the same dtype and rank. When it returns none
    although the factored list produced a candidate, that candidate was
    not in the same class as the root output: such a candidate is
    abandoned. The replacement [GemmOptimizer.apply] commits is the one
    returned here. *)
Theorem gemm_from_node2_same_class (fg : FunctionGraph) (node : Apply)
    (n n' : ident) (res : option (list Var * Var)) :
  _gemm_from_node2 fg node n = (Ok res, n') ->
  match res with
  | Some (new_outputs, old_dot22) =>
      exists r0 out0,
        new_outputs = [r0]
        /\ outputs node !! 0 = Some out0
        /\ in_same_class (vtype r0) (vtype out0) = true
        /\ dtype (vtype r0) = dtype (vtype out0)
        /\ ndim (vtype r0) = ndim (vtype out0)
  | None =>
      forall out0 lst n1 lst' n2 new_outputs old_dot22 n3 r0,
        outputs node !! 0 = Some out0 ->
        _gemm_canonicalize fg out0 (Num 1) [] 0 n = (Ok lst, n1) ->
        1 < length lst ->
        _factor_canonicalized lst n1 = (Ok lst', n2) ->
        _gemm_from_factored_list fg lst' n2 = (Ok (Some (new_outputs, old_dot22)), n3) ->
        new_outputs !! 0 = Some r0 ->
        in_same_class (vtype r0) (vtype out0) = false
  end.
Proof.
  unfold _gemm_from_node2.
  intros (out0 & n0 & (_ & Hout & ->)%getitem_Ok & H)%bind_Ok_inv.
  apply bind_Ok_inv in H as (lst & n1 & Hcan & H).
  destruct (1 <? length lst) eqn:Elen.
  - apply bind_Ok_inv in H as (lst' & n2 & Hfac & H).
    apply bind_Ok_inv in H as (rval & n3 & Hlist & H).
    destruct rval as [[new old]|].
    + apply bind_Ok_inv in H as (r0 & n4 & (_ & Hr0 & ->)%getitem_Ok & H).
      pose proof (gemm_from_factored_list_single _ _ _ _ _ _ Hlist) as Hone.
      destruct (in_same_class (vtype r0) (vtype out0)) eqn:Ecls.
      * apply ret_Ok_inv in H as [<- _].
        destruct new as [|r [|? ?]]; try done. cbn in Hr0. simplify_eq.
        exists r0, out0. pose proof (in_same_class_sound _ _ Ecls) as [? ?].
        done.
      * apply ret_Ok_inv in H as [<- _].
        intros out0' lst0 m1 lst0' m2 new' old' m3 r0' Hout' Hcan' _ Hfac' Hlist' Hr0'.
        rewrite Hout in Hout'. injection Hout' as <-.
        rewrite Hcan in Hcan'. injection Hcan' as <- <-.
        rewrite Hfac in Hfac'. injection Hfac' as <- <-.
        rewrite Hlist in Hlist'. injection Hlist' as <- <- <-.
        rewrite Hr0 in Hr0'. by injection Hr0' as <-.
    + apply ret_Ok_inv in H as [<- _].
      intros out0' lst0 m1 lst0' m2 new' old' m3 r0' Hout' Hcan' _ Hfac' Hlist' Hr0'.
      rewrite Hout in Hout'. injection Hout' as <-.
      rewrite Hcan in Hcan'. injection Hcan' as <- <-.
      rewrite Hfac in Hfac'. injection Hfac' as <- <-.
      rewrite Hlist in Hlist'. discriminate.
  - apply ret_Ok_inv in H as [<- _].
    intros out0' lst0 m1 lst0' m2 new' old' m3 r0' Hout' Hcan' Hl.
    rewrite Hout in Hout'. injection Hout' as <-.
    rewrite Hcan in Hcan'. injection Hcan' as <- <-.
    apply Nat.ltb_ge in Elen. lia.
Qed.

End Type_check.

Lemma gemm_from_node2_same_class_witness :
  exists res n',
    _gemm_from_node2 (Example.fgraph_of Example.root) Example.root_node 17
    = (Ok res, n')
    /\ match res with
       | Some (new_outputs, old_dot22) =>
           exists r0 out0,
             new_outputs = [r0]
             /\ outputs Example.root_node !! 0 = Some out0
             /\ in_same_class (vtype r0) (vtype out0) = true
             /\ dtype (vtype r0) = dtype (vtype out0)
             /\ ndim (vtype r0) = ndim (vtype out0)
       | None =>
           forall out0 lst n1 lst' n2 new_outputs old_dot22 n3 r0,
             outputs Example.root_node !! 0 = Some out0 ->
             _gemm_canonicalize (Example.fgraph_of Example.root) out0 (Num 1) [] 0 17
             = (Ok lst, n1) ->
             1 < length lst ->
             _factor_canonicalized lst n1 = (Ok lst', n2) ->
             _gemm_from_factored_list (Example.fgraph_of Example.root) lst' n2
             = (Ok (Some (new_outputs, old_dot22)), n3) ->
             new_outputs !! 0 = Some r0 ->
             in_same_class (vtype r0) (vtype out0) = false
       end.
Proof.
  eexists _, _.
  assert (H : _gemm_from_node2 (Example.fgraph_of Example.root)
                Example.root_node 17
              = (Ok (Some ([Example.fused], Example.dot22_XY)), 19))
    by (vm_compute; reflexivity).
  split; [exact H|].
  exact (gemm_from_node2_same_class _ _ _ _ _ H).
Defined.

(** A coefficient that upcasts. With [floatX] at [float32], the root of
    [s * A + B + _dot22(X, Y)] is a [float64] matrix; the factored list
    gives a [float32] [Gemm] candidate, which is not in the class of the
    root, and [_gemm_from_node2] returns no replacement. *)
Lemma upcasting_candidate_abandoned :
  exists e n node lst n1 lst' n2 g d n3,
    Upcast.expression 5 = (Ok e, n)
    /\ owner e = Some node
    /\ dtype (vtype e) = float64
    /\ _gemm_canonicalize (Ext:=pytensor_floatX32)
         (Upcast.fgraph_of e) e (Num 1) [] 0 n = (Ok lst, n1)
    /\ _factor_canonicalized (Ext:=pytensor_floatX32) lst n1 = (Ok lst', n2)
    /\ _gemm_from_factored_list (Ext:=pytensor_floatX32)
         (Upcast.fgraph_of e) lst' n2 = (Ok (Some ([g], d)), n3)
    /\ option_map op (owner g) = Some gemm_no_inplace
    /\ dtype (vtype g) = float32
    /\ in_same_class (Externals:=pytensor_floatX32) (vtype g) (vtype e) = false
    /\ (_gemm_from_node2 (Ext:=pytensor_floatX32)
          (Upcast.fgraph_of e) node n).1 = Ok None.
Proof.
  do 10 eexists. repeat split; try (vm_compute; reflexivity).
Qed.

(** ** The decomposition rules of [_gemm_canonicalize] *)

Section Canonicalize.
Context `{Ext : Externals}.

(** One step of the decomposition calls itself on inputs of the node
    only. *)
Lemma canonicalize_step_ext
    (self1 self2 : Var -> Scale -> list Entry -> nat -> Build (list Entry))
    (fg : FunctionGraph) (r : Var) (scale : Scale) (rval : list Entry)
    (maxclients : nat) (n : ident) :
  (forall x s l m k, x ∈ from_option inputs [] (owner r) ->
                     self1 x s l m k = self2 x s l m k) ->
  canonicalize_step self1 fg r scale rval maxclients n
  = canonicalize_step self2 fg r scale rval maxclients n.
Proof.
  intros Hin. unfold canonicalize_step.
  destruct (negb (isinstance_TensorType (vtype r))); [done|].
  destruct (_ || _); [done|].
  apply bind_ext. intros too_many n1 _.
  destruct too_many; [done|].
  destruct (owner_op_is r sub).
  { apply bind_ext. intros i0 n2 [H0 _]%getitem_Ok.
    rewrite (bind_cong_l _ _ _ _ (Hin i0 _ _ _ _ H0)).
    apply bind_ext. intros rval1 n3 _.
    apply bind_ext. intros i1 n4 [Hi1 _]%getitem_Ok.
    apply bind_ext. intros ns n5 _. by apply Hin. }
  destruct (owner_op_is r add).
  { revert rval n1. induction (from_option inputs [] (owner r)) as [|i ins IHins];
      intros rval n1; cbn [foldM]; [done|].
    rewrite (bind_cong_l _ _ _ _ (Hin i _ _ _ _ ltac:(constructor))).
    apply bind_ext. intros rval1 n2 _.
    apply IHins. intros x s l m k Hx. apply Hin. by constructor. }
  destruct (owner_op_is r neg).
  { apply bind_ext. intros i0 n2 [H0 _]%getitem_Ok.
    apply bind_ext. intros ns n3 _. by apply Hin. }
  destruct (owner_op_is r mul); [|done].
  apply bind_ext. intros cls n2 Hcls.
  destruct cls as [[[sc ve] ma]|]; [|done].
  apply classify_factors_subset in Hcls as [Hve Hma].
  destruct (length ma =? 1).
  { apply bind_ext. intros _ n3 _.
    apply bind_ext. intros m n4 [Hm _]%getitem_Ok.
    apply bind_ext. intros s n5 _.
    destruct (Hma m Hm) as [?%elem_of_nil|Hx]; [done|]. by apply Hin. }
  destruct (length ve =? 1); [|done].
  apply bind_ext. intros _ n3 _.
  apply bind_ext. intros m n4 [Hm _]%getitem_Ok.
  apply bind_ext. intros s n5 _.
  destruct (Hve m Hm) as [?%elem_of_nil|Hx]; [done|]. by apply Hin.
Qed.

(** Beyond the height of the expression, the fuel does not matter. *)
Lemma canonicalize_fuel_irrelevant (f1 f2 : nat) (fg : FunctionGraph) (r : Var)
    (scale : Scale) (rval : list Entry) (maxclients : nat) (n : ident) :
  height r < f1 -> height r < f2 ->
  canonicalize_fuel f1 fg r scale rval maxclients n
  = canonicalize_fuel f2 fg r scale rval maxclients n.
Proof.
  revert f2 r scale rval maxclients n.
  induction f1 as [|f1 IH]; intros f2 r scale rval mc n H1 H2; [lia|].
  destruct f2 as [|f2]; [lia|].
  cbn [canonicalize_fuel]. apply canonicalize_step_ext.
  intros x s l m k Hx%height_owner_input. apply IH; lia.
Qed.

(** The unfolding of [_gemm_canonicalize]: its body, with the recursive
    calls made by [_gemm_canonicalize] itself. *)
Lemma gemm_canonicalize_unfold (fg : FunctionGraph) (r : Var) (scale : Scale)
    (rval : list Entry) (maxclients : nat) (n : ident) :
  _gemm_canonicalize fg r scale rval maxclients n
  = canonicalize_step (_gemm_canonicalize fg) fg r scale rval maxclients n.
Proof.
  unfold _gemm_canonicalize at 1. cbn [canonicalize_fuel].
  apply canonicalize_step_ext.
  intros x s l m k Hx%height_owner_input.
  apply canonicalize_fuel_irrelevant; lia.
Qed.

Lemma bind_Ok_eq {S A B} (c : ST S A) (k : A -> ST S B) (s s' : S) (a : A) :
  c s = (Ok a, s') -> bind c k s = k a s'.
Proof. unfold bind. by intros ->. Qed.

Lemma owner_op_is_unique (r : Var) (o1 o2 : Op) :
  owner_op_is r o1 = true -> o1 <> o2 -> owner_op_is r o2 = false.
Proof.
  unfold owner_op_is. destruct (owner r) as [a|]; [|done].
  intros <-%bool_decide_eq_true Hne. by apply bool_decide_eq_false_2.
Qed.

Lemma gemm_canonicalize_fuel (fg : FunctionGraph) (r : Var) (scale : Scale)
    (rval : list Entry) (maxclients : nat) (n : ident) :
  (_gemm_canonicalize fg r scale rval maxclients n).1 <> OutOfFuel.
Proof.
  assert (regular (fun _ => True) (_gemm_canonicalize fg r scale rval maxclients))
    as H by (apply regular_gemm_canonicalize; done).
  specialize (H n). by destruct (_gemm_canonicalize _ _ _ _ _ n) as [[?|?|] ?].
Qed.


End Canonicalize.



(** ** Gemm.perform: the two variants, and what a call leaves untouched *)

Section Perform_facts.
Context {ndarray : Type} `{NP : Numpy ndarray}.

(** *** Two runs side by side *)

Lemma rel_bind {A B A' B'} Pre Mid Post
    (cA : Run A) (cB : Run B) (kA : A -> Run A') (kB : B -> Run B') :
  rel_run (ndarray:=ndarray) Pre cA cB Mid ->
  (forall a b, rel_run (ndarray:=ndarray) (Mid a b) (kA a) (kB b) Post) ->
  rel_run (ndarray:=ndarray) Pre (bind cA kA) (bind cB kB) Post.
Proof.
  intros Hc Hk σA σB HP. specialize (Hc σA σB HP). unfold bind.
  destruct (cA σA) as [[a|e|] σA'], (cB σB) as [[b|e'|] σB']; try done.
  by apply Hk.
Qed.

Lemma rel_bind_same {A A' B'} RL zA zB Post
    (cA cB : Run A) (kA : A -> Run A') (kB : A -> Run B') :
  rel_run (ndarray:=ndarray) (agree RL zA zB) cA cB (same RL zA zB) ->
  (forall a, rel_run (ndarray:=ndarray) (agree RL zA zB) (kA a) (kB a) Post) ->
  rel_run (ndarray:=ndarray) (agree RL zA zB) (bind cA kA) (bind cB kB) Post.
Proof.
  intros Hc Hk. eapply rel_bind; [exact Hc|].
  intros a b σA σB [-> HP]. by apply Hk.
Qed.

Lemma rel_ret {A} RL zA zB (a : A) :
  rel_run (ndarray:=ndarray) (agree RL zA zB) (ret a) (ret a) (same RL zA zB).
Proof. by intros σA σB HP. Qed.

Lemma rel_raise {A B} Pre (e : Exn) (Post : A -> B -> list ndarray -> list ndarray -> Prop) :
  rel_run (ndarray:=ndarray) Pre (raise e) (raise e) Post.
Proof. by intros σA σB HP. Qed.

Lemma rel_lift {A} RL zA zB (r : Result A) :
  rel_run (ndarray:=ndarray) (agree RL zA zB) (lift r) (lift r) (same RL zA zB).
Proof. intros σA σB HP. unfold lift. by destruct r. Qed.

Lemma rel_load_z RL zA zB :
  rel_run (ndarray:=ndarray) (agree RL zA zB) (load zA) (load zB) (same RL zA zB).
Proof.
  intros σA σB HP. pose proof HP as ([v Hv] & Hz & _). unfold load.
  rewrite <- Hz, Hv. done.
Qed.

Lemma rel_load RL zA zB (l : loc) :
  l ∈ RL -> rel_run (ndarray:=ndarray) (agree RL zA zB) (load l) (load l) (same RL zA zB).
Proof.
  intros Hl σA σB HP. pose proof HP as (_ & _ & HRL).
  rewrite Forall_forall in HRL. destruct (HRL l Hl) as [[v Hv] Heq].
  unfold load. rewrite <- Heq, Hv. done.
Qed.

Lemma rel_write RL zA zB (v : ndarray) :
  zA ∉ RL -> zB ∉ RL ->
  rel_run (ndarray:=ndarray) (agree RL zA zB) (write zA v) (write zB v) (same RL zA zB).
Proof.
  intros HA HB σA σB ([w Hw] & Hz & HRL). unfold write. split; [done|].
  assert (zA < length σA) by (by eapply lookup_lt_Some).
  assert (zB < length σB)
    by (apply (lookup_lt_Some _ _ w); by rewrite <- Hz).
  split; [|split].
  - rewrite list_lookup_insert_eq by done. eauto.
  - by rewrite !list_lookup_insert_eq.
  - rewrite Forall_forall in *. intros l Hl. specialize (HRL l Hl).
    rewrite !list_lookup_insert_ne by (intros ->; done). done.
Qed.

(** The last write of a run: only the contents of the two arrays matter
    afterwards. *)
Lemma rel_write_last RL zA zB (v : ndarray) :
  rel_run (ndarray:=ndarray) (agree RL zA zB) (write zA v) (write zB v)
    (fun _ _ σA σB => σA !! zA = σB !! zB).
Proof.
  intros σA σB ([w Hw] & Hz & HRL). unfold write.
  assert (zA < length σA) by (by eapply lookup_lt_Some).
  assert (zB < length σB)
    by (apply (lookup_lt_Some _ _ w); by rewrite <- Hz).
  by rewrite !list_lookup_insert_eq.
Qed.

Lemma rel_alloc RL zA zB (v : ndarray) :
  rel_run (ndarray:=ndarray) (agree RL zA zB) (alloc v) (alloc v)
    (fun zA' zB' σA σB => (zA' ∉ RL) /\ (zB' ∉ RL) /\ agree RL zA' zB' σA σB).
Proof.
  intros σA σB (Hv & Hz & HRL). unfold alloc. rewrite Forall_forall in HRL.
  assert (forall l, l ∈ RL -> l < length σA /\ l < length σB) as Hlt.
  { intros l Hl. destruct (HRL l Hl) as [[w Hw] Heq].
    split; apply (lookup_lt_Some _ _ w); [done|by rewrite <- Heq]. }
  split; [intros Hl%Hlt; lia|]. split; [intros Hl%Hlt; lia|].
  split; [|split].
  - rewrite list_lookup_middle by done. eauto.
  - by rewrite !list_lookup_middle.
  - rewrite Forall_forall. intros l Hl. destruct (Hlt l Hl).
    rewrite !lookup_app_l by done. by apply HRL.
Qed.

Lemma rel_if {A B} Pre (b : bool) (c1 c2 : Run A) (d1 d2 : Run B) Post :
  rel_run (ndarray:=ndarray) Pre c1 d1 Post -> rel_run (ndarray:=ndarray) Pre c2 d2 Post ->
  rel_run (ndarray:=ndarray) Pre (if b then c1 else c2) (if b then d1 else d2) Post.
Proof. by destruct b. Qed.

Lemma rel_dot RL zA zB (x y : loc) :
  x ∈ RL -> y ∈ RL ->
  rel_run (ndarray:=ndarray) (agree RL zA zB) (dot x y) (dot x y) (same RL zA zB).
Proof.
  intros Hx Hy. unfold dot.
  apply rel_bind_same; [by apply rel_load|intros vx].
  apply rel_bind_same; [by apply rel_load|intros vy]. apply rel_lift.
Qed.

Lemma rel_equals RL zA zB (b : loc) (k : float) :
  b ∈ RL -> rel_run (ndarray:=ndarray) (agree RL zA zB) (equals b k) (equals b k) (same RL zA zB).
Proof.
  intros Hb. unfold equals.
  apply rel_bind_same; [by apply rel_load|intros vb]. apply rel_lift.
Qed.

Lemma rel_a_dot RL zA zB (a x y : loc) :
  a ∈ RL -> x ∈ RL -> y ∈ RL ->
  rel_run (ndarray:=ndarray) (agree RL zA zB) (a_dot a x y) (a_dot a x y) (same RL zA zB).
Proof.
  intros Ha Hx Hy. unfold a_dot.
  apply rel_bind_same; [by apply rel_load|intros va].
  apply rel_bind_same; [by apply rel_dot|intros d]. apply rel_lift.
Qed.

Lemma rel_inplace_op RL zA zB f (v : ndarray) :
  zA ∉ RL -> zB ∉ RL ->
  rel_run (ndarray:=ndarray) (agree RL zA zB) (inplace_op f zA v) (inplace_op f zB v)
    (same RL zA zB).
Proof.
  intros HA HB. unfold inplace_op.
  apply rel_bind_same; [apply rel_load_z|intros vz].
  apply rel_bind_same; [apply rel_lift|intros w]. by apply rel_write.
Qed.

Lemma rel_shape_at_z RL zA zB (k : nat) :
  rel_run (ndarray:=ndarray) (agree RL zA zB) (shape_at zA k) (shape_at zB k) (same RL zA zB).
Proof.
  unfold shape_at. apply rel_bind_same; [apply rel_load_z|intros v].
  destruct (np_shape v !! k); [apply rel_ret|apply rel_raise].
Qed.

Lemma rel_shape_at RL zA zB (l : loc) (k : nat) :
  l ∈ RL ->
  rel_run (ndarray:=ndarray) (agree RL zA zB) (shape_at l k) (shape_at l k) (same RL zA zB).
Proof.
  intros Hl. unfold shape_at. apply rel_bind_same; [by apply rel_load|intros v].
  destruct (np_shape v !! k); [apply rel_ret|apply rel_raise].
Qed.

(** The accumulation does the same to the two arrays. *)
Lemma rel_accumulate RL zA zB (a x y b : loc) :
  zA ∉ RL -> zB ∉ RL -> a ∈ RL -> x ∈ RL -> y ∈ RL -> b ∈ RL ->
  rel_run (ndarray:=ndarray) (agree RL zA zB) (accumulate zA a x y b) (accumulate zB a x y b)
    (same RL zA zB).
Proof.
  intros HA HB Ha Hx Hy Hb. unfold accumulate.
  repeat lazymatch goal with
    | |- rel_run _ (if ?c then _ else _) _ _ => apply rel_if
    | |- rel_run _ (bind _ _) _ _ => apply rel_bind_same; [|intros ?]
    | |- rel_run _ (equals _ _) _ _ => by apply rel_equals
    | |- rel_run _ (dot _ _) _ _ => by apply rel_dot
    | |- rel_run _ (a_dot _ _ _) _ _ => by apply rel_a_dot
    | |- rel_run _ (load _) _ _ => by apply rel_load
    | |- rel_run _ (inplace_op _ _ _) _ _ => by apply rel_inplace_op
    | |- rel_run _ (lift _) _ _ => apply rel_lift
    end.
Qed.

(** The broadcast, when needed, allocates in both runs. *)
Lemma rel_broadcast_z RL zA zB (x y : loc) :
  zA ∉ RL -> zB ∉ RL -> x ∈ RL -> y ∈ RL ->
  rel_run (ndarray:=ndarray) (agree RL zA zB) (broadcast_z zA x y) (broadcast_z zB x y)
    (fun zA' zB' σA σB => (zA' ∉ RL) /\ (zB' ∉ RL) /\ agree RL zA' zB' σA σB).
Proof.
  intros HA HB Hx Hy. unfold broadcast_z.
  apply rel_bind_same; [by apply rel_shape_at|intros x0].
  apply rel_bind_same; [apply rel_shape_at_z|intros z0].
  apply rel_bind_same.
  { apply rel_if; [apply rel_ret|].
    apply rel_bind_same; [by apply rel_shape_at|intros y1].
    apply rel_bind_same; [apply rel_shape_at_z|intros z1]. apply rel_ret. }
  intros needed. destruct needed; [|by intros σA σB HP].
  apply rel_bind_same; [apply rel_load_z|intros vz].
  apply rel_bind_same; [by apply rel_shape_at|intros x0'].
  apply rel_bind_same; [apply rel_shape_at_z|intros z0'].
  apply rel_bind_same; [by apply rel_shape_at|intros y1].
  apply rel_bind_same; [apply rel_shape_at_z|intros z1].
  apply rel_bind_same; [apply rel_lift|intros v]. apply rel_alloc.
Qed.

Lemma rel_output Pre (cA cB : Run loc) (σA σB : list ndarray) :
  rel_run (ndarray:=ndarray) Pre cA cB same_output -> Pre σA σB ->
  output_value (cA σA) = output_value (cB σB).
Proof.
  intros Hrel HP. specialize (Hrel σA σB HP). unfold output_value.
  destruct (cA σA) as [[lA|e|] σA'], (cB σB) as [[lB|e'|] σB']; cbn; try done.
  - unfold same_output in Hrel. by rewrite Hrel.
  - by rewrite Hrel.
Qed.

Lemma output_bind_same {A} (c : Run A) (kA kB : A -> Run loc) (σ : list ndarray) :
  (forall a σ', c σ = (Ok a, σ') ->
                output_value (kA a σ') = output_value (kB a σ')) ->
  output_value (bind c kA σ) = output_value (bind c kB σ).
Proof. unfold bind. destruct (c σ) as [[a|e|] σ']; auto. Qed.

Lemma bind_Raise_eq {S A B} (c : ST S A) (k : A -> ST S B) (s s' : S) (e : Exn) :
  c s = (Raise e, s') -> bind c k s = (Raise e, s').
Proof. unfold bind. by intros ->. Qed.

Lemma load_Ok (l : loc) (σ σ' : list ndarray) (v : ndarray) :
  load l σ = (Ok v, σ') -> σ' = σ /\ σ !! l = Some v.
Proof. unfold load. destruct (σ !! l); intros; by simplify_eq. Qed.

Lemma assert_Ok {S} (b : bool) (s s' : S) (u : unit) :
  assert_ b s = (Ok u, s') -> b = true /\ s' = s.
Proof. destruct b; cbn; unfold ret, raise; intros; by simplify_eq. Qed.

(** The rank-0 branch of [perform]. *)
Lemma rel_perform_scalar RL zA zB (vz : ndarray) (a x y b : loc) :
  a ∈ RL -> x ∈ RL -> y ∈ RL -> b ∈ RL ->
  rel_run (ndarray:=ndarray) (agree RL zA zB)
    (let* va := load a in
     let* za := lift (np_multiply vz va) in
     let* vb := load b in
     let* d := dot x y in
     let* bd := lift (np_multiply vb d) in
     let* v := lift (np_add za bd) in
     let* _ := inplace_op np_itemset zA v in
     ret zA)
    (let* va := load a in
     let* za := lift (np_multiply vz va) in
     let* vb := load b in
     let* d := dot x y in
     let* bd := lift (np_multiply vb d) in
     let* v := lift (np_add za bd) in
     let* _ := inplace_op np_itemset zB v in
     ret zB)
    same_output.
Proof.
  intros Ha Hx Hy Hb.
  apply rel_bind_same; [by apply rel_load|intros va].
  apply rel_bind_same; [apply rel_lift|intros za].
  apply rel_bind_same; [by apply rel_load|intros vb].
  apply rel_bind_same; [by apply rel_dot|intros d].
  apply rel_bind_same; [apply rel_lift|intros bd].
  apply rel_bind_same; [apply rel_lift|intros v].
  eapply rel_bind with (Mid := fun _ _ σA σB => σA !! zA = σB !! zB).
  - unfold inplace_op.
    apply rel_bind_same; [apply rel_load_z|intros w].
    apply rel_bind_same; [apply rel_lift|intros w']. apply rel_write_last.
  - by intros [] [] σA σB H.
Qed.

(** The other branch of [perform]. *)
Lemma rel_perform_matrix RL zA zB (a x y b : loc) :
  zA ∉ RL -> zB ∉ RL -> a ∈ RL -> x ∈ RL -> y ∈ RL -> b ∈ RL ->
  rel_run (ndarray:=ndarray) (agree RL zA zB)
    (let* z := broadcast_z zA x y in
     let* _ := accumulate z a x y b in
     ret z)
    (let* z := broadcast_z zB x y in
     let* _ := accumulate z a x y b in
     ret z)
    same_output.
Proof.
  intros HA HB Ha Hx Hy Hb.
  eapply rel_bind; [by apply rel_broadcast_z|].
  intros zA' zB' σA σB (HA' & HB' & Hagree). revert σA σB Hagree.
  change (rel_run (ndarray:=ndarray) (agree RL zA' zB')
            (let* _ := accumulate zA' a x y b in ret zA')
            (let* _ := accumulate zB' a x y b in ret zB') same_output).
  eapply rel_bind; [by apply rel_accumulate|].
  intros [] [] σA σB [_ (_ & Hz & _)]. exact Hz.
Qed.

(** The destructive and the non-destructive [perform] leave the same
    value in the output storage, or raise the same exception, when the
    array [z] is neither the array [x] nor the array [y] and these two are
    in the store. *)
Lemma perform_inplace_agrees (σ : list ndarray) (z a x y b : loc) :
  z <> x -> z <> y -> x < length σ -> y < length σ ->
  output_value (perform true [z; a; x; y; b] σ)
  = output_value (perform false [z; a; x; y; b] σ).
Proof.
  intros Hzx Hzy Hx Hy. unfold perform. cbn [unpack5 negb]. rewrite !bind_ret_l.
  apply output_bind_same. intros va σ1 [-> Ea]%load_Ok.
  apply output_bind_same. intros [] σ1 [Sa%bool_decide_eq_true ->]%assert_Ok.
  apply output_bind_same. intros vb σ1 [-> Eb]%load_Ok.
  apply output_bind_same. intros [] σ1 [Sb%bool_decide_eq_true ->]%assert_Ok.
  rewrite bind_ret_l. unfold copy. rewrite bind_assoc.
  destruct (σ !! z) as [vz|] eqn:Ez; cycle 1.
  { assert (load z σ = (Raise KeyError, σ)) as Hload
      by (unfold load; by rewrite Ez).
    unfold perform_on.
    by rewrite !(bind_Raise_eq (load z) _ σ σ KeyError Hload). }
  assert (load z σ = (Ok vz, σ)) as Hload by (unfold load; by rewrite Ez).
  assert (load (length σ) (σ ++ [vz]) = (Ok vz, σ ++ [vz])) as Hload'
    by (unfold load; by rewrite list_lookup_middle).
  rewrite (bind_Ok_eq (load z) _ σ σ vz Hload).
  rewrite (bind_Ok_eq (alloc vz) _ σ (σ ++ [vz]) (length σ) eq_refl).
  unfold perform_on.
  rewrite (bind_Ok_eq (load z) _ σ σ vz Hload).
  rewrite (bind_Ok_eq (load (length σ)) _ _ _ vz Hload').
  assert (Hagree : agree [a; x; y; b] z (length σ) σ (σ ++ [vz])).
  { split; [eauto|]. split; [by rewrite list_lookup_middle|].
    assert (a < length σ) by (by eapply lookup_lt_Some).
    assert (b < length σ) by (by eapply lookup_lt_Some).
    repeat constructor; try (by rewrite lookup_app_l);
      by apply lookup_lt_is_Some. }
  assert (HRL : a ∈ [a; x; y; b] /\ x ∈ [a; x; y; b]
                /\ y ∈ [a; x; y; b] /\ b ∈ [a; x; y; b]).
  { repeat split; set_solver. }
  destruct HRL as (Ha' & Hx' & Hy' & Hb').
  destruct (bool_decide_reflect (np_shape vz = [])) as [Sz|Sz].
  - by apply (rel_output _ _ _ _ _
                (rel_perform_scalar [a; x; y; b] z (length σ) vz a x y b
                   Ha' Hx' Hy' Hb') Hagree).
  - assert (z ∉ [a; x; y; b]) as HzRL.
    { intros Hin. repeat (apply elem_of_cons in Hin as [->|Hin]);
        try congruence; try (by apply elem_of_nil in Hin). }
    assert (length σ ∉ [a; x; y; b]) as HnRL.
    { assert (a < length σ) by (by eapply lookup_lt_Some).
      assert (b < length σ) by (by eapply lookup_lt_Some).
      intros Hin. repeat (apply elem_of_cons in Hin as [Hin|Hin]); try lia.
      by apply elem_of_nil in Hin. }
    by apply (rel_output _ _ _ _ _
                (rel_perform_matrix [a; x; y; b] z (length σ) a x y b
                   HzRL HnRL Ha' Hx' Hy' Hb') Hagree).
Qed.

(** *** What the non-destructive variant leaves untouched *)

Lemma untouched_refl (n0 : nat) (σ : list ndarray) :
  n0 <= length σ -> untouched n0 σ σ.
Proof. by split. Qed.

Lemma untouched_trans (n0 : nat) (σ1 σ2 σ3 : list ndarray) :
  untouched n0 σ1 σ2 -> untouched n0 σ2 σ3 -> untouched n0 σ1 σ3.
Proof.
  intros [H1 H1'] [H2 H2']. split; [done|].
  intros l Hl. by rewrite H2', H1'.
Qed.

Lemma frame_bind {A B} n0 (Q : A -> Prop) (Q' : B -> Prop)
    (c : Run (ndarray:=ndarray) A) (k : A -> Run (ndarray:=ndarray) B) :
  frame (ndarray:=ndarray) n0 Q c ->
  (forall a, Q a -> frame (ndarray:=ndarray) n0 Q' (k a)) ->
  frame (ndarray:=ndarray) n0 Q' (bind c k).
Proof.
  intros Hc Hk σ Hσ. specialize (Hc σ Hσ). unfold bind.
  destruct (c σ) as [[a|e|] σ1]; [|done|done].
  destruct Hc as [Hu HQ]. specialize (Hk a HQ σ1 (proj1 Hu)).
  destruct (k a σ1) as [r σ2]. destruct Hk as [Hu2 HQ2].
  split; [by eapply untouched_trans|done].
Qed.

Lemma frame_weaken {A} n0 (Q Q' : A -> Prop) (c : Run (ndarray:=ndarray) A) :
  frame (ndarray:=ndarray) n0 Q c -> (forall a, Q a -> Q' a) ->
  frame (ndarray:=ndarray) n0 Q' c.
Proof.
  intros Hc HQ σ Hσ. specialize (Hc σ Hσ).
  destruct (c σ) as [[a|e|] σ1]; destruct Hc as [Hu Ha]; (split; [done|]);
    cbn in *; auto.
Qed.

Lemma frame_ret {A} n0 (Q : A -> Prop) (a : A) :
  Q a -> frame (ndarray:=ndarray) n0 Q (ret a).
Proof. intros HQ σ Hσ. split; [by apply untouched_refl|done]. Qed.

Lemma frame_raise {A} n0 (Q : A -> Prop) (e : Exn) :
  frame (ndarray:=ndarray) n0 Q (raise e).
Proof. intros σ Hσ. split; [by apply untouched_refl|done]. Qed.

Lemma frame_lift {A} n0 (r : Result A) :
  frame (ndarray:=ndarray) n0 (fun _ => True) (lift r).
Proof. intros σ Hσ. split; [by apply untouched_refl|by destruct r]. Qed.

Lemma frame_load n0 (l : loc) : frame (ndarray:=ndarray) n0 (fun _ => True) (load l).
Proof.
  intros σ Hσ. unfold load.
  destruct (σ !! l); (split; [by apply untouched_refl|done]).
Qed.

Lemma frame_write n0 (z : loc) (v : ndarray) :
  n0 <= z -> frame (ndarray:=ndarray) n0 (fun _ => True) (write z v).
Proof.
  intros Hz σ Hσ. unfold write. cbn. split; [|done]. split.
  - by rewrite length_insert.
  - intros l Hl. apply list_lookup_insert_ne. lia.
Qed.

Lemma frame_alloc n0 (v : ndarray) : frame (ndarray:=ndarray) n0 (fun z => n0 <= z) (alloc v).
Proof.
  intros σ Hσ. unfold alloc. cbn. split; [|done]. split.
  - rewrite length_app. lia.
  - intros l Hl. apply lookup_app_l. lia.
Qed.

Ltac frame_any :=
  repeat lazymatch goal with
    | |- frame _ _ (if ?c then _ else _) => destruct c
    | |- frame _ _ (match ?c with _ => _ end) => destruct c
    | |- frame _ _ (bind _ _) =>
        eapply frame_bind with (Q := fun _ => True); [|intros ? _]
    | |- frame _ _ (ret _) => by apply frame_ret
    | |- frame _ _ (raise _) => apply frame_raise
    | |- frame _ _ (lift _) => apply frame_lift
    | |- frame _ _ (load _) => apply frame_load
    | |- frame _ _ (write _ _) => by apply frame_write
    | |- frame _ _ (dot _ _) => unfold dot
    | |- frame _ _ (equals _ _) => unfold equals
    | |- frame _ _ (a_dot _ _ _) => unfold a_dot
    | |- frame _ _ (shape_at _ _) => unfold shape_at
    | |- frame _ _ (inplace_op _ _ _) => unfold inplace_op
    end.

Lemma frame_accumulate n0 (z a x y b : loc) :
  n0 <= z -> frame (ndarray:=ndarray) n0 (fun _ => True) (accumulate z a x y b).
Proof. intros Hz. unfold accumulate. frame_any. Qed.

Lemma frame_broadcast_z n0 (z x y : loc) :
  n0 <= z -> frame (ndarray:=ndarray) n0 (fun z' => n0 <= z') (broadcast_z z x y).
Proof.
  intros Hz. unfold broadcast_z.
  eapply frame_bind with (Q := fun _ => True); [frame_any|intros x0 _].
  eapply frame_bind with (Q := fun _ => True); [frame_any|intros z0 _].
  eapply frame_bind with (Q := fun _ => True); [frame_any|intros needed _].
  destruct needed; [|by apply frame_ret].
  eapply frame_bind with (Q := fun _ => True); [frame_any|intros vz _].
  eapply frame_bind with (Q := fun _ => True); [frame_any|intros ? _].
  eapply frame_bind with (Q := fun _ => True); [frame_any|intros ? _].
  eapply frame_bind with (Q := fun _ => True); [frame_any|intros ? _].
  eapply frame_bind with (Q := fun _ => True); [frame_any|intros ? _].
  eapply frame_bind with (Q := fun _ => True); [frame_any|intros ? _].
  apply frame_alloc.
Qed.

Lemma frame_perform_on n0 (z a x y b : loc) :
  n0 <= z -> frame (ndarray:=ndarray) n0 (fun z' => n0 <= z') (perform_on z a x y b).
Proof.
  intros Hz. unfold perform_on.
  eapply frame_bind with (Q := fun _ => True); [frame_any|intros vz _].
  destruct (bool_decide (np_shape vz = [])).
  - eapply frame_weaken with (Q := fun z' => z' = z); [|by intros ? ->].
    repeat (eapply frame_bind with (Q := fun _ => True); [frame_any|intros ? _]).
    by apply frame_ret.
  - eapply frame_bind; [by apply frame_broadcast_z|intros z' Hz'].
    eapply frame_bind with (Q := fun _ => True);
      [by apply frame_accumulate|intros ? _].
    by apply frame_ret.
Qed.

(** C10. A call of the non-destructive variant changes no array that
    existed before the call, so none of its inputs: whatever the call
    returns or raises, every array of the given store has its contents
    afterwards, and the array handed to the output storage is a new
    one. *)
Theorem perform_no_inplace_frame (σ : list ndarray) (inp : list loc) :
  (forall l, l < length σ -> (perform false inp σ).2 !! l = σ !! l)
  /\ length σ <= length (perform false inp σ).2
  /\ match (perform false inp σ).1 with
     | Ok zout => length σ <= zout
     | _ => True
     end.
Proof.
  assert (frame (ndarray:=ndarray) (length σ) (fun z' => length σ <= z') (perform false inp)) as H.
  { unfold perform.
    eapply frame_bind with (Q := fun _ => True);
      [unfold unpack5; frame_any|intros [[[[z a] x] y] b] _].
    do 4 (eapply frame_bind with (Q := fun _ => True);
          [unfold assert_; frame_any|intros ? _]).
    eapply frame_bind; [|intros z' Hz'; by apply frame_perform_on].
    cbn [negb]. unfold copy.
    eapply frame_bind with (Q := fun _ => True); [frame_any|intros ? _].
    apply frame_alloc. }
  specialize (H σ (le_n _)). destruct (perform false inp σ) as [r σ'].
  destruct H as [[Hlen Hsame] HQ]. cbn. split; [done|]. split; [done|].
  by destruct r.
Qed.

End Perform_facts.

(** *** The inplace specialisation *)

Section Inplace_rewrite.
Context `{Ext : Externals}.

Lemma mapM_as_tensor_variable_Sym (l l' : list Var) (n n' : ident) :
  mapM as_tensor_variable (map Sym l) n = (Ok l', n') -> l' = l /\ n' = n.
Proof.
  revert l'. induction l as [|v l IH]; intros l'; cbn [map mapM].
  - by intros [<- <-]%ret_Ok_inv.
  - intros (v' & n1 & Hv & H)%bind_Ok_inv.
    apply bind_Ok_inv in H as (vs & n2 & Hvs & [<- <-]%ret_Ok_inv).
    cbn in Hv. destruct (isinstance_TensorType (vtype v)); [|done].
    apply ret_Ok_inv in Hv as [<- <-]. by apply IH in Hvs as [-> ->].
Qed.

Lemma Gemm_make_node_Ok (inplace : bool) (l : list Var) (n n' : ident) (a : Apply) :
  Gemm_make_node inplace (map Sym l) n = (Ok a, n') ->
  op a = Gemm inplace /\ inputs a = l.
Proof.
  unfold Gemm_make_node.
  intros (l' & n1 & [-> ->]%mapM_as_tensor_variable_Sym & H)%bind_Ok_inv.
  unfold raise, mk_Apply in H.
  repeat (case_match; try discriminate). by simplify_eq.
Qed.

End Inplace_rewrite.

(** C9. [local_inplace_gemm] answers a [gemm_no_inplace] node with the
    output of [gemm_inplace] called on the inputs of the node, and a node
    it builds has these very inputs. The two variants compute the same:
    on arrays (z, a, x, y, b) of the store such that z is neither x nor
    y, [perform] of the destructive variant and [perform] of the other
    leave the same value in the output storage, or raise the same
    exception. *)
Theorem inplace_gemm_same_semantics `{Ext : Externals} {ndarray : Type}
    `{NP : Numpy ndarray} (fg : FunctionGraph) (node : Apply) (n : ident)
    (σ : list ndarray) (z a x y b : loc) :
  op node = gemm_no_inplace ->
  z <> x -> z <> y -> x < length σ -> y < length σ ->
  local_inplace_gemm fg node n
  = bind (call_Gemm true (map Sym (inputs node))) (fun g => ret (Some [g])) n
  /\ (forall res n', local_inplace_gemm fg node n = (Ok res, n') ->
       exists g, res = Some [g]
                 /\ option_map op (owner g) = Some gemm_inplace
                 /\ option_map inputs (owner g) = Some (inputs node))
  /\ output_value (perform true [z; a; x; y; b] σ)
     = output_value (perform false [z; a; x; y; b] σ).
Proof.
  intros Hop Hzx Hzy Hx Hy.
  assert (Heq : local_inplace_gemm fg node n
                = bind (call_Gemm true (map Sym (inputs node)))
                    (fun g => ret (Some [g])) n).
  { unfold local_inplace_gemm. by rewrite bool_decide_eq_true_2. }
  split; [exact Heq|]. split; [|by apply perform_inplace_agrees].
  intros res n'. rewrite Heq. unfold call_Gemm.
  intros (g & n1 & Hg & [<- _]%ret_Ok_inv)%bind_Ok_inv.
  apply bind_Ok_inv in Hg as (a' & n2 & [Ha1 Ha2]%Gemm_make_node_Ok
                               & [<- _]%ret_Ok_inv).
  exists (default_output a'). split; [done|]. cbn. by rewrite Ha1, Ha2.
Qed.

Lemma inplace_gemm_same_semantics_witness :
  op Example.fused_node = gemm_no_inplace
  /\ 0 <> 2 /\ 0 <> 3 /\ 2 < length Example.arrays /\ 3 < length Example.arrays
  /\ local_inplace_gemm (Example.fgraph_of Example.fused) Example.fused_node 19
     = bind (call_Gemm true (map Sym (inputs Example.fused_node)))
         (fun g => ret (Some [g])) 19
  /\ (forall res n',
        local_inplace_gemm (Example.fgraph_of Example.fused) Example.fused_node 19
        = (Ok res, n') ->
        exists g, res = Some [g]
                  /\ option_map op (owner g) = Some gemm_inplace
                  /\ option_map inputs (owner g) = Some (inputs Example.fused_node))
  /\ output_value (perform true [0; 1; 2; 3; 4] Example.arrays)
     = output_value (perform false [0; 1; 2; 3; 4] Example.arrays).
Proof.
  assert (H1 : op Example.fused_node = gemm_no_inplace) by reflexivity.
  assert (H2 : 0 <> 2) by lia.
  assert (H3 : 0 <> 3) by lia.
  assert (H4 : 2 < length Example.arrays) by (simpl; lia).
  assert (H5 : 3 < length Example.arrays) by (simpl; lia).
  repeat (split; [assumption|]).
  exact (inplace_gemm_same_semantics (Example.fgraph_of Example.fused)
           Example.fused_node 19 Example.arrays 0 1 2 3 4 H1 H2 H3 H4 H5).
Defined.

(** Without the condition on z the two variants differ: with z also
    given as x and b = 2, the destructive variant scales x before the
    product is taken. *)
Lemma perform_aliased_differs :
  output_value (perform true [2; 1; 2; 3; 1] Example.arrays)
  = Ok (Some (Float_arrays.matrix22 22 24 28 34))
  /\ output_value (perform false [2; 1; 2; 3; 1] Example.arrays)
     = Ok (Some (Float_arrays.matrix22 12 12 14 18)).
Proof. split; vm_compute; reflexivity. Qed.

(** C10 at the arrays of the worked example. *)
Lemma perform_no_inplace_frame_witness :
  (perform false [0; 1; 2; 3; 4] Example.arrays).2 !! 0
  = Some (Float_arrays.matrix22 1 2 3 4).
Proof.
  rewrite (proj1 (perform_no_inplace_frame Example.arrays [0; 1; 2; 3; 4]) 0);
    [reflexivity|simpl; lia].
Defined.

(** ** GemmOptimizer.apply *)

Section Optimizer_facts.
Context `{Ext : Externals}.
Variable io_toposort : list Var -> list Var -> list Apply.
Variable replace_all_validate_remove :
  FunctionGraph -> list (Var * Var) -> list Var ->
  Result unit * FunctionGraph * list Apply.

#[local] Abbreviation pass_ := (pass replace_all_validate_remove).
#[local] Abbreviation while_ :=
  (while_did_something io_toposort replace_all_validate_remove).
#[local] Abbreviation visits_ := (visits replace_all_validate_remove).
#[local] Abbreviation passes_ := (passes io_toposort replace_all_validate_remove).

(** *** The two errors do not leave the loop *)

Lemma pass_raises (fuel : nat) (nodelist : list Apply) (st : OptState)
    (did : bool) (e : Exn) :
  (forall o ds, scalar_output_dtype o ds <> inl ReplacementDidNotRemoveError) ->
  pass_ fuel nodelist st did = Raise e ->
  e <> InconsistencyError /\ e <> ReplacementDidNotRemoveError.
Proof.
  intros Hscalar. revert nodelist st did.
  induction fuel as [|fuel IH]; intros nodelist st did; [done|].
  cbn [pass]. destruct nodelist as [|node nodelist]; [done|].
  destruct (negb (is_candidate node)); [apply IH|].
  destruct (negb (bool_decide _)); [apply IH|].
  assert (regular (fun e => e <> ReplacementDidNotRemoveError)
            (_gemm_from_node2 (st_fgraph st) node)) as Hreg.
  { apply regular_gemm_from_node2; try done.
    intros o ds e' He' ->. by eapply Hscalar. }
  specialize (Hreg (st_next st)).
  destruct (_gemm_from_node2 (st_fgraph st) node (st_next st))
    as [[[[new old]|]|e'|] n']; cbn in Hreg; [| |..].
  - destruct (negb (length new =? length (outputs node))); [by intros [= <-]|].
    destruct (replace_all_validate_remove _ _ _) as [[[[]|e''|] fg'] imported];
      [apply IH| |done].
    destruct e''; try (by intros [= <-]); apply IH.
  - apply IH.
  - destruct e'; try (by intros [= <-]); apply IH.
  - done.
Qed.

Lemma while_raises (fuel : nat) (st : OptState) (e : Exn) :
  (forall o ds, scalar_output_dtype o ds <> inl ReplacementDidNotRemoveError) ->
  while_ fuel st = Raise e ->
  e <> InconsistencyError /\ e <> ReplacementDidNotRemoveError.
Proof.
  intros Hscalar. revert st. induction fuel as [|fuel IH]; intros st; [done|].
  cbn [while_did_something].
  destruct (pass_ fuel _ _ false) as [[st' [|]]|e'|] eqn:Hp; [apply IH|done| |done].
  intros [= <-]. by eapply pass_raises.
Qed.

(** *** The loop and its trace *)

(** The list the loop goes on with after a commit: the callback has
    appended the imported nodes other than the node being visited. *)
Lemma on_import_appends (node : Apply) (nodelist imported : list Apply) :
  on_import node nodelist imported
  = nodelist ++ filter (fun new_node => node_id new_node <> node_id node) imported.
Proof.
  unfold on_import. f_equal. apply list_filter_iff. intros a.
  unfold node_is. by rewrite bool_decide_eq_false.
Qed.

Lemma replaced_later (node : Apply) (k : Outcome) (trace : list (Apply * Outcome)) :
  k <> Replaced ->
  (exists nd, (nd, Replaced) ∈ (node, k) :: trace)
  <-> exists nd, (nd, Replaced) ∈ trace.
Proof.
  intros Hk. split; intros [nd H]; exists nd.
  - apply elem_of_cons in H as [[= _ <-]|H]; done.
  - by apply elem_of_cons; right.
Qed.

Lemma occurrences_cons (k k' : Outcome) (node : Apply)
    (trace : list (Apply * Outcome)) :
  occurrences k ((node, k') :: trace)
  = (if decide (k' = k) then 1 else 0) + occurrences k trace.
Proof.
  unfold occurrences. rewrite filter_cons. cbn [snd].
  by destruct (decide (k' = k)).
Qed.

(** When the loop returns, it has visited the nodes of a trace, and
    [did_something] is set exactly if it was set before or a replacement
    was committed. *)
Lemma pass_visits (fuel : nat) (nodelist : list Apply) (st st' : OptState)
    (did did' : bool) :
  pass_ fuel nodelist st did = Ok (st', did') ->
  exists trace,
    visits_ nodelist st trace st'
    /\ (did' = true <-> did = true \/ exists node, (node, Replaced) ∈ trace).
Proof.
  revert nodelist st did. induction fuel as [|fuel IH];
    intros nodelist st did; [done|].
  cbn [pass]. destruct nodelist as [|node nodelist].
  { intros [= <- <-]. exists []. split; [constructor|].
    split; [auto|]. intros [?|[nd H]]; [done|]. by apply elem_of_nil in H. }
  destruct (is_candidate node) eqn:Hc; cbn [negb].
  2:{ intros (trace & Hv & Hd)%IH. exists ((node, Left_alone) :: trace).
      split; [apply visits_left_alone; [by left|done]|].
      by rewrite replaced_later. }
  destruct (bool_decide_reflect (node_id node ∈ apply_nodes (st_fgraph st)))
    as [Hin|Hin]; cbn [negb].
  2:{ intros (trace & Hv & Hd)%IH. exists ((node, Left_alone) :: trace).
      split; [apply visits_left_alone; [by right|done]|].
      by rewrite replaced_later. }
  destruct st as [fg n0 [it rp dr im ir] w].
  cbn [st_fgraph st_next st_counters st_warned] in *.
  destruct (_gemm_from_node2 fg node n0) as [[[[new old]|]|e'|] n] eqn:Hg;
    [| |..].
  - destruct (length new =? length (outputs node)) eqn:Hlen; cbn [negb]; [|done].
    apply Nat.eqb_eq in Hlen.
    destruct (replace_all_validate_remove _ _ _)
      as [[[[]|e''|] fg'] imported] eqn:Hr; [| |done];
      rewrite ?on_import_appends.
    + intros (trace & Hv & Hd)%IH. exists ((node, Replaced) :: trace).
      split; [by eapply visits_replaced|].
      rewrite Hd. split; intros _; [right; exists node; apply elem_of_cons; by left
                                   |by left].
    + destruct e''; try done.
      * intros (trace & Hv & Hd)%IH. exists ((node, Replace_inconsistent) :: trace).
        split; [by eapply visits_replace_inconsistent|].
        by rewrite replaced_later.
      * intros (trace & Hv & Hd)%IH. exists ((node, Did_not_remove) :: trace).
        split; [by eapply visits_did_not_remove|].
        by rewrite replaced_later.
  - intros (trace & Hv & Hd)%IH. exists ((node, No_candidate) :: trace).
    split; [by eapply visits_no_candidate|]. by rewrite replaced_later.
  - destruct e'; try done.
    intros (trace & Hv & Hd)%IH. exists ((node, Make_inconsistent) :: trace).
    split; [by eapply visits_make_inconsistent|]. by rewrite replaced_later.
  - done.
Qed.

(** The loop returns on every list that has a trace. *)
Lemma visits_pass (nodelist : list Apply) (st st' : OptState)
    (trace : list (Apply * Outcome)) :
  visits_ nodelist st trace st' ->
  exists fuel did',
    (did' = true <-> exists node, (node, Replaced) ∈ trace)
    /\ forall did, pass_ fuel nodelist st did = Ok (st', did || did').
Proof.
  induction 1 as
    [st
    |node nodelist st trace st' Hskip _ (fuel & d & Hd & IH)
    |node nodelist fg n0 c w n trace st' Hc Hin Hg _ (fuel & d & Hd & IH)
    |node nodelist fg n0 it rp dr im ir w n trace st' Hc Hin Hg _
       (fuel & d & Hd & IH)
    |node nodelist fg n0 it rp dr im ir w new old n fg' imported trace st'
       Hc Hin Hg Hlen Hr _ (fuel & d & Hd & IH)
    |node nodelist fg n0 it rp dr im ir w new old n fg' imported trace st'
       Hc Hin Hg Hlen Hr _ (fuel & d & Hd & IH)
    |node nodelist fg n0 it rp dr im ir w new old n fg' imported trace st'
       Hc Hin Hg Hlen Hr _ (fuel & d & Hd & IH)].
  - exists 1, false. split.
    + split; [done|]. intros [nd H]. by apply elem_of_nil in H.
    + intros did. cbn. by rewrite orb_false_r.
  - exists (S fuel), d. split; [by rewrite replaced_later|].
    intros did. cbn [pass]. destruct Hskip as [Hc|Hin].
    + rewrite Hc. cbn [negb]. apply IH.
    + destruct (negb (is_candidate node)); [apply IH|].
      rewrite bool_decide_eq_false_2 by done. cbn [negb]. apply IH.
  - exists (S fuel), d. split; [by rewrite replaced_later|].
    intros did. cbn [pass st_fgraph st_next st_counters st_warned].
    rewrite Hc, bool_decide_eq_true_2 by done. cbn [negb]. rewrite Hg. apply IH.
  - exists (S fuel), d. split; [by rewrite replaced_later|].
    intros did. cbn [pass st_fgraph st_next st_counters st_warned].
    rewrite Hc, bool_decide_eq_true_2 by done. cbn [negb]. rewrite Hg. apply IH.
  - exists (S fuel), true. split.
    + split; [|done]. intros _. exists node. apply elem_of_cons. by left.
    + intros did. cbn [pass st_fgraph st_next st_counters st_warned].
      rewrite Hc, bool_decide_eq_true_2 by done. cbn [negb]. rewrite Hg.
      rewrite Hlen, Nat.eqb_refl. cbn [negb]. rewrite Hr, on_import_appends.
      rewrite orb_true_r. specialize (IH true). by rewrite orb_true_l in IH.
  - exists (S fuel), d. split; [by rewrite replaced_later|].
    intros did. cbn [pass st_fgraph st_next st_counters st_warned].
    rewrite Hc, bool_decide_eq_true_2 by done. cbn [negb]. rewrite Hg.
    rewrite Hlen, Nat.eqb_refl. cbn [negb]. rewrite Hr, on_import_appends.
    apply IH.
  - exists (S fuel), d. split; [by rewrite replaced_later|].
    intros did. cbn [pass st_fgraph st_next st_counters st_warned].
    rewrite Hc, bool_decide_eq_true_2 by done. cbn [negb]. rewrite Hg.
    rewrite Hlen, Nat.eqb_refl. cbn [negb]. rewrite Hr, on_import_appends.
    apply IH.
Qed.

(** A trace begins with the nodes of the list, in their order: the loop
    leaves out no node, whatever happened at the nodes before it. *)
Lemma visits_whole_list (nodelist : list Apply) (st st' : OptState)
    (trace : list (Apply * Outcome)) :
  visits_ nodelist st trace st' ->
  exists more, map fst trace = nodelist ++ more.
Proof.
  induction 1 as
    [st
    |node nodelist st trace st' _ _ [more IH]
    |node nodelist fg n0 c w n trace st' _ _ _ _ [more IH]
    |node nodelist fg n0 it rp dr im ir w n trace st' _ _ _ _ [more IH]
    |node nodelist fg n0 it rp dr im ir w new old n fg' imported trace st'
       _ _ _ _ _ _ [more IH]
    |node nodelist fg n0 it rp dr im ir w new old n fg' imported trace st'
       _ _ _ _ _ _ [more IH]
    |node nodelist fg n0 it rp dr im ir w new old n fg' imported trace st'
       _ _ _ _ _ _ [more IH]];
    cbn [map fst]; rewrite ?IH, <- ?app_assoc; by eexists.
Qed.

(** Only add, sub, neg and mul [Elemwise] nodes are more than looked at. *)
Lemma visits_candidates (nodelist : list Apply) (st st' : OptState)
    (trace : list (Apply * Outcome)) :
  visits_ nodelist st trace st' ->
  forall node k, (node, k) ∈ trace -> k <> Left_alone -> is_candidate node = true.
Proof.
  induction 1; intros nd k Hin Hk;
    try (by apply elem_of_nil in Hin);
    apply elem_of_cons in Hin as [[= -> ->]|Hin]; by eauto.
Qed.

(** The counters and [warned] after the loop, from the trace. *)
Lemma visits_counts (nodelist : list Apply) (st st' : OptState)
    (trace : list (Apply * Outcome)) :
  visits_ nodelist st trace st' ->
  nb_iter (st_counters st') = nb_iter (st_counters st)
  /\ nb_replacement (st_counters st')
     = nb_replacement (st_counters st) + occurrences Replaced trace
  /\ nb_replacement_didn_t_remove (st_counters st')
     = nb_replacement_didn_t_remove (st_counters st)
       + occurrences Did_not_remove trace
  /\ nb_inconsistency_make (st_counters st')
     = nb_inconsistency_make (st_counters st)
       + occurrences Make_inconsistent trace
  /\ nb_inconsistency_replace (st_counters st')
     = nb_inconsistency_replace (st_counters st)
       + occurrences Replace_inconsistent trace
  /\ (st_warned st' = true
      <-> st_warned st = true \/ 0 < occurrences Did_not_remove trace).
Proof.
  induction 1 as
    [st
    |node nodelist st trace st' _ _ IH
    |node nodelist fg n0 c w n trace st' _ _ _ _ IH
    |node nodelist fg n0 it rp dr im ir w n trace st' _ _ _ _ IH
    |node nodelist fg n0 it rp dr im ir w new old n fg' imported trace st'
       _ _ _ _ _ _ IH
    |node nodelist fg n0 it rp dr im ir w new old n fg' imported trace st'
       _ _ _ _ _ _ IH
    |node nodelist fg n0 it rp dr im ir w new old n fg' imported trace st'
       _ _ _ _ _ _ IH];
    rewrite ?occurrences_cons; repeat case_decide; try congruence;
    cbn [st_counters st_warned nb_iter nb_replacement
         nb_replacement_didn_t_remove nb_inconsistency_make
         nb_inconsistency_replace] in *.
  - unfold occurrences. cbn. repeat split; try lia; [auto|].
    intros [?|?]; [done|lia].
  - destruct IH as (E1 & E2 & E3 & E4 & E5 & Hw).
    rewrite E1, E2, E3, E4, E5, Hw. repeat split; lia || tauto.
  - destruct IH as (E1 & E2 & E3 & E4 & E5 & Hw).
    rewrite E1, E2, E3, E4, E5, Hw. repeat split; lia || tauto.
  - destruct IH as (E1 & E2 & E3 & E4 & E5 & Hw).
    rewrite E1, E2, E3, E4, E5, Hw. repeat split; lia || tauto.
  - destruct IH as (E1 & E2 & E3 & E4 & E5 & Hw).
    rewrite E1, E2, E3, E4, E5, Hw. repeat split; lia || tauto.
  - destruct IH as (E1 & E2 & E3 & E4 & E5 & Hw).
    rewrite E1, E2, E3, E4, E5, Hw. repeat split; lia || tauto.
  - destruct IH as (E1 & E2 & E3 & E4 & E5 & Hw).
    rewrite E1, E2, E3, E4, E5, Hw. repeat split; lia || tauto.
Qed.

(** C6. Provided the scalar ops never raise
    [ReplacementDidNotRemoveError] when asked for an output type,
    [apply] raises neither [InconsistencyError] nor
    [ReplacementDidNotRemoveError]. Whenever the loop over a node list
    returns, it has visited every node of the list, in order, and the
    imported nodes after them, whatever was raised on the way; the counter
    [nb_inconsistency_make] has gone up by the number of
    [InconsistencyError]s of the candidate builder,
    [nb_inconsistency_replace] by the number of [InconsistencyError]s of
    the commit and [nb_replacement_didn_t_remove] by the number of its
    [ReplacementDidNotRemoveError]s, and [warned] is set exactly if it was
    set before or one of the latter was raised. At a candidate node of the
    graph, each of the three errors is caught: the loop goes on with the
    next node, in the state written out, [did_something] unchanged. *)
Theorem gemm_optimizer_catches_errors (fuel : nat) (warned : bool)
    (fgraph : FunctionGraph) (next : ident) :
  (forall o ds, scalar_output_dtype o ds <> inl ReplacementDidNotRemoveError) ->
  GemmOptimizer_apply io_toposort replace_all_validate_remove fuel warned
    fgraph next <> Raise InconsistencyError
  /\ GemmOptimizer_apply io_toposort replace_all_validate_remove fuel warned
       fgraph next <> Raise ReplacementDidNotRemoveError
  /\ (forall f nodelist st did st' did',
        pass replace_all_validate_remove f nodelist st did = Ok (st', did') ->
        exists trace,
          visits replace_all_validate_remove nodelist st trace st'
          /\ (exists more, map fst trace = nodelist ++ more)
          /\ nb_inconsistency_make (st_counters st')
             = nb_inconsistency_make (st_counters st)
               + occurrences Make_inconsistent trace
          /\ nb_inconsistency_replace (st_counters st')
             = nb_inconsistency_replace (st_counters st)
               + occurrences Replace_inconsistent trace
          /\ nb_replacement_didn_t_remove (st_counters st')
             = nb_replacement_didn_t_remove (st_counters st)
               + occurrences Did_not_remove trace
          /\ (st_warned st' = true
              <-> st_warned st = true \/ 0 < occurrences Did_not_remove trace))
  /\ (forall node nodelist fg n0 it rp dr im ir w did,
        is_candidate node = true ->
        node_id node ∈ apply_nodes fg ->
        (forall n,
           _gemm_from_node2 fg node n0 = (Raise InconsistencyError, n) ->
           pass replace_all_validate_remove (S fuel) (node :: nodelist)
             (mkOptState fg n0 (mkCounters it rp dr im ir) w) did
           = pass replace_all_validate_remove fuel nodelist
               (mkOptState fg n (mkCounters it rp dr (S im) ir) w) did)
        /\ (forall new_outputs old_dot22 n fg' imported,
              _gemm_from_node2 fg node n0
              = (Ok (Some (new_outputs, old_dot22)), n) ->
              length new_outputs = length (outputs node) ->
              (replace_all_validate_remove fg
                 (zip (outputs node) new_outputs) [old_dot22]
               = (Raise InconsistencyError, fg', imported) ->
               pass replace_all_validate_remove (S fuel) (node :: nodelist)
                 (mkOptState fg n0 (mkCounters it rp dr im ir) w) did
               = pass replace_all_validate_remove fuel
                   (nodelist
                    ++ filter (fun new_node => node_id new_node <> node_id node)
                         imported)
                   (mkOptState fg' n (mkCounters it rp dr im (S ir)) w) did)
              /\ (replace_all_validate_remove fg
                    (zip (outputs node) new_outputs) [old_dot22]
                  = (Raise ReplacementDidNotRemoveError, fg', imported) ->
                  pass replace_all_validate_remove (S fuel) (node :: nodelist)
                    (mkOptState fg n0 (mkCounters it rp dr im ir) w) did
                  = pass replace_all_validate_remove fuel
                      (nodelist
                       ++ filter
                            (fun new_node => node_id new_node <> node_id node)
                            imported)
                      (mkOptState fg' n (mkCounters it rp (S dr) im ir) true)
                      did))).
Proof.
  intros Hscalar. unfold GemmOptimizer_apply.
  split; [|split; [|split]].
  - intros H. by apply while_raises in H as [? ?].
  - intros H. by apply while_raises in H as [? ?].
  - intros f nodelist st did st' did' (trace & Hv & _)%pass_visits.
    exists trace. split; [done|]. split; [by eapply visits_whole_list|].
    apply visits_counts in Hv as (_ & _ & Hdr & Him & Hir & Hw). done.
  - intros node nodelist fg n0 it rp dr im ir w did Hc Hin.
    cbn [pass st_fgraph st_next st_counters st_warned].
    rewrite Hc, (bool_decide_eq_true_2 _ Hin). cbn [negb].
    split; [by intros n ->|].
    intros new old n fg' imported -> Hlen. apply Nat.eqb_eq in Hlen.
    rewrite Hlen. cbn [negb]. split; intros ->; by rewrite on_import_appends.
Qed.

(** *** The passes *)

Lemma pass_more_fuel (f f' : nat) (nodelist : list Apply) (st : OptState)
    (did : bool) (r : OptState * bool) :
  f <= f' -> pass_ f nodelist st did = Ok r -> pass_ f' nodelist st did = Ok r.
Proof.
  revert f' nodelist st did. induction f as [|f IH];
    intros f' nodelist st did Hle; [done|].
  destruct f' as [|f']; [lia|]. cbn [pass].
  assert (Hrec : forall nl s d, pass_ f nl s d = Ok r -> pass_ f' nl s d = Ok r)
    by (intros; apply IH; [lia|done]).
  destruct nodelist as [|node nodelist]; [done|].
  repeat (case_match; try done); apply Hrec.
Qed.

Lemma while_more_fuel (f f' : nat) (st res : OptState) :
  f <= f' -> while_ f st = Ok res ->
  while_ f' st = Ok res.
Proof.
  revert f' st. induction f as [|f IH]; intros f' st Hle; [done|].
  destruct f' as [|f']; [lia|]. cbn [while_did_something].
  destruct (pass_ f _ _ false) as [[st' d]|e|] eqn:Hp; [|done|done].
  rewrite (pass_more_fuel f f' _ _ _ _ ltac:(lia) Hp).
  destruct d; [apply IH; lia|done].
Qed.

(** [did_something] is set by a pass exactly when a replacement
    succeeded in it. *)
Lemma pass_did_something (fuel : nat) (nodelist : list Apply) (st st' : OptState)
    (did did' : bool) :
  pass_ fuel nodelist st did = Ok (st', did') ->
  nb_replacement (st_counters st) <= nb_replacement (st_counters st')
  /\ (did' = true <->
      did = true
      \/ nb_replacement (st_counters st) < nb_replacement (st_counters st')).
Proof.
  revert nodelist st did. induction fuel as [|fuel IH];
    intros nodelist st did; [done|].
  cbn [pass]. destruct nodelist as [|node nodelist].
  { intros [= <- <-]. split; [done|]. split; [auto|intros [?|?]; [done|lia]]. }
  destruct (negb (is_candidate node)); [apply IH|].
  destruct (negb (bool_decide _)); [apply IH|].
  destruct (_gemm_from_node2 (st_fgraph st) node (st_next st))
    as [[[[new old]|]|e'|] n']; [| |..].
  - destruct (negb (length new =? length (outputs node))); [done|].
    destruct (replace_all_validate_remove _ _ _) as [[[[]|e''|] fg'] imported];
      [| |done].
    + intros [Hle Hiff]%IH. cbn in Hle, Hiff. split; [lia|].
      rewrite Hiff. split; [intros _; right; lia|auto].
    + destruct e''; try done; intros [Hle Hiff]%IH; cbn in Hle, Hiff; done.
  - intros [Hle Hiff]%IH. done.
  - destruct e'; try done. intros [Hle Hiff]%IH. done.
  - done.
Qed.

Lemma while_unfold (fuel : nat) (st : OptState) :
  while_ (S fuel) st
  = match pass_ fuel
            (rev (io_toposort (fg_inputs (st_fgraph st))
                    (fg_outputs (st_fgraph st))))
            (count_iter st) false with
    | Ok (st1, true) => while_ fuel st1
    | Ok (st1, false) => Ok st1
    | Raise e => Raise e
    | OutOfFuel => OutOfFuel
    end.
Proof. reflexivity. Qed.

Lemma while_passes (fuel : nat) (st res : OptState) :
  while_ fuel st = Ok res -> passes_ st res.
Proof.
  revert st. induction fuel as [|fuel IH]; intros st; [done|].
  rewrite while_unfold.
  destruct (pass_ fuel _ _ false) as [[st' d]|e|] eqn:Hp; [|done|done].
  apply pass_visits in Hp as (trace & Hv & Hd).
  destruct d.
  - intros H%IH. eapply passes_again; [exact Hv| |done].
    destruct Hd as [[?|?] _]; done.
  - intros [= <-]. eapply passes_last; [exact Hv|].
    intros node Hin. destruct Hd as [_ Hd].
    by specialize (Hd (or_intror (ex_intro _ node Hin))).
Qed.

Lemma passes_while (st res : OptState) :
  passes_ st res -> exists fuel, while_ fuel st = Ok res.
Proof.
  induction 1 as [st trace st' (f & d & Hd & Hp)%visits_pass Hno
                 |st trace st1 st' (f & d & Hd & Hp)%visits_pass Hsome _ [f2 IH]].
  - assert (d = false) as ->.
    { destruct d; [|done]. destruct Hd as [[node Hin] _]; [done|].
      by apply Hno in Hin. }
    exists (S f). rewrite while_unfold. unfold count_iter.
    by rewrite (Hp false).
  - assert (d = true) as -> by (by apply Hd).
    exists (S (max f f2)). rewrite while_unfold. unfold count_iter.
    rewrite (pass_more_fuel f (max f f2) _ _ _ _ ltac:(lia) (Hp false)).
    apply (while_more_fuel f2); [lia|done].
Qed.

(** C7. The loop of [apply] returns from a state exactly when whole
    passes lead from it to the returned state such that in every pass but
    the last at least one replacement was committed and in the last none
    was. A whole pass counts the iteration, takes the reversed topological
    order of the graph as it is then, and visits every node of it, from the
    first to the last, and after them the nodes imported on the way: a
    commit does not end the pass. Only add, sub, neg and mul [Elemwise]
    nodes get more than a look. Whenever the loop over a list returns,
    [did_something] is set exactly if it was set before or
    [replace_all_validate_remove] returned without raising at a node of
    the trace, and [nb_replacement] has gone up by the number of these
    nodes. *)
Theorem gemm_optimizer_passes (st res : OptState) :
  ((exists fuel,
      while_did_something io_toposort replace_all_validate_remove fuel st
      = Ok res)
   <-> passes io_toposort replace_all_validate_remove st res)
  /\ (forall fuel nodelist st0 did st' did',
        pass replace_all_validate_remove fuel nodelist st0 did = Ok (st', did') ->
        exists trace,
          visits replace_all_validate_remove nodelist st0 trace st'
          /\ (did' = true
              <-> did = true \/ exists node, (node, Replaced) ∈ trace)
          /\ nb_replacement (st_counters st')
             = nb_replacement (st_counters st0) + occurrences Replaced trace)
  /\ (forall nodelist st0 trace st',
        visits replace_all_validate_remove nodelist st0 trace st' ->
        (exists more, map fst trace = nodelist ++ more)
        /\ (forall node k,
              (node, k) ∈ trace -> k <> Left_alone -> is_candidate node = true)
        /\ exists fuel did',
             (did' = true <-> exists node, (node, Replaced) ∈ trace)
             /\ forall did,
                  pass replace_all_validate_remove fuel nodelist st0 did
                  = Ok (st', did || did'))
  /\ (forall fuel node nodelist st0 did,
        is_candidate node = false ->
        pass replace_all_validate_remove (S fuel) (node :: nodelist) st0 did
        = pass replace_all_validate_remove fuel nodelist st0 did)
  /\ (forall fuel st0,
        while_did_something io_toposort replace_all_validate_remove (S fuel) st0
        = match pass replace_all_validate_remove fuel
                  (rev (io_toposort (fg_inputs (st_fgraph st0))
                          (fg_outputs (st_fgraph st0))))
                  (count_iter st0) false with
          | Ok (st1, true) =>
              while_did_something io_toposort replace_all_validate_remove fuel st1
          | Ok (st1, false) => Ok st1
          | Raise e => Raise e
          | OutOfFuel => OutOfFuel
          end).
Proof.
  split; [|split; [|split; [|split]]].
  - split; [intros [fuel H]; by eapply while_passes|apply passes_while].
  - intros fuel nodelist st0 did st' did' (trace & Hv & Hd)%pass_visits.
    exists trace. split; [done|]. split; [done|].
    by apply visits_counts in Hv as (_ & Hrp & _).
  - intros nodelist st0 trace st' Hv.
    split; [by eapply visits_whole_list|].
    split; [by eapply visits_candidates|by apply visits_pass].
  - intros fuel node nodelist st0 did Hc. cbn [pass]. by rewrite Hc.
  - apply while_unfold.
Qed.

End Optimizer_facts.

Lemma scalar_output_dtype_model_raises (o : ScalarOp) (ds : list Dtype) (e : Exn) :
  scalar_output_dtype_model o ds = inl e -> e = TypeError.
Proof.
  unfold scalar_output_dtype_model.
  destruct o, ds as [|d0 [|d1 ds]]; repeat case_match; intros; by simplify_eq.
Qed.

(** C6 on the worked example, with validators that reject every
    replacement: [apply] raises neither error, and the loop of its one
    pass returns in a state whose counters are those of its trace. *)
Lemma gemm_optimizer_catches_errors_witness :
  (forall o ds, scalar_output_dtype o ds <> inl ReplacementDidNotRemoveError)
  /\ GemmOptimizer_apply Example.io_toposort Example.reject_all 10 false
       (Example.fgraph_of Example.root) 17 <> Raise InconsistencyError
  /\ GemmOptimizer_apply Example.io_toposort Example.reject_all 10 false
       (Example.fgraph_of Example.root) 17 <> Raise ReplacementDidNotRemoveError
  /\ exists trace,
       visits Example.reject_all
         (rev (Example.io_toposort (fg_inputs (Example.fgraph_of Example.root))
                 (fg_outputs (Example.fgraph_of Example.root))))
         (count_iter Example.initial) trace Example.rejected
       /\ (exists more,
             map fst trace
             = rev (Example.io_toposort
                      (fg_inputs (Example.fgraph_of Example.root))
                      (fg_outputs (Example.fgraph_of Example.root)))
               ++ more)
       /\ nb_inconsistency_make (st_counters Example.rejected)
          = nb_inconsistency_make (st_counters (count_iter Example.initial))
            + occurrences Make_inconsistent trace
       /\ nb_inconsistency_replace (st_counters Example.rejected)
          = nb_inconsistency_replace (st_counters (count_iter Example.initial))
            + occurrences Replace_inconsistent trace
       /\ nb_replacement_didn_t_remove (st_counters Example.rejected)
          = nb_replacement_didn_t_remove
              (st_counters (count_iter Example.initial))
            + occurrences Did_not_remove trace
       /\ (st_warned Example.rejected = true
           <-> st_warned (count_iter Example.initial) = true
               \/ 0 < occurrences Did_not_remove trace).
Proof.
  assert (H : forall o ds,
             scalar_output_dtype o ds <> inl ReplacementDidNotRemoveError).
  { intros o ds E. by apply scalar_output_dtype_model_raises in E. }
  assert (Hp : pass Example.reject_all 9
                 (rev (Example.io_toposort
                         (fg_inputs (Example.fgraph_of Example.root))
                         (fg_outputs (Example.fgraph_of Example.root))))
                 (count_iter Example.initial) false
               = Ok (Example.rejected, false))
    by (vm_compute; reflexivity).
  split; [exact H|].
  destruct (gemm_optimizer_catches_errors Example.io_toposort Example.reject_all
              10 false (Example.fgraph_of Example.root) 17 H)
    as (H1 & H2 & H3 & _).
  split; [exact H1|]. split; [exact H2|].
  exact (H3 9 _ _ false _ false Hp).
Defined.

(** On the worked example, with validators that reject every replacement,
    the one candidate is built, its commit raises [InconsistencyError],
    which is counted, and [apply] returns after one pass. *)
Lemma gemm_optimizer_counts_rejection :
  GemmOptimizer_apply Example.io_toposort Example.reject_all 10 false
    (Example.fgraph_of Example.root) 17
  = Ok Example.rejected
  /\ st_counters Example.rejected = mkCounters 1 0 0 0 1
  /\ st_warned Example.rejected = false.
Proof. vm_compute. done. Qed.

(** When the [dot22] output is an output of the graph as well, the commit
    cannot remove it and raises [ReplacementDidNotRemoveError]: [apply]
    counts it, sets [warned], and returns after one pass. *)
Lemma gemm_optimizer_counts_didn_t_remove :
  GemmOptimizer_apply Example.io_toposort Example.replace_all_validate_remove
    10 false Example.kept_graph 17
  = Ok Example.not_removed
  /\ st_counters Example.not_removed = mkCounters 1 0 1 0 0
  /\ st_warned Example.not_removed = true.
Proof. vm_compute. done. Qed.

(** C7 on the worked example: the first pass replaces the root and the
    second pass replaces nothing: two passes, one replacement. *)
Lemma gemm_optimizer_passes_witness :
  passes Example.io_toposort Example.replace_all_validate_remove
    Example.initial Example.optimized
  /\ nb_iter (st_counters Example.optimized) = 2
  /\ nb_replacement (st_counters Example.optimized) = 1.
Proof.
  split; [|split; reflexivity].
  apply (proj1 (proj1 (gemm_optimizer_passes Example.io_toposort
                         Example.replace_all_validate_remove
                         Example.initial Example.optimized))).
  exists 10. vm_compute. reflexivity.
Defined.

(** C2 at the entries (3, M) and (-1, M). *)
Lemma factor_canonicalized_merges_witness :
  _factor_canonicalized
    [Pair (Num 3) Example.M; Pair (Num (-1)) Example.M] 1
  = (Ok [Pair (Num 2) Example.M], 1).
Proof.
  exact (proj2 (proj2 (factor_canonicalized_merges [] 1)) Example.M).
Defined.

(** ** DimShuffle: which orders are accepted, and the shape of the result *)

Section DimShuffle_facts.
Context `{Ext : Externals}.

Lemma elem_of_omap_id (j : nat) (l : list (option nat)) :
  j ∈ omap id l <-> Some j ∈ l.
Proof.
  rewrite list_elem_of_omap. split.
  - intros (x & Hx & Hj). cbn in Hj. by subst.
  - intros H. by exists (Some j).
Qed.

Lemma check_new_order_cases (len : nat) (no : list (option nat)) :
  check_new_order len no = Ok tt \/ check_new_order len no = Raise ValueError.
Proof.
  induction no as [|[j|] no IH]; cbn; [by left| |done].
  repeat case_match; auto.
Qed.

Lemma check_new_order_Ok (len : nat) (no : list (option nat)) :
  check_new_order len no = Ok tt
  <-> (forall j, Some j ∈ no -> j < len) /\ NoDup (omap id no).
Proof.
  induction no as [|[j|] no IH]; cbn.
  - split; [intros _|done]. split; [by intros j ?%elem_of_nil|constructor].
  - unfold index_in. rewrite NoDup_cons, elem_of_omap_id.
    destruct (bool_decide_reflect (len <= j)) as [Hle|Hlt].
    { split; [done|]. intros [Hb _]. specialize (Hb j ltac:(left)). lia. }
    destruct (bool_decide_reflect (Some j ∈ no)) as [Hin|Hnin].
    { split; [done|]. by intros [_ [? _]]. }
    rewrite IH. split.
    + intros [Hb Hnd]. split; [|done].
      intros j' [->%(inj Some)|?]%elem_of_cons; [lia|by apply Hb].
    + intros [Hb [_ Hnd]]. split; [|done]. intros j' ?. apply Hb. by right.
  - rewrite IH. split.
    + intros [Hb Hnd]. split; [|done].
      intros j' [?|?]%elem_of_cons; [done|by apply Hb].
    + intros [Hb Hnd]. split; [|done]. intros j' ?. apply Hb. by right.
Qed.

Lemma check_drop_cases (k : nat) (ib : list bool) (no : list (option nat)) :
  check_drop k ib no = Ok tt \/ check_drop k ib no = Raise ValueError.
Proof.
  revert k. induction ib as [|b ib IH]; intros k; cbn; [by left|].
  repeat case_match; auto.
Qed.

Lemma check_drop_Ok (k : nat) (ib : list bool) (no : list (option nat)) :
  check_drop k ib no = Ok tt
  <-> forall i, ib !! i = Some false -> Some (k + i) ∈ no.
Proof.
  revert k. induction ib as [|b ib IH]; intros k; cbn.
  - split; [intros _ i; by rewrite lookup_nil|done].
  - unfold index_in.
    assert (Hshift : (forall i, ib !! i = Some false -> Some (S k + i) ∈ no)
                     <-> (forall i, (b :: ib) !! S i = Some false ->
                                    Some (k + S i) ∈ no)).
    { split; intros H i Hi; specialize (H i Hi);
        by replace (k + S i) with (S k + i) in * by lia. }
    destruct (bool_decide_reflect (Some k ∈ no)) as [Hin|Hnin].
    + rewrite IH, Hshift. split; [|by intros H i; apply H].
      intros H [|i]; [by rewrite Nat.add_0_r|apply H].
    + destruct b.
      * rewrite IH, Hshift. split; [|by intros H i; apply H].
        intros H [|i]; [done|apply H].
      * split; [done|]. intros H. specialize (H 0 eq_refl).
        by rewrite Nat.add_0_r in H.
Qed.

(** X1. [DimShuffle.__init__] builds the op exactly when every index of
    [new_order] is an axis of the input, no index occurs twice, and every
    axis that [new_order] leaves out is broadcastable. In every other case
    it raises [ValueError]. It takes no identity. *)
Theorem DimShuffle_init_accepts (ib : list bool) (new_order : list (option nat))
    (n : ident) :
  let valid :=
    (forall j, Some j ∈ new_order -> j < length ib)
    /\ NoDup (omap id new_order)
    /\ (forall i, ib !! i = Some false -> Some i ∈ new_order) in
  (valid /\ DimShuffle_init ib new_order n = (Ok (DimShuffle ib new_order), n))
  \/ (~ valid /\ DimShuffle_init ib new_order n = (Raise ValueError, n)).
Proof.
  intros valid. unfold DimShuffle_init, bind, lift, ret.
  pose proof (check_new_order_Ok (length ib) new_order) as Ho.
  pose proof (check_drop_Ok 0 ib new_order) as Hd. cbn in Hd.
  destruct (check_new_order_cases (length ib) new_order) as [E1|E1]; rewrite E1.
  - destruct (check_drop_cases 0 ib new_order) as [E2|E2]; rewrite E2.
    + left. split; [|done]. unfold valid.
      destruct Ho as [Ho _]. specialize (Ho E1) as [? ?].
      destruct Hd as [Hd _]. by specialize (Hd E2).
    + right. split; [|done]. intros (_ & _ & H3).
      apply Hd in H3. congruence.
  - right. split; [|done]. intros (H1 & H2 & _).
    destruct Ho as [_ Ho]. specialize (Ho (conj H1 H2)). congruence.
Qed.

Lemma sequence_result_static (sh : list (option nat)) (no : list (option nat)) :
  out_static_shape sh no
  = sequence_result
      (map (fun j => match j with
                     | None => Ok (Some 1)
                     | Some i => getitem_result sh i
                     end) no).
Proof.
  induction no as [|[j|] no IH]; cbn; [done| |].
  - unfold getitem_result. destruct (sh !! j); [|done]. rewrite IH.
    by destruct (sequence_result _).
  - rewrite IH. by destruct (sequence_result _).
Qed.

Lemma infer_shape_insertions {A} (one : A) (ishp : list A)
    (q : list (option nat)) :
  match sequence_result (map (getitem_result ishp) (DimShuffle_shuffle q)) with
  | Ok Sq =>
      exists Fq,
        sequence_result
          (map (fun j => match j with
                         | None => Ok one
                         | Some i => getitem_result ishp i
                         end) q) = Ok Fq
        /\ forall pre : list A,
             fold_left (fun rval augm => list_insert_at augm one rval)
               (positions_of_x (length pre) q) (pre ++ Sq)
             = pre ++ Fq
  | Raise e =>
      sequence_result
        (map (fun j => match j with
                       | None => Ok one
                       | Some i => getitem_result ishp i
                       end) q) = Raise e
  | OutOfFuel => False
  end.
Proof.
  unfold DimShuffle_shuffle.
  induction q as [|[i|] q IH]; cbn.
  - exists []. split; [done|]. intros pre. by cbn.
  - destruct (getitem_result ishp i) as [v|e|] eqn:E; [|done|];
      [|unfold getitem_result in E; by destruct (ishp !! i)].
    destruct (sequence_result (map (getitem_result ishp) (omap id q)))
      as [Sq|e|]; [|by rewrite IH|done].
    destruct IH as (Fq & -> & IH). exists (v :: Fq). split; [done|].
    intros pre. specialize (IH (pre ++ [v])).
    rewrite length_app, Nat.add_1_r, <- !app_assoc in IH. exact IH.
  - destruct (sequence_result (map (getitem_result ishp) (omap id q)))
      as [Sq|e|]; [|by rewrite IH|done].
    destruct IH as (Fq & -> & IH). exists (one :: Fq). split; [done|].
    intros pre. specialize (IH (pre ++ [one])).
    rewrite length_app, Nat.add_1_r, <- !app_assoc in IH. cbn in IH.
    rewrite <- IH. f_equal. unfold list_insert_at.
    by rewrite take_app_length, drop_app_length.
Qed.

(** X2. [DimShuffle.infer_shape] goes by the attributes [shuffle] and
    [augment]: it picks the lengths of the kept axes and then inserts a 1
    at every position of ['x']. On static shapes this gives, for every
    [new_order] and every input shape, what [make_node] computes for the
    output type by going through [new_order] once; both raise
    [IndexError] on the same inputs. *)
Theorem DimShuffle_infer_shape_is_static_shape (new_order : list (option nat))
    (sh : list (option nat)) :
  DimShuffle_infer_shape (Some 1) new_order sh = out_static_shape sh new_order.
Proof.
  rewrite sequence_result_static. unfold DimShuffle_infer_shape.
  pose proof (infer_shape_insertions (Some 1) sh new_order) as H.
  destruct (sequence_result (map (getitem_result sh) (DimShuffle_shuffle new_order)))
    as [Sq|e|]; [|done|done].
  destruct H as (Fq & -> & H). specialize (H []). cbn in H.
  unfold DimShuffle_augment. by rewrite H.
Qed.

Lemma out_static_shape_Ok (sh : list (option nat)) (no : list (option nat))
    (out : list (option nat)) :
  out_static_shape sh no = Ok out ->
  length out = length no
  /\ forall k, (no !! k = Some None -> out !! k = Some (Some 1))
               /\ (forall j, no !! k = Some (Some j) -> out !! k = sh !! j).
Proof.
  revert out. induction no as [|[j|] no IH]; intros out; cbn.
  - intros [= <-]. split; [done|]. intros k. by destruct k.
  - destruct (sh !! j) as [s|] eqn:Ej; [|done].
    destruct (out_static_shape sh no) as [l| |]; [|done|done].
    intros [= <-]. destruct (IH l eq_refl) as [Hlen Hk]. split; [cbn; lia|].
    intros [|k]; cbn; [|apply Hk]. split; [done|]. by intros ? [= <-].
  - destruct (out_static_shape sh no) as [l| |]; [|done|done].
    intros [= <-]. destruct (IH l eq_refl) as [Hlen Hk]. split; [cbn; lia|].
    intros [|k]; cbn; [|apply Hk]. split; [done|]. by intros ? [=].
Qed.

Lemma pattern_mismatch_false (expected ib : list bool) :
  pattern_mismatch expected ib = false ->
  forall i, expected !! i = Some true -> ib !! i = Some false -> False.
Proof.
  unfold pattern_mismatch. revert ib.
  induction expected as [|e expected IH]; intros [|b ib]; cbn; try done.
  intros [He Hr]%orb_false_elim [|i]; cbn.
  - intros [= ->] [= ->]. done.
  - by apply IH.
Qed.

(** X3. A node [DimShuffle.make_node] returns has the one input it was given
    and one output, of the dtype of the input. The rank of the output is
    the length of [new_order]; it is broadcastable at every ['x'] and has
    the static length of the input axis elsewhere. The pattern of the
    input has the length of the pattern of the op, and the input is
    broadcastable wherever the op expects it. *)
Theorem DimShuffle_make_node_output (ib : list bool)
    (new_order : list (option nat)) (x : Var) (n n' : ident) (a : Apply) :
  DimShuffle_make_node ib new_order x n = (Ok a, n') ->
  op a = DimShuffle ib new_order
  /\ inputs a = [x]
  /\ n' = n + 2
  /\ length (shape (vtype x)) = length ib
  /\ (forall i, ib !! i = Some true -> is_one <$> shape (vtype x) !! i = Some true)
  /\ exists sh,
       outs a = [(S n, TensorType (dtype (vtype x)) sh)]
       /\ length sh = length new_order
       /\ forall k,
            (new_order !! k = Some None -> sh !! k = Some (Some 1))
            /\ (forall j, new_order !! k = Some (Some j) ->
                          sh !! k = shape (vtype x) !! j).
Proof.
  unfold DimShuffle_make_node.
  intros (x' & n1 & Hx & H)%bind_Ok_inv.
  cbn in Hx. destruct (isinstance_TensorType (vtype x)); [|done].
  apply ret_Ok_inv in Hx as [<- <-].
  apply bind_Ok_inv in H as ([] & n1 & Hp & H).
  apply bind_Ok_inv in H as (sh & n2 & [Hsh <-]%lift_Ok_inv & H).
  unfold mk_Apply in H. cbn in H. injection H as <- <-.
  assert (n1 = n
          /\ length (broadcastable (vtype x)) = length ib
          /\ forall i, ib !! i = Some true ->
                       broadcastable (vtype x) !! i = Some false -> False)
    as (-> & Hlen & Hpat).
  { destruct (bool_decide_reflect (broadcastable (vtype x) = ib)) as [E|E].
    - apply ret_Ok_inv in Hp as [_ <-]. rewrite E. split; [done|].
      split; [done|]. intros i H1 H2. congruence.
    - destruct (bool_decide_reflect
                  (length (broadcastable (vtype x)) = length ib)) as [El|El];
        cbn in Hp; [|done].
      destruct (pattern_mismatch ib (broadcastable (vtype x))) eqn:Ep; [done|].
      apply ret_Ok_inv in Hp as [_ <-]. split; [done|]. split; [done|].
      by apply pattern_mismatch_false. }
  unfold broadcastable in Hlen, Hpat. rewrite length_map in Hlen.
  split; [done|]. split; [done|]. split; [lia|]. split; [done|]. split.
  - intros i Hi. specialize (Hpat i Hi). rewrite list_lookup_fmap in Hpat.
    destruct (shape (vtype x) !! i) as [s|] eqn:Es; cbn in *.
    + destruct (is_one s); [done|]. by destruct Hpat.
    + apply lookup_ge_None in Es. apply lookup_lt_Some in Hi. lia.
  - exists sh. split; [done|]. by apply out_static_shape_Ok.
Qed.

End DimShuffle_facts.

(** X3 at the matrix Z and the order [1, x, 0]. *)
Lemma DimShuffle_make_node_output_witness :
  DimShuffle_make_node [false; false] [Some 1; None; Some 0] Example.Z 20
  = (Ok More_examples.shuffled_node, 22)
  /\ op More_examples.shuffled_node
     = DimShuffle [false; false] [Some 1; None; Some 0]
  /\ inputs More_examples.shuffled_node = [Example.Z].
Proof.
  assert (H : DimShuffle_make_node [false; false] [Some 1; None; Some 0]
                Example.Z 20
              = (Ok More_examples.shuffled_node, 22))
    by (vm_compute; reflexivity).
  split; [exact H|].
  pose proof (DimShuffle_make_node_output _ _ _ _ _ _ H) as (Ho & Hi & _).
  split; [exact Ho|exact Hi].
Defined.

(** ** The ops of blas.py: what [make_node] accepts *)

Section Make_node_facts.
Context `{Ext : Externals}.

Lemma as_tensor_variable_Sym_Ok (v v' : Var) (n n' : ident) :
  as_tensor_variable (Sym v) n = (Ok v', n') ->
  v' = v /\ n' = n /\ isinstance_TensorType (vtype v) = true.
Proof.
  cbn. destruct (isinstance_TensorType (vtype v)); [|done].
  by intros [<- <-]%ret_Ok_inv.
Qed.

Lemma dense_is_tensor (v : Var) :
  dense v -> isinstance_TensorType (vtype v) = true.
Proof.
  unfold dense, isinstance_DenseTensorType, isinstance_TensorType.
  by destruct (tclass (vtype v)).
Qed.

Lemma as_tensor_variable_dense (v : Var) (n : ident) :
  dense v -> as_tensor_variable (Sym v) n = (Ok v, n).
Proof. intros H%dense_is_tensor. cbn. by rewrite H. Qed.

Lemma existsb_not_dense (l : list Var) :
  existsb (fun i => negb (isinstance_DenseTensorType (vtype i))) l = false
  <-> Forall dense l.
Proof.
  induction l as [|v l IH]; cbn; [by split; [constructor|]|].
  rewrite Forall_cons, <- IH, orb_false_iff, negb_false_iff. done.
Qed.

Lemma float_or_complex (d : Dtype) :
  negb (startswith_float d) && negb (startswith_complex d) = false
  <-> d ∈ gemm_dtypes.
Proof.
  assert (negb (startswith_float d) && negb (startswith_complex d)
          = negb (bool_decide (d ∈ gemm_dtypes))) as ->
    by (destruct d; vm_compute; reflexivity).
  rewrite negb_false_iff. apply bool_decide_eq_true.
Qed.

Lemma Gemm_make_node_built (inplace : bool) (z a x y b : Var) (n : ident) :
  Gemm_accepts inplace z a x y b ->
  Gemm_make_node inplace (map Sym [z; a; x; y; b]) n
  = (Ok (mkApply n (Gemm inplace) [z; a; x; y; b] [(S n, vtype z)]), n + 2).
Proof.
  intros (Hd & Hr & Hz & Ha & Hx & Hy & Hb & Eza & Eax & Exy & Eyb & Hf).
  unfold Gemm_make_node, bind.
  rewrite (mapM_as_tensor_variable_dense _ _ Hd).
  apply existsb_not_dense in Hd. rewrite Hd.
  assert (inplace && roots_intersect (view_roots z) (view_roots x) = false)
    as ->.
  { destruct inplace; [|done]. by destruct (Hr eq_refl) as [-> _]. }
  assert (inplace && roots_intersect (view_roots z) (view_roots y) = false)
    as ->.
  { destruct inplace; [|done]. by destruct (Hr eq_refl) as [_ ->]. }
  rewrite Hz, Ha, Hx, Hy, Hb. cbn [Nat.eqb negb].
  rewrite bool_decide_eq_true_2 by done. cbn [negb].
  apply float_or_complex in Hf. rewrite Hf.
  unfold mk_Apply. cbn. do 2 f_equal. lia.
Qed.

Lemma Gemm_make_node_inv (inplace : bool) (l : list Var) (n n' : ident)
    (node : Apply) :
  Gemm_make_node inplace (map Sym l) n = (Ok node, n') ->
  exists z a x y b, l = [z; a; x; y; b] /\ Gemm_accepts inplace z a x y b.
Proof.
  unfold Gemm_make_node.
  intros (l' & n1 & [-> ->]%mapM_as_tensor_variable_Sym & H)%bind_Ok_inv.
  destruct (existsb _ l) eqn:Hd; [done|]. apply existsb_not_dense in Hd.
  destruct l as [|z [|a [|x [|y [|b [|? ?]]]]]]; try done.
  exists z, a, x, y, b. split; [done|]. split; [done|].
  destruct (inplace && roots_intersect (view_roots z) (view_roots x))
    eqn:Hzx; [done|].
  destruct (inplace && roots_intersect (view_roots z) (view_roots y))
    eqn:Hzy; [done|].
  split.
  { intros ->. cbn in Hzx, Hzy. done. }
  repeat match type of H with
         | (if negb (?a =? ?b) then _ else _) _ = _ =>
             destruct (Nat.eqb_spec a b); cbn [negb] in H; [|done]
         end.
  destruct (bool_decide_reflect
              (dtype (vtype z) = dtype (vtype a)
               /\ dtype (vtype a) = dtype (vtype x)
               /\ dtype (vtype x) = dtype (vtype y)
               /\ dtype (vtype y) = dtype (vtype b)))
    as [(? & ? & ? & ?)|]; cbn [negb] in H; [|done].
  destruct (negb (startswith_float (dtype (vtype z)))
            && negb (startswith_complex (dtype (vtype z)))) eqn:Hf; [done|].
  apply float_or_complex in Hf. done.
Qed.

(** X4. [Gemm.make_node] on variables. It returns a node exactly for five
    dense tensors (z, a, x, y, b) where z, x, y are of rank 2 and a, b of
    rank 0, all five of one dtype, a float or complex one, and, for the
    destructive variant, z shares no view root with x or y. The node then
    has these five inputs and one output, of the type of z, and takes two
    identities. A list of another length is never accepted. *)
Theorem Gemm_make_node_accepts (inplace : bool) (l : list Var) (n : ident) :
  (forall z a x y b,
     l = [z; a; x; y; b] ->
     Gemm_accepts inplace z a x y b ->
     Gemm_make_node inplace (map Sym l) n
     = (Ok (mkApply n (Gemm inplace) l [(S n, vtype z)]), n + 2))
  /\ (forall node n',
        Gemm_make_node inplace (map Sym l) n = (Ok node, n') ->
        exists z a x y b,
          l = [z; a; x; y; b] /\ Gemm_accepts inplace z a x y b).
Proof.
  split.
  - intros z a x y b -> H. by apply Gemm_make_node_built.
  - intros node n'. apply Gemm_make_node_inv.
Qed.

Lemma Gemv_make_node_built (inplace : bool) (y alpha A x beta : Var)
    (n : ident) :
  Gemv_accepts y alpha A x beta ->
  Gemv_make_node inplace (Sym y) (Sym alpha) (Sym A) (Sym x) (Sym beta) n
  = (Ok (mkApply n (Gemv inplace) [y; alpha; A; x; beta] [(S n, vtype y)]),
     n + 2).
Proof.
  intros (Hd & EyA & Eyx & HA & Hx & Hy).
  pose proof Hd as Hd'. apply existsb_not_dense in Hd'.
  apply Forall_cons in Hd as [Dy Hd]. apply Forall_cons in Hd as [Dal Hd].
  apply Forall_cons in Hd as [DA Hd]. apply Forall_cons in Hd as [Dx Hd].
  apply Forall_cons in Hd as [Dbe _].
  unfold Gemv_make_node, bind.
  rewrite !as_tensor_variable_dense by done.
  rewrite !bool_decide_eq_true_2 by done. cbn [negb orb].
  rewrite HA, Hx, Hy. cbn [Nat.eqb negb]. rewrite Hd'.
  unfold mk_Apply. cbn. do 2 f_equal. lia.
Qed.

Lemma Gemv_make_node_inv (inplace : bool) (y alpha A x beta : Var)
    (n n' : ident) (node : Apply) :
  Gemv_make_node inplace (Sym y) (Sym alpha) (Sym A) (Sym x) (Sym beta) n
  = (Ok node, n') ->
  Gemv_accepts y alpha A x beta.
Proof.
  unfold Gemv_make_node.
  intros (y' & n1 & (-> & -> & _)%as_tensor_variable_Sym_Ok & H)%bind_Ok_inv.
  apply bind_Ok_inv in H
    as (x' & n1 & (-> & -> & _)%as_tensor_variable_Sym_Ok & H).
  apply bind_Ok_inv in H
    as (A' & n1 & (-> & -> & _)%as_tensor_variable_Sym_Ok & H).
  apply bind_Ok_inv in H
    as (al' & n1 & (-> & -> & _)%as_tensor_variable_Sym_Ok & H).
  apply bind_Ok_inv in H
    as (be' & n1 & (-> & -> & _)%as_tensor_variable_Sym_Ok & H).
  destruct (bool_decide_reflect (dtype (vtype y) = dtype (vtype A)));
    cbn [negb orb] in H; [|done].
  destruct (bool_decide_reflect (dtype (vtype y) = dtype (vtype x)));
    cbn [negb] in H; [|done].
  repeat match type of H with
         | (if negb (?a =? ?b) then _ else _) _ = _ =>
             destruct (Nat.eqb_spec a b); cbn [negb] in H; [|done]
         end.
  destruct (existsb _ _) eqn:Hd in H; [done|].
  apply existsb_not_dense in Hd. done.
Qed.

(** X5. [Gemv.make_node] on variables. It returns a node exactly when y, A
    and x have one dtype, A is of rank 2, x and y are of rank 1 and all
    five inputs are dense tensors. Nothing is asked of the rank or the
    dtype of alpha and beta, and the answer does not depend on [inplace].
    The node has the inputs (y, alpha, A, x, beta) and one output, of the
    type of y. *)
Theorem Gemv_make_node_accepts (inplace : bool) (y alpha A x beta : Var)
    (n : ident) :
  (Gemv_accepts y alpha A x beta ->
   Gemv_make_node inplace (Sym y) (Sym alpha) (Sym A) (Sym x) (Sym beta) n
   = (Ok (mkApply n (Gemv inplace) [y; alpha; A; x; beta] [(S n, vtype y)]),
      n + 2))
  /\ (forall node n',
        Gemv_make_node inplace (Sym y) (Sym alpha) (Sym A) (Sym x) (Sym beta) n
        = (Ok node, n') ->
        Gemv_accepts y alpha A x beta).
Proof.
  split; [apply Gemv_make_node_built|].
  intros node n'. apply Gemv_make_node_inv.
Qed.

Lemma Ger_make_node_built (destructive : bool) (A alpha x y : Var) (n : ident) :
  Ger_accepts A alpha x y ->
  Ger_make_node destructive (Sym A) (Sym alpha) (Sym x) (Sym y) n
  = (Ok (mkApply n (Ger destructive) [A; alpha; x; y] [(S n, vtype A)]),
     n + 2).
Proof.
  intros (Hd & EAx & Exy & Eya & Hal & HA & Hx & Hy & Hin).
  pose proof Hd as Hd'. apply existsb_not_dense in Hd'.
  apply Forall_cons in Hd as [DA Hd]. apply Forall_cons in Hd as [Dal Hd].
  apply Forall_cons in Hd as [Dx Hd]. apply Forall_cons in Hd as [Dy _].
  unfold Ger_make_node, bind.
  rewrite !as_tensor_variable_dense by done.
  rewrite bool_decide_eq_true_2 by done. cbn [negb].
  rewrite Hal, HA, Hx, Hy. cbn [Nat.eqb negb].
  unfold dtype_in. rewrite bool_decide_eq_true_2 by done. cbn [negb].
  rewrite Hd'. unfold mk_Apply. cbn. do 2 f_equal. lia.
Qed.

Lemma Ger_make_node_inv (destructive : bool) (A alpha x y : Var)
    (n n' : ident) (node : Apply) :
  Ger_make_node destructive (Sym A) (Sym alpha) (Sym x) (Sym y) n
  = (Ok node, n') ->
  Ger_accepts A alpha x y.
Proof.
  unfold Ger_make_node.
  intros (A' & n1 & (-> & -> & _)%as_tensor_variable_Sym_Ok & H)%bind_Ok_inv.
  apply bind_Ok_inv in H
    as (y' & n1 & (-> & -> & _)%as_tensor_variable_Sym_Ok & H).
  apply bind_Ok_inv in H
    as (x' & n1 & (-> & -> & _)%as_tensor_variable_Sym_Ok & H).
  apply bind_Ok_inv in H
    as (al' & n1 & (-> & -> & _)%as_tensor_variable_Sym_Ok & H).
  destruct (bool_decide_reflect
              (dtype (vtype A) = dtype (vtype x)
               /\ dtype (vtype x) = dtype (vtype y)
               /\ dtype (vtype y) = dtype (vtype alpha)))
    as [(? & ? & ?)|]; cbn [negb] in H; [|done].
  repeat match type of H with
         | (if negb (?a =? ?b) then _ else _) _ = _ =>
             destruct (Nat.eqb_spec a b); cbn [negb] in H; [|done]
         end.
  unfold dtype_in in H.
  destruct (bool_decide_reflect
              (dtype (vtype x) ∈ [float32; float64; complex64; complex128]));
    cbn [negb] in H; [|done].
  destruct (existsb _ _) eqn:Hd in H; [done|].
  apply existsb_not_dense in Hd. done.
Qed.

(** X6. [Ger.make_node] accepts exactly the dense inputs (A, alpha, x, y) of
    one dtype among float32, float64, complex64 and complex128, with a
    matrix A, a scalar alpha and vectors x and y; the node it builds has
    these inputs and one output of the type of A. *)
Theorem Ger_make_node_accepts (destructive : bool) (A alpha x y : Var)
    (n : ident) :
  (Ger_accepts A alpha x y ->
   Ger_make_node destructive (Sym A) (Sym alpha) (Sym x) (Sym y) n
   = (Ok (mkApply n (Ger destructive) [A; alpha; x; y] [(S n, vtype A)]),
      n + 2))
  /\ (forall node n',
        Ger_make_node destructive (Sym A) (Sym alpha) (Sym x) (Sym y) n
        = (Ok node, n') ->
        Ger_accepts A alpha x y).
Proof.
  split; [apply Ger_make_node_built|].
  intros node n'. apply Ger_make_node_inv.
Qed.

Lemma Dot22_make_node_built (x y : Var) (n : ident) (s0 s1 : option nat) :
  Dot22_accepts x y ->
  shape (vtype x) !! 0 = Some s0 -> shape (vtype y) !! 1 = Some s1 ->
  Dot22_make_node x y n
  = (Ok (mkApply n Dot22 [x; y] [(S n, TensorType (dtype (vtype x)) [s0; s1])]),
     n + 2).
Proof.
  intros (Dx & Dy & Hx & Hdx & Hy & Hdy) Hs0 Hs1.
  unfold Dot22_make_node, bind.
  rewrite !as_tensor_variable_dense by done.
  assert (existsb (fun i => negb (isinstance_DenseTensorType (vtype i))) [x; y]
          = false) as ->.
  { apply existsb_not_dense. by repeat constructor. }
  rewrite Hx, Hy, Hdy. cbn [Nat.eqb negb orb].
  unfold dtype_in. rewrite !bool_decide_eq_true_2 by done. cbn [negb].
  unfold getitem. rewrite Hs0, Hs1. unfold ret, mk_Apply. cbn.
  do 2 f_equal. lia.
Qed.

Lemma Dot22_make_node_inv (x y : Var) (n n' : ident) (node : Apply) :
  Dot22_make_node x y n = (Ok node, n') ->
  Dot22_accepts x y.
Proof.
  unfold Dot22_make_node.
  intros (x' & n1 & (-> & -> & _)%as_tensor_variable_Sym_Ok & H)%bind_Ok_inv.
  apply bind_Ok_inv in H
    as (y' & n1 & (-> & -> & _)%as_tensor_variable_Sym_Ok & H).
  destruct (existsb _ _) eqn:Hd in H; [done|].
  apply existsb_not_dense in Hd.
  apply Forall_cons in Hd as [Dx Hd]. apply Forall_cons in Hd as [Dy _].
  unfold dtype_in in H.
  destruct (Nat.eqb_spec (ndim (vtype x)) 2); cbn [negb orb] in H; [|done].
  destruct (bool_decide_reflect (dtype (vtype x) ∈ gemm_dtypes));
    cbn [negb] in H; [|done].
  destruct (Nat.eqb_spec (ndim (vtype y)) 2); cbn [negb orb] in H; [|done].
  destruct (bool_decide_reflect (dtype (vtype y) ∈ gemm_dtypes));
    cbn [negb] in H; [|done].
  destruct (bool_decide_reflect (dtype (vtype y) = dtype (vtype x)));
    cbn [negb] in H; [|done].
  done.
Qed.

(** X7. [Dot22.make_node] returns a node exactly for two dense matrices of
    one dtype among float16, float32, float64, complex64 and complex128.
    The output is a matrix of that dtype whose static shape is the first
    static length of x and the second of y. *)
Theorem Dot22_make_node_accepts (x y : Var) (n : ident) :
  (Dot22_accepts x y ->
   exists s0 s1,
     shape (vtype x) !! 0 = Some s0 /\ shape (vtype y) !! 1 = Some s1
     /\ Dot22_make_node x y n
        = (Ok (mkApply n Dot22 [x; y]
                 [(S n, TensorType (dtype (vtype x)) [s0; s1])]),
           n + 2))
  /\ (forall node n', Dot22_make_node x y n = (Ok node, n') -> Dot22_accepts x y).
Proof.
  split; [|intros node n'; apply Dot22_make_node_inv].
  intros H. pose proof H as (_ & _ & Hx & _ & Hy & _).
  unfold ndim in Hx, Hy.
  destruct (shape (vtype x)) as [|s0 [|? [|]]] eqn:Ex; try done.
  destruct (shape (vtype y)) as [|? [|s1 [|]]] eqn:Ey; try done.
  exists s0, s1. split; [done|]. split; [done|].
  apply Dot22_make_node_built; [done|by rewrite Ex|by rewrite Ey].
Qed.

End Make_node_facts.

(** ** The node rewriters of blas.py *)

Section Rewriter_facts.
Context `{Ext : Externals}.

Lemma dimshuffle_Ok (x : Var) (pattern : list (option nat)) (c : TypeClass)
    (d : Dtype) (sh out : list (option nat)) (n : ident) :
  vtype x = mkTy c d sh -> c <> NotTensor ->
  check_new_order (length sh) pattern = Ok tt ->
  check_drop 0 (map is_one sh) pattern = Ok tt ->
  out_static_shape sh pattern = Ok out ->
  dimshuffle x pattern n
  = (Ok (Out n (DimShuffle (map is_one sh) pattern) [x]
           [(S n, TensorType d out)] 0),
     n + 2).
Proof.
  intros Ex Hc Ho Hd Hs.
  unfold dimshuffle, DimShuffle_init, broadcastable. rewrite Ex. cbn [shape].
  rewrite length_map, Ho, Hd. unfold bind at 1 2 3. cbn [lift ret].
  unfold call_DimShuffle, DimShuffle_make_node.
  unfold bind at 1 2. cbn [as_tensor_variable].
  unfold isinstance_TensorType. rewrite Ex. cbn [tclass].
  destruct c; [| |done]; cbn [ret]; unfold broadcastable; rewrite Ex;
    cbn [shape dtype]; rewrite bool_decide_eq_true_2 by done;
    unfold bind, ret, lift, mk_Apply, default_output; rewrite Hs; cbn;
    do 2 f_equal; lia.
Qed.

Lemma dense_record (v : Var) :
  dense v -> vtype v = mkTy DenseTensor (dtype (vtype v)) (shape (vtype v)).
Proof.
  unfold dense, isinstance_DenseTensorType.
  destruct (vtype v) as [[] d sh]; cbn; congruence.
Qed.

Lemma is_one_true (s : option nat) : is_one s = true -> s = Some 1.
Proof. destruct s as [[|[|?]]|]; cbn; congruence. Qed.

Lemma Gemm_make_node_aliased (z a x y b : Var) (n : ident) :
  Forall dense [z; a; x; y; b] ->
  roots_intersect (view_roots z) (view_roots x)
  || roots_intersect (view_roots z) (view_roots y) = true ->
  Gemm_make_node true (map Sym [z; a; x; y; b]) n = (Raise InconsistencyError, n).
Proof.
  intros Hd Hr. unfold Gemm_make_node, bind.
  rewrite (mapM_as_tensor_variable_dense _ _ Hd).
  apply existsb_not_dense in Hd. rewrite Hd.
  cbn [andb]. apply orb_prop in Hr as [-> | ->]; [done|].
  by destruct (roots_intersect (view_roots z) (view_roots x)).
Qed.

(** X8. [local_inplace_gemm] on a node that [gemm_no_inplace] built from
    (z, a, x, y, b). When z shares a view root with x or with y the
    rewriter does not return: the call of [gemm_inplace] raises
    [InconsistencyError]. Otherwise it returns one variable, the output of
    a new [gemm_inplace] node on the inputs of the node, of the type of
    the output it replaces. *)
Theorem local_inplace_gemm_on_built_node (fg : FunctionGraph)
    (z a x y b : Var) (n n' m : ident) (node : Apply) :
  Gemm_make_node false (map Sym [z; a; x; y; b]) n = (Ok node, n') ->
  local_inplace_gemm fg node m
  = if roots_intersect (view_roots z) (view_roots x)
       || roots_intersect (view_roots z) (view_roots y)
    then (Raise InconsistencyError, m)
    else (Ok (Some [Out m gemm_inplace (inputs node)
                      [(S m, vtype (default_output node))] 0]),
          m + 2).
Proof.
  intros H. pose proof H as (z' & a' & x' & y' & b' & [= <- <- <- <- <-] & Hacc)
    %Gemm_make_node_inv.
  rewrite (Gemm_make_node_built _ _ _ _ _ _ _ Hacc) in H.
  injection H as <- <-. cbn [inputs default_output vtype nth snd].
  unfold local_inplace_gemm. cbn [op]. rewrite bool_decide_eq_true_2 by done.
  unfold call_Gemm.
  destruct (roots_intersect (view_roots z) (view_roots x)
            || roots_intersect (view_roots z) (view_roots y)) eqn:Hr.
  - unfold bind at 1. erewrite bind_Raise_eq; [done|].
    apply Gemm_make_node_aliased; [apply Hacc|done].
  - apply orb_false_elim in Hr as [Hzx Hzy].
    unfold bind at 1. erewrite bind_Ok_eq.
    2:{ apply Gemm_make_node_built.
        destruct Hacc as (? & _ & ?). split; [done|]. split; [done|done]. }
    done.
Qed.

(** X9. [local_inplace_gemv] on a node that [gemv_no_inplace] built: it
    always returns, with one variable, the output of a new [gemv_inplace]
    node on the inputs of the node and of the type of the output it
    replaces. *)
Theorem local_inplace_gemv_on_built_node (fg : FunctionGraph)
    (y alpha A x beta : Var) (n n' m : ident) (node : Apply) :
  Gemv_make_node false (Sym y) (Sym alpha) (Sym A) (Sym x) (Sym beta) n
  = (Ok node, n') ->
  local_inplace_gemv fg node m
  = (Ok (Some [Out m gemv_inplace (inputs node)
                 [(S m, vtype (default_output node))] 0]),
     m + 2).
Proof.
  intros H. pose proof (Gemv_make_node_inv _ _ _ _ _ _ _ _ _ H) as Hacc.
  rewrite (Gemv_make_node_built _ _ _ _ _ _ _ Hacc) in H.
  injection H as <- <-. cbn [inputs default_output vtype nth snd].
  unfold local_inplace_gemv. cbn [op inputs].
  rewrite bool_decide_eq_true_2 by done.
  unfold unpack5_vars, call_Gemv. unfold bind at 1 2. cbn [ret].
  erewrite bind_Ok_eq; [|by apply Gemv_make_node_built]. done.
Qed.

(** X10. [local_inplace_ger] on a node that [ger] built: it always returns,
    with one variable, the output of a new [ger_destructive] node on the
    inputs of the node and of the type of the output it replaces. *)
Theorem local_inplace_ger_on_built_node (fg : FunctionGraph)
    (A alpha x y : Var) (n n' m : ident) (node : Apply) :
  Ger_make_node false (Sym A) (Sym alpha) (Sym x) (Sym y) n = (Ok node, n') ->
  local_inplace_ger fg node m
  = (Ok (Some [Out m ger_destructive (inputs node)
                 [(S m, vtype (default_output node))] 0]),
     m + 2).
Proof.
  intros H. pose proof (Ger_make_node_inv _ _ _ _ _ _ _ _ H) as Hacc.
  rewrite (Ger_make_node_built _ _ _ _ _ _ Hacc) in H.
  injection H as <- <-. cbn [inputs default_output vtype nth snd].
  unfold local_inplace_ger. cbn [op inputs].
  rewrite bool_decide_eq_true_2 by done.
  unfold unpack4_vars, call_Ger. unfold bind at 1 2. cbn [ret].
  erewrite bind_Ok_eq; [|by apply Ger_make_node_built]. done.
Qed.

End Rewriter_facts.

(** X8 at the [Gemm] node of the worked example. *)
Lemma local_inplace_gemm_on_built_node_witness :
  Gemm_make_node false
    (map Sym [Example.Z; Example.alpha; Example.X; Example.Y; Example.beta]) 17
  = (Ok Example.fused_node, 19)
  /\ local_inplace_gemm (Example.fgraph_of Example.fused) Example.fused_node 30
     = (Ok (Some [Out 30 gemm_inplace (inputs Example.fused_node)
                    [(31, Example.dmatrix)] 0]),
        32).
Proof.
  assert (H : Gemm_make_node false
                (map Sym [Example.Z; Example.alpha; Example.X; Example.Y;
                          Example.beta]) 17
              = (Ok Example.fused_node, 19))
    by (vm_compute; reflexivity).
  split; [exact H|].
  exact (local_inplace_gemm_on_built_node
           (Example.fgraph_of Example.fused) _ _ _ _ _ _ _ 30 _ H).
Defined.

(** X9 at a [Gemv] node on two vectors and the matrix X. *)
Lemma local_inplace_gemv_on_built_node_witness :
  Gemv_make_node false (Sym More_examples.u) (Sym Example.alpha)
    (Sym Example.X) (Sym More_examples.v) (Sym Example.beta) 20
  = (Ok More_examples.gemv_node, 22)
  /\ local_inplace_gemv (Example.fgraph_of Example.fused)
       More_examples.gemv_node 30
     = (Ok (Some [Out 30 gemv_inplace (inputs More_examples.gemv_node)
                    [(31, More_examples.dvector)] 0]),
        32).
Proof.
  assert (H : Gemv_make_node false (Sym More_examples.u) (Sym Example.alpha)
                (Sym Example.X) (Sym More_examples.v) (Sym Example.beta) 20
              = (Ok More_examples.gemv_node, 22))
    by (vm_compute; reflexivity).
  split; [exact H|].
  exact (local_inplace_gemv_on_built_node
           (Example.fgraph_of Example.fused) _ _ _ _ _ _ _ 30 _ H).
Defined.

(** X10 at a [Ger] node on the matrix Z and two vectors. *)
Lemma local_inplace_ger_on_built_node_witness :
  Ger_make_node false (Sym Example.Z) (Sym Example.alpha)
    (Sym More_examples.u) (Sym More_examples.v) 20
  = (Ok More_examples.ger_node, 22)
  /\ local_inplace_ger (Example.fgraph_of Example.fused)
       More_examples.ger_node 30
     = (Ok (Some [Out 30 ger_destructive (inputs More_examples.ger_node)
                    [(31, Example.dmatrix)] 0]),
        32).
Proof.
  assert (H : Ger_make_node false (Sym Example.Z) (Sym Example.alpha)
                (Sym More_examples.u) (Sym More_examples.v) 20
              = (Ok More_examples.ger_node, 22))
    by (vm_compute; reflexivity).
  split; [exact H|].
  exact (local_inplace_ger_on_built_node
           (Example.fgraph_of Example.fused) _ _ _ _ _ _ 30 _ H).
Defined.

Section Rewriter_facts2.
Context `{Ext : Externals}.

Lemma dense_Out (n : ident) (o : Op) (ins : list Var) (i : ident) (d : Dtype)
    (sh : list (option nat)) :
  dense (Out n o ins [(i, TensorType d sh)] 0).
Proof. done. Qed.

(** X11. [local_gemm_to_gemv] on a node that [gemm_no_inplace] built from
    (z, a, x, y, b). When z and x are rows, or else when z and y are
    columns, it returns one variable without raising: a [DimShuffle] of the
    output of a new [gemv_no_inplace] node, of exactly the type of the
    output it replaces. Otherwise it returns nothing and builds nothing. *)
Theorem local_gemm_to_gemv_keeps_type (fg : FunctionGraph)
    (z a x y b : Var) (n n' m : ident) (node : Apply) :
  Gemm_make_node false (map Sym [z; a; x; y; b]) n = (Ok node, n') ->
  let rows :=
    broadcastable (vtype z) = [true; false]
    /\ broadcastable (vtype x) = [true; false] in
  let columns :=
    broadcastable (vtype z) = [false; true]
    /\ broadcastable (vtype y) = [false; true] in
  (rows \/ columns ->
   exists o r m',
     local_gemm_to_gemv fg node m = (Ok (Some [o]), m')
     /\ vtype o = vtype (default_output node)
     /\ option_map inputs (owner o) = Some [r]
     /\ option_map op (owner r) = Some gemv_no_inplace)
  /\ (~ rows -> ~ columns -> local_gemm_to_gemv fg node m = (Ok None, m)).
Proof.
  intros H rows columns.
  pose proof H as (z' & a' & x' & y' & b' & [= <- <- <- <- <-] & Hacc)
    %Gemm_make_node_inv.
  rewrite (Gemm_make_node_built _ _ _ _ _ _ _ Hacc) in H.
  injection H as <- <-. cbn [inputs default_output vtype nth snd].
  destruct Hacc as (Hd & _ & Hz & Ha & Hx & Hy & Hb & Eza & Eax & Exy & Eyb & _).
  apply Forall_cons in Hd as [Dz Hd]. apply Forall_cons in Hd as [Da Hd].
  apply Forall_cons in Hd as [Dx Hd]. apply Forall_cons in Hd as [Dy Hd].
  apply Forall_cons in Hd as [Db _].
  pose proof (dense_record _ Dz) as Rz. pose proof (dense_record _ Dx) as Rx.
  pose proof (dense_record _ Dy) as Ry.
  unfold ndim in Hz, Hx, Hy.
  destruct (shape (vtype z)) as [|z0 [|z1 [|? ?]]] eqn:Sz; try done.
  destruct (shape (vtype x)) as [|x0 [|x1 [|? ?]]] eqn:Sx; try done.
  destruct (shape (vtype y)) as [|y0 [|y1 [|? ?]]] eqn:Sy; try done.
  unfold local_gemm_to_gemv. cbn [op inputs].
  rewrite bool_decide_eq_true_2 by done.
  unfold unpack5_inputs. unfold bind at 1. cbn [ret].
  assert (Bz : broadcastable (vtype z) = [is_one z0; is_one z1])
    by (unfold broadcastable; by rewrite Sz).
  assert (Bx : broadcastable (vtype x) = [is_one x0; is_one x1])
    by (unfold broadcastable; by rewrite Sx).
  assert (By : broadcastable (vtype y) = [is_one y0; is_one y1])
    by (unfold broadcastable; by rewrite Sy).
  split.
  - intros [[Hrz Hrx]|[Hcz Hcy]].
    + rewrite Hrz, Hrx. rewrite !bool_decide_eq_true_2 by done. cbn [andb].
      rewrite Bz in Hrz. rewrite Bx in Hrx.
      injection Hrz as Hz0 Hz1. injection Hrx as Hx0 Hx1.
      apply is_one_true in Hz0 as ->. apply is_one_true in Hx0 as ->.
      erewrite bind_Ok_eq.
      2:{ eapply (dimshuffle_Ok z _ _ _ _ [z1]); [exact Rz|done|done| |done].
          cbn. by rewrite Hz1. }
      unfold var_T, ndim. rewrite Sy. cbn [length seq rev app map].
      erewrite bind_Ok_eq.
      2:{ eapply (dimshuffle_Ok y _ _ _ _ [y1; y0]); [exact Ry|done|done| |done].
          cbn. done. }
      erewrite bind_Ok_eq.
      2:{ eapply (dimshuffle_Ok x _ _ _ _ [x1]); [exact Rx|done|done| |done].
          cbn. by rewrite Hx1. }
      unfold call_Gemv. erewrite bind_Ok_eq.
      2:{ erewrite bind_Ok_eq; [reflexivity|].
          apply Gemv_make_node_built. split.
          { repeat constructor; done. }
          cbn. repeat split; congruence. }
      cbn [default_output node_id op inputs outs].
      erewrite bind_Ok_eq.
      2:{ eapply (dimshuffle_Ok _ _ DenseTensor _ [z1] [Some 1; z1]);
            [reflexivity|done|done| |done].
          cbn. done. }
      eexists _, _, _. split; [reflexivity|]. cbn. rewrite Rz. cbn. done.
    + assert (Hnr : bool_decide (broadcastable (vtype z) = broadcastable (vtype x))
                    && bool_decide (broadcastable (vtype x) = [true; false])
                    = false).
      { apply andb_false_iff.
        destruct (bool_decide_reflect
                    (broadcastable (vtype x) = [true; false])) as [E|]; [|by right].
        left. apply bool_decide_eq_false_2. rewrite Hcz, E. done. }
      rewrite Hnr, Hcz, Hcy. rewrite !bool_decide_eq_true_2 by done. cbn [andb].
      rewrite Bz in Hcz. rewrite By in Hcy.
      injection Hcz as Hz0 Hz1. injection Hcy as Hy0 Hy1.
      apply is_one_true in Hz1 as ->. apply is_one_true in Hy1 as ->.
      erewrite bind_Ok_eq.
      2:{ eapply (dimshuffle_Ok z _ _ _ _ [z0]); [exact Rz|done|done| |done].
          cbn. by rewrite Hz0. }
      erewrite bind_Ok_eq.
      2:{ eapply (dimshuffle_Ok y _ _ _ _ [y0]); [exact Ry|done|done| |done].
          cbn. by rewrite Hy0. }
      unfold call_Gemv. erewrite bind_Ok_eq.
      2:{ erewrite bind_Ok_eq; [reflexivity|].
          apply Gemv_make_node_built. split.
          { repeat constructor; done. }
          cbn. unfold ndim. rewrite Sx. repeat split; congruence. }
      cbn [default_output node_id op inputs outs].
      erewrite bind_Ok_eq.
      2:{ eapply (dimshuffle_Ok _ _ DenseTensor _ [z0] [z0; Some 1]);
            [reflexivity|done|done| |done].
          cbn. done. }
      eexists _, _, _. split; [reflexivity|]. cbn. rewrite Rz. cbn. done.
  - intros Hnr Hnc. unfold bind at 1. cbn [ret].
    assert (bool_decide (broadcastable (vtype z) = broadcastable (vtype x))
            && bool_decide (broadcastable (vtype x) = [true; false]) = false)
      as ->.
    { apply andb_false_iff.
      destruct (bool_decide_reflect
                  (broadcastable (vtype x) = [true; false])) as [E|]; [|by right].
      left. apply bool_decide_eq_false_2. intros E'. apply Hnr.
      split; congruence. }
    assert (bool_decide (broadcastable (vtype z) = broadcastable (vtype y))
            && bool_decide (broadcastable (vtype y) = [false; true]) = false)
      as ->.
    { apply andb_false_iff.
      destruct (bool_decide_reflect
                  (broadcastable (vtype y) = [false; true])) as [E|]; [|by right].
      left. apply bool_decide_eq_false_2. intros E'. apply Hnc.
      split; congruence. }
    done.
Qed.

(** X12. [local_dot_to_dot22] on a [Dot] node whose two inputs are dense
    tensors of one dtype among float16, float32, float64, complex64 and
    complex128, each a vector or a matrix: it returns one variable and
    does not raise. The variable has the dtype of the inputs and the
    static shape of a dot product, the shape of x without its last axis
    followed by the shape of y without its first. *)
Theorem local_dot_to_dot22_rewrites (fg : FunctionGraph) (node : Apply)
    (x y : Var) (n : ident) :
  op node = Dot -> inputs node = [x; y] ->
  dense x -> dense y ->
  dtype (vtype y) = dtype (vtype x) -> dtype (vtype x) ∈ gemm_dtypes ->
  ndim (vtype x) ∈ [1; 2] -> ndim (vtype y) ∈ [1; 2] ->
  exists r n',
    local_dot_to_dot22 fg node n = (Ok (Some [r]), n')
    /\ vtype r
       = TensorType (dtype (vtype x))
           (take (ndim (vtype x) - 1) (shape (vtype x))
            ++ drop 1 (shape (vtype y))).
Proof.
  intros Hop Hin Dx Dy Edt Hdt Hnx Hny.
  pose proof (dense_record _ Dx) as Rx. pose proof (dense_record _ Dy) as Ry.
  unfold local_dot_to_dot22. rewrite Hop, Hin.
  rewrite bool_decide_eq_true_2 by done. cbn [negb].
  assert (existsb (fun i => negb (isinstance_DenseTensorType (vtype i))) [x; y]
          = false) as ->.
  { apply existsb_not_dense. by repeat constructor. }
  unfold unpack2. unfold bind at 1. cbn [ret].
  rewrite bool_decide_eq_true_2 by done. cbn [negb].
  unfold dtype_in. rewrite Edt, bool_decide_eq_true_2 by done.
  assert (Hx12 : length (shape (vtype x)) = 1 \/ length (shape (vtype x)) = 2).
  { unfold ndim in Hnx. apply elem_of_cons in Hnx as [H|Hnx]; [by left|].
    apply elem_of_cons in Hnx as [H|Hnx]; [by right|].
    by apply elem_of_nil in Hnx. }
  assert (Hy12 : length (shape (vtype y)) = 1 \/ length (shape (vtype y)) = 2).
  { unfold ndim in Hny. apply elem_of_cons in Hny as [H|Hny]; [by left|].
    apply elem_of_cons in Hny as [H|Hny]; [by right|].
    by apply elem_of_nil in Hny. }
  clear Hnx Hny. unfold ndim.
  destruct (shape (vtype x)) as [|x0 [|x1 [|? ?]]] eqn:Sx; cbn [length] in *;
    try (exfalso; lia).
  - destruct (shape (vtype y)) as [|y0 [|y1 [|? ?]]] eqn:Sy; cbn [length] in *;
      try (exfalso; lia); cbn [Nat.eqb andb].
    + (* vector, vector *)
      erewrite bind_Ok_eq.
      2:{ by eapply (dimshuffle_Ok x _ _ _ _ [Some 1; x0]); [exact Rx|..]. }
      erewrite bind_Ok_eq.
      2:{ by eapply (dimshuffle_Ok y _ _ _ _ [y0; Some 1]); [exact Ry|..]. }
      unfold call_Dot22. erewrite bind_Ok_eq.
      2:{ erewrite bind_Ok_eq; [reflexivity|].
          eapply (Dot22_make_node_built _ _ _ (Some 1) (Some 1));
            [|reflexivity|reflexivity].
          repeat split; cbn; try done. }
      cbn [default_output node_id op inputs outs].
      erewrite bind_Ok_eq.
      2:{ by eapply (dimshuffle_Ok _ _ DenseTensor _ [Some 1; Some 1] []);
            [reflexivity|..]. }
      eexists _, _. split; [reflexivity|]. done.
    + (* vector, matrix *)
      erewrite bind_Ok_eq.
      2:{ by eapply (dimshuffle_Ok x _ _ _ _ [Some 1; x0]); [exact Rx|..]. }
      unfold call_Dot22. erewrite bind_Ok_eq.
      2:{ erewrite bind_Ok_eq; [reflexivity|].
          eapply (Dot22_make_node_built _ _ _ (Some 1) y1);
            [|reflexivity|by rewrite Sy].
          repeat split; cbn; try done. unfold ndim. by rewrite Sy. }
      cbn [default_output node_id op inputs outs].
      erewrite bind_Ok_eq.
      2:{ by eapply (dimshuffle_Ok _ _ DenseTensor _ [Some 1; y1] [y1]);
            [reflexivity|..]. }
      eexists _, _. split; [reflexivity|]. done.
  - destruct (shape (vtype y)) as [|y0 [|y1 [|? ?]]] eqn:Sy; cbn [length] in *;
      try (exfalso; lia); cbn [Nat.eqb andb].
    + (* matrix, vector *)
      erewrite bind_Ok_eq.
      2:{ by eapply (dimshuffle_Ok y _ _ _ _ [y0; Some 1]); [exact Ry|..]. }
      unfold call_Dot22. erewrite bind_Ok_eq.
      2:{ erewrite bind_Ok_eq; [reflexivity|].
          eapply (Dot22_make_node_built _ _ _ x0 (Some 1));
            [|by rewrite Sx|reflexivity].
          repeat split; cbn; try done. unfold ndim. by rewrite Sx. }
      cbn [default_output node_id op inputs outs].
      erewrite bind_Ok_eq.
      2:{ by eapply (dimshuffle_Ok _ _ DenseTensor _ [x0; Some 1] [x0]);
            [reflexivity|..]. }
      eexists _, _. split; [reflexivity|]. done.
    + (* matrix, matrix *)
      unfold call_Dot22. erewrite bind_Ok_eq.
      2:{ erewrite bind_Ok_eq; [reflexivity|].
          eapply (Dot22_make_node_built _ _ _ x0 y1);
            [|by rewrite Sx|by rewrite Sy].
          repeat split; try done; unfold ndim; by rewrite ?Sx, ?Sy. }
      eexists _, _. split; [reflexivity|]. done.
Qed.

End Rewriter_facts2.

(** X11 at a [Gemm] node whose z and x are rows. *)
Lemma local_gemm_to_gemv_keeps_type_witness :
  Gemm_make_node false
    (map Sym [More_examples.z_row; Example.alpha; More_examples.x_row;
              Example.Y; Example.beta]) 20
  = (Ok More_examples.row_gemm_node, 22)
  /\ exists o r m',
       local_gemm_to_gemv (Example.fgraph_of Example.fused)
         More_examples.row_gemm_node 30
       = (Ok (Some [o]), m')
       /\ vtype o = More_examples.drow
       /\ option_map inputs (owner o) = Some [r]
       /\ option_map op (owner r) = Some gemv_no_inplace.
Proof.
  assert (H : Gemm_make_node false
                (map Sym [More_examples.z_row; Example.alpha;
                          More_examples.x_row; Example.Y; Example.beta]) 20
              = (Ok More_examples.row_gemm_node, 22))
    by (vm_compute; reflexivity).
  split; [exact H|].
  apply (proj1 (local_gemm_to_gemv_keeps_type
                  (Example.fgraph_of Example.fused) _ _ _ _ _ _ _ 30 _ H)).
  left. split; reflexivity.
Defined.

(** X12 at a [Dot] node on the matrix X and a vector. *)
Lemma local_dot_to_dot22_rewrites_witness :
  exists r n',
    local_dot_to_dot22 (Example.fgraph_of Example.fused)
      More_examples.dot_node 30
    = (Ok (Some [r]), n')
    /\ vtype r = More_examples.dvector.
Proof.
  apply (local_dot_to_dot22_rewrites (Example.fgraph_of Example.fused)
           More_examples.dot_node Example.X More_examples.v 30);
    try reflexivity;
    apply (bool_decide_unpack _); vm_compute; exact I.
Defined.

(** ** The canonical list: what the stages do to it *)

Section Canonical_list_facts.
Context `{Ext : Externals}.

(** [appending F]: the computation [F l] does what [F []] does and
    returns [l] followed by what [F []] returns. *)
#[local] Abbreviation appending F :=
  (forall (l : list Entry) (n : ident),
     F l n = bind (F []) (fun added => ret (l ++ added)) n).

Lemma appending_ret_app (e : list Entry) : appending (fun l => ret (l ++ e)).
Proof. done. Qed.

Lemma appending_ret : appending (fun l => ret l).
Proof. intros l n. unfold bind, ret. by rewrite app_nil_r. Qed.

Lemma appending_bind {A} (c : Build A) (K : A -> list Entry -> Build (list Entry)) :
  (forall x, appending (K x)) ->
  appending (fun l => bind c (fun x => K x l)).
Proof.
  intros HK l n. cbn beta. rewrite bind_assoc. apply bind_ext. intros x n' _. apply HK.
Qed.

Lemma appending_seq (F G : list Entry -> Build (list Entry)) :
  appending F -> appending G -> appending (fun l => bind (F l) G).
Proof.
  intros HF HG l n. cbn beta. rewrite !bind_assoc.
  rewrite (bind_cong_l _ _ _ _ (HF l n)), bind_assoc.
  apply bind_ext. intros a0 n1 _. rewrite bind_ret_l.
  rewrite (HG (l ++ a0) n1), (bind_cong_l _ _ _ _ (HG a0 n1)), bind_assoc.
  apply bind_ext. intros a1 n2 _. rewrite bind_ret_l. by rewrite app_assoc.
Qed.

Lemma appending_if (b : bool) (F G : list Entry -> Build (list Entry)) :
  appending F -> appending G -> appending (fun l => if b then F l else G l).
Proof. by destruct b. Qed.

Lemma appending_foldM (f : list Entry -> Var -> Build (list Entry))
    (ins : list Var) :
  (forall i, appending (fun l => f l i)) ->
  appending (fun l => foldM f ins l).
Proof.
  intros Hf. induction ins as [|i ins IH]; cbn [foldM]; [apply appending_ret|].
  apply (appending_seq (fun l => f l i) (fun l => foldM f ins l)); [apply Hf|done].
Qed.

Lemma appending_step
    (self : Var -> Scale -> list Entry -> nat -> Build (list Entry))
    (fg : FunctionGraph) (r : Var) (scale : Scale) (maxclients : nat) :
  (forall x s m, appending (fun l => self x s l m)) ->
  appending (fun l => canonicalize_step self fg r scale l maxclients).
Proof.
  intros Hself. unfold canonicalize_step.
  apply appending_if; [apply appending_ret|].
  apply appending_if.
  { apply (appending_bind _ (fun t l => ret (l ++ [Bare t]))). by intros. }
  apply (appending_bind _
           (fun (too_many : bool) l => if too_many then _ else _)).
  intros too_many. apply appending_if; [apply appending_ret_app|].
  apply appending_if.
  { apply (appending_bind _ (fun i0 l => bind (self i0 scale l 1) _)).
    intros i0. apply (appending_seq (fun l => self i0 scale l 1)); [apply Hself|].
    apply (appending_bind _ (fun i1 l => bind _ (fun nscale => self i1 nscale l 1))).
    intros i1. apply (appending_bind _ (fun nscale l => self i1 nscale l 1)).
    intros nscale. apply Hself. }
  apply appending_if.
  { apply appending_foldM. intros i. apply Hself. }
  apply appending_if.
  { apply (appending_bind _ (fun i0 l => bind _ (fun nscale => self i0 nscale l 1))).
    intros i0. apply (appending_bind _ (fun nscale l => self i0 nscale l 1)).
    intros nscale. apply Hself. }
  apply appending_if; [|apply appending_ret_app].
  apply (appending_bind _
           (fun cls l => match cls with
                         | None => ret (l ++ [Pair scale r])
                         | Some (scalars, vectors, matrices) => _
                         end)).
  intros [[[scalars vectors] matrices]|]; [|apply appending_ret_app].
  apply appending_if.
  { apply (appending_bind _ (fun _ l => bind _ _)). intros _.
    apply (appending_bind _ (fun m l => bind _ (fun s => self m s l 1))).
    intros m. apply (appending_bind _ (fun s l => self m s l 1)).
    intros s. apply Hself. }
  apply appending_if; [|apply appending_ret_app].
  apply (appending_bind _ (fun _ l => bind _ _)). intros _.
  apply (appending_bind _ (fun v l => bind _ (fun s => self v s l 1))).
  intros v. apply (appending_bind _ (fun s l => self v s l 1)).
  intros s. apply Hself.
Qed.

Lemma appending_fuel (fuel : nat) (fg : FunctionGraph) (r : Var) (scale : Scale)
    (maxclients : nat) :
  appending (fun l => canonicalize_fuel fuel fg r scale l maxclients).
Proof.
  revert r scale maxclients.
  induction fuel as [|fuel IH]; intros r scale mc; cbn [canonicalize_fuel].
  - done.
  - apply appending_step. intros x s m. apply IH.
Qed.

(** X13. [_gemm_canonicalize] only appends to the list it is given. Called
    with a list [rval] it creates the nodes, takes the identities and
    raises the exceptions of the call with the empty list, and what it
    returns is [rval] followed by the entries which that call returns: the
    entries added do not depend on the entries already there, and no entry
    is removed or changed. *)
Theorem gemm_canonicalize_appends (fg : FunctionGraph) (r : Var)
    (scale : Scale) (rval : list Entry) (maxclients : nat) (n : ident) :
  _gemm_canonicalize fg r scale rval maxclients n
  = bind (_gemm_canonicalize fg r scale [] maxclients)
      (fun added => ret (rval ++ added)) n
  /\ forall rval' n',
       _gemm_canonicalize fg r scale rval maxclients n = (Ok rval', n') ->
       exists added, rval' = rval ++ added.
Proof.
  assert (H : _gemm_canonicalize fg r scale rval maxclients n
              = bind (_gemm_canonicalize fg r scale [] maxclients)
                  (fun added => ret (rval ++ added)) n)
    by apply appending_fuel.
  split; [exact H|]. intros rval' n'. rewrite H.
  intros (added & n1 & _ & [<- _]%ret_Ok_inv)%bind_Ok_inv. eauto.
Qed.

(** X14. A node whose first output is not a float or complex tensor of rank 1
    or 2 is never rewritten: [_gemm_from_node2] returns nothing for it,
    and builds nothing. *)
Theorem gemm_from_node2_skips_other_types (fg : FunctionGraph) (node : Apply)
    (out0 : Var) (n : ident) :
  outputs node !! 0 = Some out0 ->
  isinstance_TensorType (vtype out0) = false
  \/ (ndim (vtype out0) ∉ [1; 2])
  \/ (dtype (vtype out0) ∉ gemm_dtypes) ->
  _gemm_from_node2 fg node n = (Ok None, n).
Proof.
  intros Hout Hty. unfold _gemm_from_node2, getitem. rewrite Hout.
  rewrite bind_ret_l.
  assert (exists lst, _gemm_canonicalize fg out0 (Num 1) [] 0 n = (Ok lst, n)
                      /\ length lst <= 1) as (lst & Hc & Hlen).
  { rewrite gemm_canonicalize_unfold. unfold canonicalize_step.
    destruct (isinstance_TensorType (vtype out0)) eqn:Et; cbn [negb].
    2:{ exists []. split; [done|cbn; lia]. }
    destruct Hty as [?|Hty]; [done|].
    assert (negb (bool_decide (ndim (vtype out0) ∈ [1; 2]))
            || negb (dtype_in (dtype (vtype out0)) gemm_dtypes) = true) as ->.
    { apply orb_true_iff. unfold dtype_in.
      destruct Hty as [H|H]; [left|right];
        by rewrite bool_decide_eq_false_2. }
    exists [Bare out0]. split; [|cbn; lia].
    unfold scaled. cbn [scale_eq].
    assert (PrimFloat.eqb 1 1 = true) as -> by reflexivity. done. }
  erewrite bind_Ok_eq by exact Hc.
  assert ((1 <? length lst) = false) as -> by (apply Nat.ltb_ge; lia).
  done.
Qed.

Lemma matching_dtypes_pairs (lst : list Entry) (n : ident) :
  matching_dtypes lst n
  = matching_dtypes
      (List.filter (fun e => match e with Pair _ _ => true | Bare _ => false end)
         lst) n.
Proof.
  revert n. induction lst as [|[s M|v] lst IH]; intros n; cbn; [done| |apply IH].
  apply bind_ext. intros sm0 n1 _.
  destruct (bool_decide _); [|apply IH].
  apply bind_ext. intros c n2 _. apply bind_cong_l, IH.
Qed.

(** X15. [_gemm_from_factored_list] looks at the tuples of the list only. The
    entries that are single variables, which is what [_gemm_canonicalize]
    appends for a term that is not a float or complex tensor of rank 1 or
    2, take no part in it: with them or without them the function
    returns the same candidate, whose sum has none of them among its
    terms. *)
Theorem gemm_from_factored_list_ignores_bare (fg : FunctionGraph)
    (lst : list Entry) (n : ident) :
  _gemm_from_factored_list fg lst n
  = _gemm_from_factored_list fg
      (List.filter (fun e => match e with Pair _ _ => true | Bare _ => false end)
         lst) n.
Proof.
  unfold _gemm_from_factored_list.
  apply bind_cong_l, matching_dtypes_pairs.
Qed.

Lemma merge_all_fixed (fuel : nat) (lst : list Entry) (n : ident) :
  length lst < fuel -> NoDup (term_ids lst) ->
  merge_all fuel lst n = (Ok lst, n).
Proof.
  revert lst. induction fuel as [|fuel IH]; intros lst Hf Hnd; [lia|].
  destruct lst as [|[s M|v] rest]; cbn [merge_all]; [done| |].
  - cbn in Hnd, Hf. apply NoDup_cons in Hnd as [Hnin Hnd].
    assert (Habs : forall n, absorb s M rest n = (Ok (s, rest), n)).
    { clear IH Hf Hnd. induction rest as [|[sj Mj|v] rest IHr]; intros n';
        cbn; [done| |].
      - cbn in Hnin. apply not_elem_of_cons in Hnin as [Hne Hnin].
        unfold is_. rewrite bool_decide_eq_false_2 by done.
        unfold bind. by rewrite (IHr Hnin).
      - unfold bind. by rewrite (IHr Hnin). }
    unfold bind at 1. rewrite Habs. unfold bind.
    by rewrite IH by (done || lia).
  - cbn in Hnd, Hf. unfold bind. by rewrite IH by (done || lia).
Qed.

(** X16. A list in which no term occurs twice is a fixed point of
    [_factor_canonicalized]: it is returned as it is and nothing is
    built. Hence running the deduplication on its own result changes
    nothing. *)
Theorem factor_canonicalized_fixed_point (lst : list Entry) (n : ident) :
  (NoDup (term_ids lst) -> _factor_canonicalized lst n = (Ok lst, n))
  /\ forall lst' n',
       _factor_canonicalized lst n = (Ok lst', n') ->
       _factor_canonicalized lst' n' = (Ok lst', n').
Proof.
  split.
  - intros Hnd. rewrite factor_canonicalized_merge_all.
    apply merge_all_fixed; [lia|done].
  - intros lst' n' H. rewrite factor_canonicalized_merge_all in H.
    pose proof (merge_all_outcome (S (length lst)) lst n ltac:(lia)) as Ho.
    rewrite H in Ho. destruct Ho as [Hnd _].
    rewrite factor_canonicalized_merge_all.
    apply merge_all_fixed; [lia|done].
Qed.

End Canonical_list_facts.

(** X14 at the sum of two integer matrices. *)
Lemma gemm_from_node2_skips_other_types_witness :
  _gemm_from_node2 (Example.fgraph_of Example.fused)
    More_examples.integer_add_node 30
  = (Ok None, 30).
Proof.
  apply (gemm_from_node2_skips_other_types _ _
           (default_output More_examples.integer_add_node));
    [reflexivity|].
  right. right. apply (bool_decide_unpack _). vm_compute. exact I.
Defined.

Section Candidate_facts.
Context `{Ext : Externals}.

(** [absorbed old M]: [old] is [M], or [M] is the output of a
    [DimShuffle] node whose input is [old]. *)
#[local] Abbreviation absorbed old M :=
  (old = M
   \/ exists a, owner M = Some a
                /\ isinstance_DimShuffle (op a) = true
                /\ inputs a !! 0 = Some old).

Lemma dimshuffled_dot22_Ok (L alpha MM beta : Var) (lp gp : list (option nat))
    (n n' : ident) (res : option (list Var * Var)) :
  dimshuffled_dot22 L alpha MM beta lp gp n = (Ok res, n') ->
  exists r, res = Some ([r], MM).
Proof.
  unfold dimshuffled_dot22.
  intros ([MMl MMr] & n1 & _ & H)%bind_Ok_inv.
  apply bind_Ok_inv in H as (L' & n2 & _ & H).
  apply bind_Ok_inv in H as (g & n3 & _ & H).
  apply bind_Ok_inv in H as (r & n4 & _ & [<- _]%ret_Ok_inv). eauto.
Qed.

Lemma owner_op_is_true (r : Var) (o : Op) :
  owner_op_is r o = true -> option_map op (owner r) = Some o.
Proof.
  unfold owner_op_is. destruct (owner r) as [a|]; [|done].
  intros H%bool_decide_eq_true. cbn. by rewrite H.
Qed.

Lemma beta_L_plus_alpha_M_flip_outcome (flips : nat) (beta L alpha M : Var)
    (n n' : ident) (res : option (list Var * Var)) :
  _beta_L_plus_alpha_M_flip flips beta L alpha M n = (Ok res, n') ->
  match res with
  | Some (rval, old_dot22) =>
      length rval = 1
      /\ option_map op (owner old_dot22) = Some _dot22
      /\ (absorbed old_dot22 M \/ (0 < flips /\ absorbed old_dot22 L))
  | None =>
      n' = n
      /\ owner_op_is M _dot22 = false
      /\ (0 < flips -> owner_op_is L _dot22 = false)
  end.
Proof.
  revert beta L alpha M n.
  induction flips as [|k IH]; intros beta L alpha M n;
    cbn [_beta_L_plus_alpha_M_flip];
    (destruct (owner_op_is M _dot22) eqn:EM;
     [ intros ([Ml Mr] & n1 & _ & H)%bind_Ok_inv;
       apply bind_Ok_inv in H as (g & n2 & _ & [<- _]%ret_Ok_inv);
       split; [done|]; split; [by apply owner_op_is_true|]; left; by left
     | ]);
    intros (td & n1 & [Htd <-]%lift_Ok_inv & H)%bind_Ok_inv.
  - (* no flip left *)
    assert (Hflip : forall m r m', @ret ident _ (@None (list Var * Var)) m
                                   = (Ok r, m') -> r = None /\ m' = m).
    { by intros m r m' [<- <-]%ret_Ok_inv. }
    destruct td as [[o MM]|].
    + assert (Habs : absorbed MM M
                     /\ option_map op (owner MM) = Some _dot22).
      { destruct (owner M) as [a|]; [|done].
        destruct (isinstance_DimShuffle (op a)) eqn:Ed; [|done].
        destruct (inputs a) as [|MM' ?] eqn:Ei; [done|].
        destruct (owner MM') as [b|] eqn:Eb; [|done].
        destruct (isinstance_Dot22 (op b)) eqn:E22; [|done].
        injection Htd as <- <-. split.
        - right. exists a. by rewrite Ei.
        - rewrite Eb. cbn. by destruct (op b). }
      destruct Habs as [Habs H22].
      repeat (destruct (bool_decide _) in H
              || destruct (_ =? _) in H);
        try (apply dimshuffled_dot22_Ok in H as (r & ->);
             split; [done|]; split; [done|]; by left).
      apply Hflip in H as [-> ->]. split; [done|]. split; [done|lia].
    + apply Hflip in H as [-> ->]. split; [done|]. split; [done|lia].
  - (* one more flip *)
    assert (Hflip : _beta_L_plus_alpha_M_flip k alpha M beta L n = (Ok res, n') ->
                    match res with
                    | Some (rval, old_dot22) =>
                        length rval = 1
                        /\ option_map op (owner old_dot22) = Some _dot22
                        /\ (absorbed old_dot22 M
                            \/ (0 < S k /\ absorbed old_dot22 L))
                    | None =>
                        n' = n
                        /\ owner_op_is M _dot22 = false
                        /\ (0 < S k -> owner_op_is L _dot22 = false)
                    end).
    { intros Hk%IH. destruct res as [[rval old]|].
      - destruct Hk as (? & ? & [?|[_ ?]]); (split; [done|]; split; [done|]).
        + right. split; [lia|done].
        + by left.
      - destruct Hk as (? & ? & _). done. }
    assert (Hfin : _beta_L_plus_alpha_M_flip k alpha M beta L n = (Ok res, n') ->
                   match res with
                   | Some (rval, old_dot22) =>
                       length rval = 1
                       /\ option_map op (owner old_dot22) = Some _dot22
                       /\ (absorbed old_dot22 M
                           \/ (0 < S k /\ absorbed old_dot22 L))
                   | None =>
                       n' = n
                       /\ false = false
                       /\ (0 < S k -> owner_op_is L _dot22 = false)
                   end).
    { intros Hk%Hflip. destruct res as [[rval old]|]; [done|].
      destruct Hk as (? & _ & ?). done. }
    destruct td as [[o MM]|]; [|by apply Hfin].
    assert (Habs : absorbed MM M
                   /\ option_map op (owner MM) = Some _dot22).
    { destruct (owner M) as [a|]; [|done].
      destruct (isinstance_DimShuffle (op a)) eqn:Ed; [|done].
      destruct (inputs a) as [|MM' ?] eqn:Ei; [done|].
      destruct (owner MM') as [b|] eqn:Eb; [|done].
      destruct (isinstance_Dot22 (op b)) eqn:E22; [|done].
      injection Htd as <- <-. split.
      - right. exists a. by rewrite Ei.
      - rewrite Eb. cbn. by destruct (op b). }
    destruct Habs as [Habs H22].
    repeat (destruct (bool_decide _) in H
            || destruct (_ =? _) in H);
      try (apply dimshuffled_dot22_Ok in H as (r & ->);
           split; [done|]; split; [done|]; by left).
    by apply Hfin.
Qed.

(** X17. What [_beta_L_plus_alpha_M] can return. A candidate is a list of one
    variable, and the variable returned with it as the absorbed product is
    the output of a [Dot22] node: it is M itself or what a [DimShuffle]
    owning M is applied to, or, when the flip is allowed, the same for L.
    When nothing is returned nothing was built, and neither M nor, with
    the flip, L is the output of a [Dot22] node. *)
Theorem beta_L_plus_alpha_M_outcome (fg : FunctionGraph)
    (beta L alpha M : Var) (recurse_flip : bool) (n n' : ident)
    (res : option (list Var * Var)) :
  _beta_L_plus_alpha_M fg beta L alpha M recurse_flip n = (Ok res, n') ->
  match res with
  | Some (rval, old_dot22) =>
      length rval = 1
      /\ option_map op (owner old_dot22) = Some _dot22
      /\ (absorbed old_dot22 M
          \/ (recurse_flip = true /\ absorbed old_dot22 L))
  | None =>
      n' = n
      /\ owner_op_is M _dot22 = false
      /\ (recurse_flip = true -> owner_op_is L _dot22 = false)
  end.
Proof.
  unfold _beta_L_plus_alpha_M. intros H%beta_L_plus_alpha_M_flip_outcome.
  destruct res as [[rval old]|].
  - destruct H as (? & ? & [?|[Hf ?]]); (split; [done|]; split; [done|]).
    + by left.
    + right. split; [|done]. by destruct recurse_flip; [|lia].
  - destruct H as (? & ? & Hf). split; [done|]. split; [done|].
    intros ->. apply Hf. lia.
Qed.

End Candidate_facts.

(** X17 at the worked example. *)
Lemma beta_L_plus_alpha_M_outcome_witness :
  _beta_L_plus_alpha_M (Example.fgraph_of Example.root) Example.beta Example.Z
    Example.alpha Example.dot22_XY true 17
  = (Ok (Some ([Example.fused], Example.dot22_XY)), 19)
  /\ option_map op (owner Example.dot22_XY) = Some _dot22.
Proof.
  assert (H : _beta_L_plus_alpha_M (Example.fgraph_of Example.root)
                Example.beta Example.Z Example.alpha Example.dot22_XY true 17
              = (Ok (Some ([Example.fused], Example.dot22_XY)), 19))
    by (vm_compute; reflexivity).
  split; [exact H|].
  exact (proj1 (proj2 (beta_L_plus_alpha_M_outcome _ _ _ _ _ _ _ _ _ H))).
Defined.

(** ** GemmOptimizer.apply: its counters *)

Section Optimizer_counters.
Context `{Ext : Externals}.
Variable io_toposort : list Var -> list Var -> list Apply.
Variable replace_all_validate_remove :
  FunctionGraph -> list (Var * Var) -> list Var ->
  Result unit * FunctionGraph * list Apply.

Lemma pass_counters (fuel : nat) (nodelist : list Apply) (st st' : OptState)
    (did did' : bool) :
  pass replace_all_validate_remove fuel nodelist st did = Ok (st', did') ->
  nb_iter (st_counters st') = nb_iter (st_counters st)
  /\ nb_replacement_didn_t_remove (st_counters st)
     <= nb_replacement_didn_t_remove (st_counters st')
  /\ (st_warned st' = true <->
      st_warned st = true
      \/ nb_replacement_didn_t_remove (st_counters st)
         < nb_replacement_didn_t_remove (st_counters st')).
Proof.
  revert nodelist st did. induction fuel as [|fuel IH];
    intros nodelist st did; [done|].
  cbn [pass]. destruct nodelist as [|node nodelist].
  { intros [= <- <-]. split; [done|]. split; [done|].
    split; [auto|intros [?|?]; [done|lia]]. }
  destruct (negb (is_candidate node)); [apply IH|].
  destruct (negb (bool_decide _)); [apply IH|].
  destruct (_gemm_from_node2 _ _ _) as [[[[new old]|]|e|] n1].
  - destruct (negb _); [done|].
    destruct (replace_all_validate_remove _ _ _) as [[[[]|e|] fg] imported];
      [| |done].
    + intros (H1 & H2 & H3)%IH. cbn in *. done.
    + destruct e; try done; intros (H1 & H2 & H3)%IH; cbn in *.
      * done.
      * split; [done|]. split; [lia|]. split; [intros _; right; lia|].
        intros _. apply H3. by left.
  - intros (H1 & H2 & H3)%IH. cbn in *. done.
  - destruct e; try done. intros (H1 & H2 & H3)%IH. cbn in *. done.
  - done.
Qed.

Lemma while_counters (fuel : nat) (st res : OptState) :
  while_did_something io_toposort replace_all_validate_remove fuel st = Ok res ->
  nb_iter (st_counters st) < nb_iter (st_counters res)
  /\ nb_iter (st_counters res) + nb_replacement (st_counters st)
     <= nb_iter (st_counters st) + nb_replacement (st_counters res) + 1
  /\ nb_replacement_didn_t_remove (st_counters st)
     <= nb_replacement_didn_t_remove (st_counters res)
  /\ (st_warned res = true <->
      st_warned st = true
      \/ nb_replacement_didn_t_remove (st_counters st)
         < nb_replacement_didn_t_remove (st_counters res)).
Proof.
  revert st. induction fuel as [|fuel IH]; intros st; [done|].
  rewrite while_unfold.
  destruct (pass _ fuel _ _ false) as [[st1 d]|e|] eqn:Hp; [|done|done].
  pose proof (pass_did_something _ _ _ _ _ _ _ Hp) as [Hle Hiff].
  pose proof (pass_counters _ _ _ _ _ _ Hp) as (Hit & Hdr & Hw).
  cbn in Hle, Hiff, Hit, Hdr, Hw.
  destruct d.
  - intros (H1 & H2 & H4 & H3)%IH.
    assert (nb_replacement (st_counters st) < nb_replacement (st_counters st1))
      by (destruct Hiff as [[?|?] _]; done).
    split; [lia|]. split; [lia|]. split; [lia|]. rewrite H3, Hw.
    split; [intros [[?|?]|?]; [by left|right; lia|right; lia]|].
    intros [?|?]; [by left; left|].
    destruct (decide (nb_replacement_didn_t_remove (st_counters st)
                      < nb_replacement_didn_t_remove (st_counters st1)));
      [left; by right|right; lia].
  - intros [= <-]. split; [lia|]. split; [lia|]. split; [lia|]. exact Hw.
Qed.

(** X18. When [GemmOptimizer.apply] returns, it has made at least one pass and
    at most one pass more than it made replacements, and [self.warned] is
    set exactly if it was set before or a replacement raised
    [ReplacementDidNotRemoveError]. *)
Theorem gemm_optimizer_counters (fuel : nat) (warned : bool)
    (fgraph : FunctionGraph) (next : ident) (res : OptState) :
  GemmOptimizer_apply io_toposort replace_all_validate_remove fuel warned
    fgraph next = Ok res ->
  1 <= nb_iter (st_counters res)
  /\ nb_iter (st_counters res) <= nb_replacement (st_counters res) + 1
  /\ (st_warned res = true <->
      warned = true \/ 0 < nb_replacement_didn_t_remove (st_counters res)).
Proof.
  unfold GemmOptimizer_apply. intros (H1 & H2 & _ & H3)%while_counters.
  cbn in *. split; [lia|]. split; [lia|done].
Qed.

Lemma pass_skips (fuel : nat) (nodelist : list Apply) (st : OptState)
    (did : bool) :
  length nodelist < fuel ->
  Forall (fun node => is_candidate node = false
                      \/ node_id node ∉ apply_nodes (st_fgraph st)) nodelist ->
  pass replace_all_validate_remove fuel nodelist st did = Ok (st, did).
Proof.
  revert nodelist. induction fuel as [|fuel IH]; intros nodelist Hf Hall; [lia|].
  destruct nodelist as [|node nodelist]; [done|].
  apply Forall_cons in Hall as [Hn Hall]. cbn in Hf. cbn [pass].
  destruct (is_candidate node) eqn:Ec; cbn [negb]; [|apply IH; [lia|done]].
  destruct Hn as [?|Hn]; [done|].
  rewrite bool_decide_eq_false_2 by done. cbn [negb]. apply IH; [lia|done].
Qed.

(** X19. On a graph in which no node of the order is an [Elemwise] add, sub,
    neg or mul node of the graph, [GemmOptimizer.apply] returns after one
    pass: the graph is the one it was given, nothing was built, and all
    counters but [nb_iter] are zero. *)
Theorem gemm_optimizer_nothing_to_do (fuel : nat) (warned : bool)
    (fgraph : FunctionGraph) (next : ident) :
  let nodelist := io_toposort (fg_inputs fgraph) (fg_outputs fgraph) in
  Forall (fun node => is_candidate node = false
                      \/ node_id node ∉ apply_nodes fgraph) nodelist ->
  length nodelist + 1 < fuel ->
  GemmOptimizer_apply io_toposort replace_all_validate_remove fuel warned
    fgraph next
  = Ok (mkOptState fgraph next (mkCounters 1 0 0 0 0) warned).
Proof.
  intros nodelist Hall Hf. unfold GemmOptimizer_apply.
  destruct fuel as [|fuel]; [lia|]. rewrite while_unfold.
  cbn [count_iter st_fgraph st_next st_counters st_warned nb_iter nb_replacement
       nb_replacement_didn_t_remove nb_inconsistency_make
       nb_inconsistency_replace].
  rewrite pass_skips; [done| |].
  - rewrite length_rev. fold nodelist. lia.
  - apply Forall_rev. exact Hall.
Qed.

End Optimizer_counters.

(** X18 at the worked example. *)
Lemma gemm_optimizer_counters_witness :
  GemmOptimizer_apply Example.io_toposort Example.replace_all_validate_remove
    10 false (Example.fgraph_of Example.root) 17
  = Ok Example.optimized
  /\ 1 <= nb_iter (st_counters Example.optimized)
  /\ nb_iter (st_counters Example.optimized)
     <= nb_replacement (st_counters Example.optimized) + 1
  /\ (st_warned Example.optimized = true
      <-> false = true
          \/ 0 < nb_replacement_didn_t_remove (st_counters Example.optimized)).
Proof.
  assert (H : GemmOptimizer_apply Example.io_toposort
                Example.replace_all_validate_remove 10 false
                (Example.fgraph_of Example.root) 17
              = Ok Example.optimized)
    by (vm_compute; reflexivity).
  split; [exact H|].
  exact (gemm_optimizer_counters _ _ _ _ _ _ _ H).
Defined.

(** X19 at the graph of [_dot22(X, Y)] alone. *)
Lemma gemm_optimizer_nothing_to_do_witness :
  GemmOptimizer_apply Example.io_toposort Example.replace_all_validate_remove
    3 false More_examples.dot22_graph 20
  = Ok (mkOptState More_examples.dot22_graph 20 (mkCounters 1 0 0 0 0) false).
Proof.
  apply (gemm_optimizer_nothing_to_do Example.io_toposort
           Example.replace_all_validate_remove 3 false
           More_examples.dot22_graph 20).
  - assert (E : Example.io_toposort (fg_inputs More_examples.dot22_graph)
                  (fg_outputs More_examples.dot22_graph)
                = [mkApply 5 Dot22 [Example.X; Example.Y]
                     [(6, Example.dmatrix)]])
      by (vm_compute; reflexivity).
    rewrite E. constructor; [left; reflexivity|constructor].
  - vm_compute. lia.
Defined.

(** ** [perform]: what the destructive variants write *)

Section More_perform_facts.
Context {ndarray : Type} `{NP : Numpy ndarray} `{NO : Numpy_outer ndarray}.

Lemma untouched_but_refl (z : loc) (n0 : nat) (σ : list ndarray) :
  n0 <= length σ -> untouched_but z n0 σ σ.
Proof. by split. Qed.

Lemma untouched_but_trans (z : loc) (n0 : nat) (σ1 σ2 σ3 : list ndarray) :
  untouched_but z n0 σ1 σ2 -> untouched_but z n0 σ2 σ3 ->
  untouched_but z n0 σ1 σ3.
Proof.
  intros [H1 H1'] [H2 H2']. split; [done|].
  intros l Hl Hz. by rewrite H2', H1'.
Qed.

Lemma frame_but_bind {A B} z n0 (Q : A -> Prop) (Q' : B -> Prop)
    (c : Run (ndarray:=ndarray) A) (k : A -> Run (ndarray:=ndarray) B) :
  frame_but (ndarray:=ndarray) z n0 Q c ->
  (forall a, Q a -> frame_but (ndarray:=ndarray) z n0 Q' (k a)) ->
  frame_but (ndarray:=ndarray) z n0 Q' (bind c k).
Proof.
  intros Hc Hk σ Hσ. specialize (Hc σ Hσ). unfold bind.
  destruct (c σ) as [[a|e|] σ1]; [|done|done].
  destruct Hc as [Hu HQ]. specialize (Hk a HQ σ1 (proj1 Hu)).
  destruct (k a σ1) as [r σ2]. destruct Hk as [Hu2 HQ2].
  split; [by eapply untouched_but_trans|done].
Qed.

Lemma frame_but_ret {A} z n0 (Q : A -> Prop) (a : A) :
  Q a -> frame_but (ndarray:=ndarray) z n0 Q (ret a).
Proof. intros HQ σ Hσ. split; [by apply untouched_but_refl|done]. Qed.

Lemma frame_but_raise {A} z n0 (Q : A -> Prop) (e : Exn) :
  frame_but (ndarray:=ndarray) z n0 Q (raise e).
Proof. intros σ Hσ. split; [by apply untouched_but_refl|done]. Qed.

Lemma frame_but_lift {A} z n0 (r : Result A) :
  frame_but (ndarray:=ndarray) z n0 (fun _ => True) (lift r).
Proof. intros σ Hσ. split; [by apply untouched_but_refl|by destruct r]. Qed.

Lemma frame_but_load z n0 (l : loc) :
  frame_but (ndarray:=ndarray) z n0 (fun _ => True) (load l).
Proof.
  intros σ Hσ. unfold load.
  destruct (σ !! l); (split; [by apply untouched_but_refl|done]).
Qed.

Lemma frame_but_write z n0 (z' : loc) (v : ndarray) :
  z' = z \/ n0 <= z' ->
  frame_but (ndarray:=ndarray) z n0 (fun _ => True) (write z' v).
Proof.
  intros Hz σ Hσ. unfold write. cbn. split; [|done]. split.
  - by rewrite length_insert.
  - intros l Hl Hne. apply list_lookup_insert_ne. lia.
Qed.

Lemma frame_but_alloc z n0 (v : ndarray) :
  frame_but (ndarray:=ndarray) z n0 (fun z' => z' = z \/ n0 <= z') (alloc v).
Proof.
  intros σ Hσ. unfold alloc. cbn. split; [|by right]. split.
  - rewrite length_app. lia.
  - intros l Hl _. apply lookup_app_l. lia.
Qed.

Ltac frame_but_any :=
  repeat lazymatch goal with
    | |- frame_but _ _ _ (if ?c then _ else _) => destruct c
    | |- frame_but _ _ _ (match ?c with _ => _ end) => destruct c
    | |- frame_but _ _ _ (bind _ _) =>
        eapply frame_but_bind with (Q := fun _ => True); [|intros ? _]
    | |- frame_but _ _ _ (ret _) => by apply frame_but_ret
    | |- frame_but _ _ _ (raise _) => apply frame_but_raise
    | |- frame_but _ _ _ (lift _) => apply frame_but_lift
    | |- frame_but _ _ _ (load _) => apply frame_but_load
    | |- frame_but _ _ _ (write _ _) => by apply frame_but_write
    | |- frame_but _ _ _ (dot _ _) => unfold dot
    | |- frame_but _ _ _ (outer _ _) => unfold outer
    | |- frame_but _ _ _ (equals _ _) => unfold equals
    | |- frame_but _ _ _ (a_dot _ _ _) => unfold a_dot
    | |- frame_but _ _ _ (shape_at _ _) => unfold shape_at
    | |- frame_but _ _ _ (inplace_op _ _ _) => unfold inplace_op
    end.

Lemma frame_but_accumulate z n0 (z' a x y b : loc) :
  z' = z \/ n0 <= z' ->
  frame_but (ndarray:=ndarray) z n0 (fun _ => True) (accumulate z' a x y b).
Proof. intros Hz. unfold accumulate. frame_but_any. Qed.

Lemma frame_but_broadcast_z z n0 (z' x y : loc) :
  z' = z \/ n0 <= z' ->
  frame_but (ndarray:=ndarray) z n0 (fun z'' => z'' = z \/ n0 <= z'')
    (broadcast_z z' x y).
Proof.
  intros Hz. unfold broadcast_z.
  eapply frame_but_bind with (Q := fun _ => True); [frame_but_any|intros x0 _].
  eapply frame_but_bind with (Q := fun _ => True); [frame_but_any|intros z0 _].
  eapply frame_but_bind with (Q := fun _ => True);
    [frame_but_any|intros needed _].
  destruct needed; [|by apply frame_but_ret].
  do 6 (eapply frame_but_bind with (Q := fun _ => True);
        [frame_but_any|intros ? _]).
  apply frame_but_alloc.
Qed.

(** X20. The destructive [Gemm.perform] writes to no array of the store but
    [z]: whatever it returns or raises, every other array that existed
    before the call has its contents afterwards, and the array handed to
    the output storage is [z] itself or, when [z] had to be broadcast, a
    new array. *)
Theorem perform_inplace_writes_only_z (σ : list ndarray) (z a x y b : loc) :
  (forall l, l < length σ -> l <> z ->
             (perform true [z; a; x; y; b] σ).2 !! l = σ !! l)
  /\ length σ <= length (perform true [z; a; x; y; b] σ).2
  /\ match (perform true [z; a; x; y; b] σ).1 with
     | Ok zout => zout = z \/ length σ <= zout
     | _ => True
     end.
Proof.
  assert (frame_but (ndarray:=ndarray) z (length σ)
            (fun z' => z' = z \/ length σ <= z') (perform true [z; a; x; y; b]))
    as H.
  { assert (Hz : z = z \/ length σ <= z) by (by left).
    unfold perform. cbn [unpack5 negb].
    eapply frame_but_bind with (Q := fun p => p = (z, a, x, y, b));
      [by apply frame_but_ret|intros ? ->].
    do 4 (eapply frame_but_bind with (Q := fun _ => True);
          [unfold assert_; frame_but_any|intros ? _]).
    eapply frame_but_bind with (Q := fun z' => z' = z);
      [by apply frame_but_ret|intros ? ->].
    unfold perform_on.
    eapply frame_but_bind with (Q := fun _ => True);
      [frame_but_any|intros vz _].
    destruct (bool_decide (np_shape vz = [])).
    - do 7 (eapply frame_but_bind with (Q := fun _ => True);
            [frame_but_any|intros ? _]).
      by apply frame_but_ret.
    - eapply frame_but_bind; [by apply frame_but_broadcast_z|intros z' Hz'].
      eapply frame_but_bind with (Q := fun _ => True);
        [by apply frame_but_accumulate|intros ? _].
      by apply frame_but_ret. }
  specialize (H σ (le_n _)). destruct (perform true _ σ) as [r σ'].
  destruct H as [[Hlen Hsame] HQ]. cbn. split; [done|]. split; [done|].
  by destruct r.
Qed.

Lemma frame_but_Ger_tail z n0 (A calpha cx cy : loc) (Q : loc -> Prop) :
  A = z \/ n0 <= A -> Q A ->
  frame_but (ndarray:=ndarray) z n0 Q
    (let* is_one := equals calpha 1 in
     let* _ :=
       if negb is_one then
         let* valpha := load calpha in
         let* o := outer cx cy in
         let* v := lift (np_multiply valpha o) in
         inplace_op np_iadd A v
       else
         let* o := outer cx cy in
         inplace_op np_iadd A o in
     ret A).
Proof.
  intros HA HQ.
  eapply frame_but_bind with (Q := fun _ => True); [frame_but_any|intros i _].
  eapply frame_but_bind with (Q := fun _ => True);
    [|intros ? _; by apply frame_but_ret].
  destruct (negb i); frame_but_any.
Qed.

(** X21. [Ger.perform]. The variant that is not destructive changes no array
    that existed before the call and hands a new array to the output
    storage; the destructive variant writes to no array but [cA], which is
    what it hands to the output storage. *)
Theorem Ger_perform_writes (destructive : bool) (σ : list ndarray)
    (cA calpha cx cy : loc) :
  (forall l, l < length σ -> (destructive = true -> l <> cA) ->
             (Ger_perform destructive [cA; calpha; cx; cy] σ).2 !! l = σ !! l)
  /\ length σ <= length (Ger_perform destructive [cA; calpha; cx; cy] σ).2
  /\ match (Ger_perform destructive [cA; calpha; cx; cy] σ).1 with
     | Ok zout => if destructive then zout = cA else length σ <= zout
     | _ => True
     end.
Proof.
  set (z := if destructive then cA else length σ).
  assert (frame_but (ndarray:=ndarray) z (length σ)
            (fun z' => if destructive then z' = cA else length σ <= z')
            (Ger_perform destructive [cA; calpha; cx; cy])) as H.
  { unfold Ger_perform. cbn [unpack4].
    eapply frame_but_bind with (Q := fun p => p = (cA, calpha, cx, cy));
      [by apply frame_but_ret|intros ? ->].
    eapply frame_but_bind
      with (Q := fun A => (A = z \/ length σ <= A)
                          /\ if destructive then A = cA else length σ <= A).
    - unfold z. destruct destructive.
      + apply frame_but_ret. split; [by left|done].
      + unfold copy.
        eapply frame_but_bind with (Q := fun _ => True);
          [frame_but_any|intros v _].
        intros σ' Hσ'. unfold alloc. cbn. split; [|split; [right|]; lia].
        split; [rewrite length_app; lia|].
        intros l Hl _. apply lookup_app_l. lia.
    - intros A [HA HQ]. by apply frame_but_Ger_tail. }
  specialize (H σ (le_n _)).
  destruct (Ger_perform destructive _ σ) as [r σ'].
  destruct H as [[Hlen Hsame] HQ]. cbn. split; [|split; [done|by destruct r]].
  intros l Hl Hne. apply Hsame; [done|]. unfold z.
  destruct destructive; [by apply Hne|lia].
Qed.

(** X22. The two variants of [Ger.perform] compute the same: on four arrays
    of the store they leave the same value in the output storage, or raise
    the same exception. This holds also when [cA] is one of the other
    arrays, since the product is computed before [cA] is written. *)
Theorem Ger_perform_variants_agree (σ : list ndarray) (cA calpha cx cy : loc) :
  cA < length σ -> calpha < length σ -> cx < length σ -> cy < length σ ->
  output_value (Ger_perform true [cA; calpha; cx; cy] σ)
  = output_value (Ger_perform false [cA; calpha; cx; cy] σ).
Proof.
  intros HA Ha Hx Hy.
  destruct (lookup_lt_is_Some_2 σ cA HA) as [vA EA].
  destruct (lookup_lt_is_Some_2 σ calpha Ha) as [va Ea].
  destruct (lookup_lt_is_Some_2 σ cx Hx) as [vx Ex].
  destruct (lookup_lt_is_Some_2 σ cy Hy) as [vy Ey].
  assert (EA' : (σ ++ [vA]) !! length σ = Some vA) by apply list_lookup_middle, eq_refl.
  assert (Ea' : (σ ++ [vA]) !! calpha = Some va) by (by rewrite lookup_app_l).
  assert (Ex' : (σ ++ [vA]) !! cx = Some vx) by (by rewrite lookup_app_l).
  assert (Ey' : (σ ++ [vA]) !! cy = Some vy) by (by rewrite lookup_app_l).
  unfold Ger_perform, unpack4, copy, alloc, equals, outer, inplace_op, load,
    write, lift, bind, ret, output_value.
  cbn. rewrite EA, Ea, Ea'. cbn.
  destruct (np_equals_float va 1) as [[]| |]; cbn; try done;
    rewrite ?Ea, ?Ea', ?Ex, ?Ex', ?Ey, ?Ey'; cbn;
    destruct (np_outer vx vy) as [o| |]; cbn; try done;
    try (destruct (np_multiply va o) as [v| |]; cbn; try done);
    rewrite ?EA, ?EA'; cbn;
    destruct (np_iadd vA _) as [w| |]; cbn; try done.
  all: by rewrite !list_lookup_insert_eq by (rewrite ?length_app; cbn; lia).
Qed.

End More_perform_facts.

(** X22 at a matrix, the scalar 2 and two vectors. *)
Lemma Ger_perform_variants_agree_witness :
  output_value (Ger_perform true [0; 1; 2; 3] More_examples.ger_arrays)
  = output_value (Ger_perform false [0; 1; 2; 3] More_examples.ger_arrays).
Proof.
  apply (Ger_perform_variants_agree More_examples.ger_arrays 0 1 2 3);
    cbn; lia.
Defined.

(** ** [Gemm.infer_shape] and the shape of what [perform] returns *)

Section Shape_facts.
Context {ndarray : Type} `{NP : Numpy ndarray}.

(** What is assumed of NumPy: [np.broadcast_to] returns an array of the
    shape asked for, and an assignment to [z[:]] and the operators [+=],
    [-=] and [*=] leave the shape of their target as it is. *)
Hypothesis broadcast_to_shape :
  forall v sh w, np_broadcast_to v sh = Ok w -> np_shape w = sh.
Hypothesis setslice_shape :
  forall z v w, np_setslice z v = Ok w -> np_shape w = np_shape z.
Hypothesis iadd_shape :
  forall z v w, np_iadd z v = Ok w -> np_shape w = np_shape z.
Hypothesis isub_shape :
  forall z v w, np_isub z v = Ok w -> np_shape w = np_shape z.
Hypothesis imul_shape :
  forall z v w, np_imul z v = Ok w -> np_shape w = np_shape z.

(** [keeps_shapes c]: whatever [c] does, the arrays of the store keep
    their shapes and no array is added. *)
#[local] Abbreviation keeps_shapes c :=
  (forall σ : list ndarray, map np_shape (c σ).2 = map np_shape σ).

Lemma keeps_shapes_bind {A B} (c : Run (ndarray:=ndarray) A)
    (k : A -> Run (ndarray:=ndarray) B) :
  keeps_shapes c -> (forall a, keeps_shapes (k a)) -> keeps_shapes (bind c k).
Proof.
  intros Hc Hk σ. unfold bind. specialize (Hc σ).
  destruct (c σ) as [[a|e|] σ1]; cbn in *; [|done|done].
  by rewrite Hk.
Qed.

Lemma keeps_shapes_load (l : loc) : keeps_shapes (load l).
Proof. intros σ. unfold load. by destruct (σ !! l). Qed.

Lemma keeps_shapes_inplace_op (f : ndarray -> ndarray -> Result ndarray)
    (z : loc) (v : ndarray) :
  (forall z v w, f z v = Ok w -> np_shape w = np_shape z) ->
  keeps_shapes (inplace_op f z v).
Proof.
  intros Hf σ. unfold inplace_op, load, bind, lift, write.
  destruct (σ !! z) as [vz|] eqn:Ez; [|done].
  destruct (f vz v) as [w| |] eqn:Ew; [|done|done]. cbn.
  rewrite list_fmap_insert, (Hf _ _ _ Ew).
  apply list_insert_id. by rewrite list_lookup_fmap, Ez.
Qed.

Ltac keeps_shapes_any :=
  repeat lazymatch goal with
    | |- forall σ, map np_shape ((if ?c then _ else _) σ).2 = _ => destruct c
    | |- forall σ, map np_shape (bind _ _ σ).2 = _ =>
        apply keeps_shapes_bind; [|intros ?]
    | |- forall σ, map np_shape (ret _ σ).2 = _ => done
    | |- forall σ, map np_shape (raise _ σ).2 = _ => done
    | |- forall σ, map np_shape (lift _ σ).2 = _ => done
    | |- forall σ, map np_shape (load _ σ).2 = _ => apply keeps_shapes_load
    | |- forall σ, map np_shape (dot _ _ σ).2 = _ => unfold dot
    | |- forall σ, map np_shape (equals _ _ σ).2 = _ => unfold equals
    | |- forall σ, map np_shape (a_dot _ _ _ σ).2 = _ => unfold a_dot
    | |- forall σ, map np_shape (inplace_op _ _ _ σ).2 = _ =>
        by apply keeps_shapes_inplace_op
    end.

Lemma keeps_shapes_accumulate (z a x y b : loc) :
  keeps_shapes (accumulate z a x y b).
Proof. unfold accumulate. keeps_shapes_any. Qed.

Lemma shape_at_Ok (l : loc) (k : nat) (σ σ' : list ndarray) (m : nat) :
  shape_at l k σ = (Ok m, σ') ->
  σ' = σ /\ exists v, σ !! l = Some v /\ np_shape v !! k = Some m.
Proof.
  unfold shape_at. intros (v & σ1 & [-> Hv]%load_Ok & H)%bind_Ok_inv.
  destruct (np_shape v !! k) as [m'|] eqn:Em; [|done].
  apply ret_Ok_inv in H as [<- <-]. eauto.
Qed.

Lemma broadcast_z_Ok (z x y : loc) (σ σ' : list ndarray) (z' : loc)
    (vz : ndarray) (z0 z1 : nat) :
  σ !! z = Some vz -> np_shape vz = [z0; z1] ->
  broadcast_z z x y σ = (Ok z', σ') ->
  exists vx vy x0 y1,
    σ !! x = Some vx /\ np_shape vx !! 0 = Some x0
    /\ σ !! y = Some vy /\ np_shape vy !! 1 = Some y1
    /\ ((z' = z /\ σ' = σ /\ x0 <= z0 /\ y1 <= z1)
        \/ exists w, z' = length σ /\ σ' = σ ++ [w]
                     /\ np_shape w = [max z0 x0; max z1 y1]).
Proof.
  intros Ez Sz. unfold broadcast_z.
  intros (x0 & σ1 & [-> (vx & Ex & Hx0)]%shape_at_Ok & H)%bind_Ok_inv.
  apply bind_Ok_inv in H as (z0' & σ1 & [-> (vz' & Ez' & Hz0)]%shape_at_Ok & H).
  rewrite Ez in Ez'. injection Ez' as <-. rewrite Sz in Hz0.
  injection Hz0 as <-.
  apply bind_Ok_inv in H as (needed & σ1 & Hn & H).
  assert (σ1 = σ /\ (needed = true \/
                      (x0 <= z0 /\ exists vy y1, σ !! y = Some vy
                         /\ np_shape vy !! 1 = Some y1 /\ y1 <= z1)))
    as [-> Hneeded].
  { destruct (Nat.ltb_spec z0 x0).
    - apply ret_Ok_inv in Hn as [<- <-]. split; [done|by left].
    - apply bind_Ok_inv in Hn
        as (y1 & σ2 & [-> (vy & Ey & Hy1)]%shape_at_Ok & Hn).
      apply bind_Ok_inv in Hn
        as (z1' & σ2 & [-> (vz' & Ez' & Hz1)]%shape_at_Ok & Hn).
      rewrite Ez in Ez'. injection Ez' as <-. rewrite Sz in Hz1.
      injection Hz1 as <-.
      apply ret_Ok_inv in Hn as [<- <-]. split; [done|].
      destruct (Nat.ltb_spec z1 y1); [by left|right].
      split; [done|]. exists vy, y1. done. }
  destruct needed.
  - apply bind_Ok_inv in H as (vz' & σ1 & [-> Ez']%load_Ok & H).
    apply bind_Ok_inv in H as (x0' & σ1 & [-> (vx' & Ex' & Hx0')]%shape_at_Ok & H).
    apply bind_Ok_inv in H
      as (z0' & σ1 & [-> (vz3 & Ez3 & Hz03)]%shape_at_Ok & H).
    rewrite Ez in Ez3. injection Ez3 as <-. rewrite Sz in Hz03.
    injection Hz03 as <-.
    apply bind_Ok_inv in H as (y1 & σ1 & [-> (vy & Ey & Hy1)]%shape_at_Ok & H).
    apply bind_Ok_inv in H as (z1' & σ1 & [-> (vz'' & Ez'' & Hz1)]%shape_at_Ok & H).
    apply bind_Ok_inv in H as (w & σ1 & [Hw ->]%lift_Ok_inv & H).
    unfold alloc in H. injection H as <- <-.
    rewrite Ez in Ez', Ez''. injection Ez' as <-. injection Ez'' as <-.
    rewrite Sz in Hz1. injection Hz1 as <-.
    rewrite Ex in Ex'. injection Ex' as <-. rewrite Hx0 in Hx0'.
    injection Hx0' as <-.
    exists vx, vy, x0, y1. repeat (split; [done|]). right.
    exists w. repeat (split; [done|]).
    apply broadcast_to_shape in Hw. rewrite Hw.
    by rewrite (Nat.max_comm x0), (Nat.max_comm y1).
  - apply ret_Ok_inv in H as [<- <-].
    destruct Hneeded as [?|(Hx0z0 & vy & y1 & Ey & Hy1 & Hy1z1)]; [done|].
    exists vx, vy, x0, y1. repeat (split; [done|]). left. done.
Qed.

(** X23. [Gemm.infer_shape] gives the shape of what [perform] returns. For
    arrays (z, a, x, y, b) of the store with z of rank 2, when [perform]
    of either variant returns, the array in the output storage has the
    shape that [infer_shape] computes from the shapes of the five inputs:
    the larger of the first lengths of z and x, and the larger of the
    second lengths of z and y. *)
Theorem perform_shape_is_infer_shape (inplace : bool) (σ σ' : list ndarray)
    (z a x y b zout : loc) (vz va vx vy vb : ndarray) :
  σ !! z = Some vz -> σ !! a = Some va -> σ !! x = Some vx ->
  σ !! y = Some vy -> σ !! b = Some vb ->
  length (np_shape vz) = 2 ->
  perform inplace [z; a; x; y; b] σ = (Ok zout, σ') ->
  exists w,
    σ' !! zout = Some w
    /\ Gemm_infer_shape
         [np_shape vz; np_shape va; np_shape vx; np_shape vy; np_shape vb]
       = Ok [np_shape w].
Proof.
  intros Ez Ea Ex Ey Eb Hrank. unfold perform. cbn [unpack5].
  rewrite bind_ret_l.
  intros (va' & σ1 & [-> _]%load_Ok & H)%bind_Ok_inv.
  apply bind_Ok_inv in H as ([] & σ1 & [_ ->]%assert_Ok & H).
  apply bind_Ok_inv in H as (vb' & σ1 & [-> _]%load_Ok & H).
  apply bind_Ok_inv in H as ([] & σ1 & [_ ->]%assert_Ok & H).
  apply bind_Ok_inv in H as (z' & σ1 & Hz' & H).
  destruct (np_shape vz) as [|z0 [|z1 [|? ?]]] eqn:Sz; try done.
  assert (σ1 !! z' = Some vz /\ σ1 !! x = Some vx /\ σ1 !! y = Some vy)
    as (Ez' & Ex' & Ey').
  { destruct inplace; cbn [negb] in Hz'.
    - by apply ret_Ok_inv in Hz' as [<- <-].
    - unfold copy in Hz'.
      apply bind_Ok_inv in Hz' as (v & σ2 & [-> Ev]%load_Ok & Hz').
      unfold alloc in Hz'. injection Hz' as <- <-.
      rewrite Ez in Ev. injection Ev as <-.
      split; [by apply list_lookup_middle|].
      split; (rewrite lookup_app_l; [done|by eapply lookup_lt_Some]). }
  unfold perform_on in H.
  apply bind_Ok_inv in H as (vz' & σ2 & [-> Ez'']%load_Ok & H).
  rewrite Ez' in Ez''. injection Ez'' as <-.
  rewrite Sz in H. rewrite bool_decide_eq_false_2 in H by done.
  apply bind_Ok_inv in H as (z'' & σ2 & Hb & H).
  apply bind_Ok_inv in H as ([] & σ3 & Hacc & [<- <-]%ret_Ok_inv).
  destruct (broadcast_z_Ok _ _ _ _ _ _ _ _ _ Ez' Sz Hb)
    as (vx' & vy' & x0 & y1 & Ex'' & Hx0 & Ey'' & Hy1 & Hcases).
  rewrite Ex' in Ex''. injection Ex'' as <-.
  rewrite Ey' in Ey''. injection Ey'' as <-.
  assert (Hshape : np_shape <$> σ2 !! z'' = Some [max z0 x0; max z1 y1]).
  { destruct Hcases as [(-> & -> & ? & ?)|(w & -> & -> & Sw)].
    - rewrite Ez'. cbn. rewrite Sz. f_equal. f_equal; [|f_equal]; lia.
    - rewrite list_lookup_middle by done. cbn. by rewrite Sw. }
  pose proof (keeps_shapes_accumulate z'' a x y b σ2) as Hk.
  rewrite Hacc in Hk. cbn in Hk.
  assert (Hshape' : np_shape <$> σ3 !! z'' = Some [max z0 x0; max z1 y1]).
  { assert (Hk' : np_shape <$> σ3 = np_shape <$> σ2) by exact Hk.
    by rewrite <- list_lookup_fmap, Hk', list_lookup_fmap. }
  destruct (σ3 !! z'') as [w|]; [|done]. injection Hshape' as Sw.
  exists w. split; [done|].
  unfold Gemm_infer_shape, getitem_result. rewrite Hx0, Hy1, Sw. done.
Qed.

End Shape_facts.

(** The model of float arrays keeps the shape laws assumed above. *)
Lemma float_broadcast_to_shape (v : Float_arrays.ndarray) (sh : list nat)
    (w : Float_arrays.ndarray) :
  Float_arrays.broadcast_to v sh = Ok w -> Float_arrays.arr_shape w = sh.
Proof.
  unfold Float_arrays.broadcast_to.
  destruct (Float_arrays.arr_shape v) as [|r [|c [|]]] eqn:E;
    destruct sh as [|R [|C [|]]]; try discriminate.
  - by intros [= <-].
  - by intros [= <-].
  - destruct (_ && _); [|discriminate]. by intros [= <-].
Qed.

Lemma float_binary_into_shape (f : float -> float -> float)
    (z v w : Float_arrays.ndarray) :
  Float_arrays.binary_into f z v = Ok w ->
  Float_arrays.arr_shape w = Float_arrays.arr_shape z.
Proof.
  unfold Float_arrays.binary_into.
  destruct (Float_arrays.broadcast_to v (Float_arrays.arr_shape z));
    [|discriminate|discriminate].
  by intros [= <-].
Qed.

(** X23 at the arrays of the worked example. *)
Lemma perform_shape_is_infer_shape_witness :
  exists w,
    (perform false [0; 1; 2; 3; 4] Example.arrays).2 !! 5 = Some w
    /\ Gemm_infer_shape [[2; 2]; []; [2; 2]; [2; 2]; []] = Ok [np_shape w].
Proof.
  apply (perform_shape_is_infer_shape (NP:=Float_arrays.float_numpy)
           float_broadcast_to_shape
           (float_binary_into_shape _) (float_binary_into_shape _)
           (float_binary_into_shape _) (float_binary_into_shape _)
           false Example.arrays
           (perform false [0; 1; 2; 3; 4] Example.arrays).2 0 1 2 3 4 5
           (Float_arrays.matrix22 1 2 3 4) (Float_arrays.scalar 2)
           (Float_arrays.matrix22 1 0 0 1) (Float_arrays.matrix22 5 6 7 8)
           (Float_arrays.scalar 1));
    vm_compute; reflexivity.
Defined.

(** ** [_as_scalar] and [BatchedDot] *)

Section Scalar_facts.
Context `{Ext : Externals}.

Lemma dimshuffle_inv (x r : Var) (pattern : list (option nat)) (n n' : ident) :
  dimshuffle x pattern n = (Ok r, n') ->
  exists sh,
    out_static_shape (shape (vtype x)) pattern = Ok sh
    /\ vtype r = TensorType (dtype (vtype x)) sh.
Proof.
  unfold dimshuffle.
  intros (o & n1 & Ho & H)%bind_Ok_inv.
  unfold DimShuffle_init in Ho.
  apply bind_Ok_inv in Ho as ([] & n2 & _ & Ho).
  apply bind_Ok_inv in Ho as ([] & n3 & _ & [<- _]%ret_Ok_inv).
  unfold call_DimShuffle in H.
  apply bind_Ok_inv in H as (a & n4 & Ha & [<- _]%ret_Ok_inv).
  unfold DimShuffle_make_node in Ha.
  apply bind_Ok_inv in Ha as (x' & n5 & Hx & Ha).
  cbn in Hx. destruct (isinstance_TensorType (vtype x)); [|done].
  apply ret_Ok_inv in Hx as [<- <-].
  apply bind_Ok_inv in Ha as ([] & n5 & _ & Ha).
  apply bind_Ok_inv in Ha as (sh & n6 & [Hsh <-]%lift_Ok_inv & Ha).
  unfold mk_Apply in Ha. injection Ha as <- _. exists sh. done.
Qed.

Lemma Elemwise_make_node_rank0 (sop : ScalarOp) (v : Var) (n n1 : ident)
    (a : Apply) :
  ndim (vtype v) = 0 ->
  Elemwise_make_node sop [] [Sym v] n = (Ok a, n1) ->
  ndim (vtype (default_output a)) = 0.
Proof.
  intros H0. unfold Elemwise_make_node. intros H.
  apply bind_Ok_inv in H as (ins & n2 & Hins & H).
  assert (ins = [v] /\ n2 = n) as [-> ->].
  { cbn in Hins. unfold bind, ret, raise in Hins.
    destruct (isinstance_TensorType (vtype v)); by simplify_eq. }
  apply bind_Ok_inv in H as (d & n2 & Hd & H).
  apply lift_Ok_inv in Hd as [Hd <-].
  apply bind_Ok_inv in H as ([] & n3 & Hnil & H).
  cbn in Hnil. apply ret_Ok_inv in Hnil as [_ <-].
  apply bind_Ok_inv in H as (ins & n3 & Hins2 & H).
  assert (ins = [v] /\ n3 = n) as [-> ->].
  { cbn in Hins2. unfold left_complete in Hins2.
    rewrite Nat.max_0_r, Nat.sub_diag in Hins2.
    rewrite bool_decide_eq_true_2 in Hins2 by done.
    unfold bind, ret in Hins2. by simplify_eq. }
  apply bind_Ok_inv in H as (sh & n3 & Hsh & H).
  apply lift_Ok_inv in Hsh as [Hsh <-].
  cbn in Hsh. rewrite H0 in Hsh. cbn in Hsh. injection Hsh as <-.
  apply bind_Ok_inv in H as ([] & n3 & H1 & H).
  apply lift_Ok_inv in H1 as [_ <-].
  apply bind_Ok_inv in H as ([] & n4 & H2 & H).
  apply lift_Ok_inv in H2 as [_ <-].
  unfold mk_Apply in H. cbn in H. by simplify_eq.
Qed.

Lemma cast_rank0 (x r : Var) (d : Dtype) (n n' : ident) :
  ndim (vtype x) = 0 ->
  cast x d n = (Ok r, n') ->
  ndim (vtype r) = 0.
Proof.
  intros H0. unfold cast.
  intros (x' & n1 & Hx & H)%bind_Ok_inv.
  cbn in Hx. destruct (isinstance_TensorType (vtype x)); [|done].
  apply ret_Ok_inv in Hx as [<- <-].
  destruct (bool_decide _); [by apply ret_Ok_inv in H as [<- _]|].
  destruct (_ && _); [done|].
  unfold call_Elemwise in H.
  apply bind_Ok_inv in H as (a & n2 & Ha & [<- _]%ret_Ok_inv).
  by eapply Elemwise_make_node_rank0.
Qed.

(** X24. [_as_scalar] returns nothing, and builds nothing, for a variable
    that is not broadcastable along every axis. A variable it returns is
    of rank 0. When it returns nothing for a variable that is
    broadcastable along every axis, the variable under the [DimShuffle]
    nodes is of an integer dtype that does not upcast to the dtype asked
    for. *)
Theorem as_scalar_outcome (res : Var) (dtype_ : Dtype) (n n' : ident)
    (r : option Var) :
  (all_one (vtype res) = false -> _as_scalar res dtype_ n = (Ok None, n))
  /\ (_as_scalar res dtype_ n = (Ok r, n') ->
      match r with
      | Some rval => all_one (vtype res) = true /\ ndim (vtype rval) = 0
      | None =>
          all_one (vtype res) = false
          \/ exists res', strip_DimShuffle res = Ok res'
                          /\ dtype (vtype res') ∈ integer_dtypes
                          /\ upcast (dtype (vtype res')) dtype_ <> dtype_
      end).
Proof.
  unfold _as_scalar. split.
  - by intros ->.
  - destruct (all_one (vtype res)) eqn:Eall;
      [|intros [<- _]%ret_Ok_inv; by left].
    intros (res' & n1 & [Hs <-]%lift_Ok_inv & H)%bind_Ok_inv.
    apply bind_Ok_inv in H as (rval & n2 & Hrval & H).
    assert (ndim (vtype rval) = 0 /\ dtype (vtype rval) = dtype (vtype res'))
      as [Hr0 Hrd].
    { destruct (Nat.ltb_spec 0 (ndim (vtype res'))).
      - apply dimshuffle_inv in Hrval as (sh & Hsh & ->).
        cbn in Hsh. injection Hsh as <-. done.
      - apply ret_Ok_inv in Hrval as [<- _]. split; [lia|done]. }
    unfold dtype_in in H.
    destruct (bool_decide_reflect (dtype (vtype rval) ∈ integer_dtypes))
      as [Hint|Hint].
    + destruct (bool_decide_reflect
                  (upcast (dtype (vtype res')) dtype_ = dtype_)) as [Hup|Hup].
      * apply bind_Ok_inv in H as (c & n3 & Hc & [<- _]%ret_Ok_inv).
        split; [done|]. by eapply cast_rank0.
      * apply ret_Ok_inv in H as [<- _]. right. exists res'.
        rewrite Hrd in Hint. done.
    + apply ret_Ok_inv in H as [<- _]. done.
Qed.

(** X25. A node [BatchedDot.make_node] returns for two variables: both are of
    rank 2 or 3, the output has the upcast of their dtypes, its static
    shape holds nothing but 1 and [None], and its rank is the sum of the
    two ranks less 3. That is the length of what
    [BatchedDot.infer_shape] returns for shapes of these two ranks, and it
    returns for all of them. *)
Theorem BatchedDot_make_node_rank (x y : Var) (n n' : ident) (node : Apply) :
  BatchedDot_make_node [Sym x; Sym y] n = (Ok node, n') ->
  ndim (vtype x) ∈ [2; 3] /\ ndim (vtype y) ∈ [2; 3]
  /\ exists i sh,
       outs node
       = [(i, TensorType (upcast (dtype (vtype x)) (dtype (vtype y))) sh)]
       /\ length sh = ndim (vtype x) + ndim (vtype y) - 3
       /\ Forall (fun s => s = Some 1 \/ s = None) sh
       /\ forall (A : Type) (xshp yshp : list A),
            length xshp = ndim (vtype x) -> length yshp = ndim (vtype y) ->
            exists out,
              BatchedDot_infer_shape [xshp; yshp] = Ok [out]
              /\ length out = length sh.
Proof.
  unfold BatchedDot_make_node.
  intros (l & n1 & [-> ->]%(mapM_as_tensor_variable_Sym [x; y]) & H)%bind_Ok_inv.
  destruct (existsb _ _); [done|].
  destruct (bool_decide_reflect (ndim (vtype x) ∈ [2; 3])) as [Hx|];
    cbn [negb] in H; [|done].
  destruct (bool_decide_reflect (ndim (vtype y) ∈ [2; 3])) as [Hy|];
    cbn [negb] in H; [|done].
  apply bind_Ok_inv in H as (ups & n2 & Hups & H).
  apply bind_Ok_inv in H as (s00 & n3 & _ & H).
  apply bind_Ok_inv in H as (s10 & n4 & _ & H).
  unfold mk_Apply in H. injection H as <- _.
  split; [done|]. split; [done|]. cbn [outs length seq zip zip_with].
  eexists _, _. split; [reflexivity|].
  assert (Hx' : 2 <= ndim (vtype x) <= 3).
  { apply elem_of_cons in Hx as [->|Hx]; [lia|].
    apply elem_of_cons in Hx as [->|Hx]; [lia|]. by apply elem_of_nil in Hx. }
  assert (Hy' : 2 <= ndim (vtype y) <= 3).
  { apply elem_of_cons in Hy as [->|Hy]; [lia|].
    apply elem_of_cons in Hy as [->|Hy]; [lia|]. by apply elem_of_nil in Hy. }
  unfold ndim in *. split; [|split].
  - cbn [length]. rewrite length_map, length_app, !length_drop, length_take.
    lia.
  - assert (Hall : forall l, Forall (fun s => s = Some 1 \/ s = None)
                               (map one_or_None l)).
    { induction l as [|s l IH]; constructor; [|done].
      unfold one_or_None. destruct (is_one s); auto. }
    apply (Hall (_ :: _)).
  - intros A xshp yshp Lx Ly. unfold BatchedDot_infer_shape. cbn [existsb].
    rewrite Lx, Ly, !bool_decide_eq_true_2 by done. cbn [negb orb].
    eexists. split; [reflexivity|].
    cbn [length].
    rewrite length_map, !length_app, !length_drop, !length_take. lia.
Qed.

End Scalar_facts.

(** X25 at two tensors of rank 3. *)
Lemma BatchedDot_make_node_rank_witness :
  BatchedDot_make_node [Sym More_examples.s3; Sym More_examples.t3] 20
  = (Ok More_examples.batched_node, 22)
  /\ ndim More_examples.dtensor3 ∈ [2; 3].
Proof.
  assert (H : BatchedDot_make_node [Sym More_examples.s3; Sym More_examples.t3]
                20
              = (Ok More_examples.batched_node, 22))
    by (vm_compute; reflexivity).
  split; [exact H|].
  exact (proj1 (BatchedDot_make_node_rank _ _ _ _ _ H)).
Defined.

(** ** Elemwise: the static shape of the output *)

Section Elemwise_facts.
Context `{Ext : Externals}.

Lemma elem_of_remove_dups (x : option nat) (l : list (option nat)) :
  x ∈ remove_dups l <-> x ∈ l.
Proof.
  unfold remove_dups. induction l as [|y l IH]; cbn; [done|].
  destruct (bool_decide_reflect
              (y ∈ fold_right
                     (fun x acc => if bool_decide (x ∈ acc) then acc else x :: acc)
                     [] l)) as [Hin|Hnin];
    rewrite ?elem_of_cons, IH; [|done].
  split; [by right|]. intros [->|?]; [by apply IH|done].
Qed.

Lemma NoDup_remove_dups (l : list (option nat)) : NoDup (remove_dups l).
Proof.
  unfold remove_dups. induction l as [|y l IH]; cbn; [constructor|].
  destruct (bool_decide_reflect
              (y ∈ fold_right
                     (fun x acc => if bool_decide (x ∈ acc) then acc else x :: acc)
                     [] l)); [done|by constructor].
Qed.

Lemma get_most_specialized_shape_cases (shapes : list (option nat)) :
  shapes <> [] ->
  match get_most_specialized_shape shapes with
  | Ok (Some m) =>
      Some m ∈ shapes
      /\ (forall m', Some m' ∈ shapes -> m' = m \/ m' = 1)
      /\ (m = 1 -> None ∉ shapes)
  | Ok None => None ∈ shapes /\ forall m', Some m' ∈ shapes -> m' = 1
  | Raise e =>
      e = ValueError
      /\ exists m1 m2,
           Some m1 ∈ shapes /\ Some m2 ∈ shapes
           /\ m1 <> m2 /\ m1 <> 1 /\ m2 <> 1
  | OutOfFuel => False
  end.
Proof.
  intros Hne. unfold get_most_specialized_shape.
  pose proof (NoDup_remove_dups shapes) as Hnd.
  pose proof (fun x => elem_of_remove_dups x shapes) as Hel.
  destruct (remove_dups shapes) as [|a [|b rest]] eqn:Es.
  { destruct shapes as [|x ?]; [done|].
    specialize (Hel x). rewrite elem_of_nil in Hel.
    exfalso. apply Hel. by left. }
  { (* all the lengths are the same *)
    assert (Hall : forall x, x ∈ shapes -> x = a).
    { intros x Hx%Hel. by apply list_elem_of_singleton in Hx. }
    assert (Ha : a ∈ shapes) by (apply Hel; by left).
    destruct a as [m|].
    - split; [done|]. split.
      + intros m' Hm'%Hall. left. congruence.
      + intros _ HN%Hall. done.
    - split; [done|]. intros m' Hm'%Hall. done. }
  destruct (bool_decide_reflect (a :: b :: rest = [None; Some 1])) as [E1|N1];
    cbn [orb].
  { rewrite E1 in Hel. split; [apply Hel; by left|].
    intros m' Hm'%Hel. apply elem_of_cons in Hm' as [?|Hm']; [done|].
    apply list_elem_of_singleton in Hm'. congruence. }
  destruct (bool_decide_reflect (a :: b :: rest = [Some 1; None])) as [E2|N2].
  { rewrite E2 in Hel. split; [apply Hel; right; by left|].
    intros m' Hm'%Hel. apply elem_of_cons in Hm' as [?|Hm']; [congruence|].
    by apply list_elem_of_singleton in Hm'. }
  pose proof (NoDup_filter (fun x => x <> Some 1 /\ x <> None) _ Hnd) as Hndf.
  pose proof (fun x => list_elem_of_filter
                         (fun x => x <> Some 1 /\ x <> None) (a :: b :: rest) x)
    as Helf.
  destruct (filter _ (a :: b :: rest)) as [|x1 [|x2 frest]] eqn:Ef.
  - (* not possible: two distinct lengths among 1 and None *)
    exfalso.
    assert (Hsmall : forall x, x ∈ a :: b :: rest -> x = Some 1 \/ x = None).
    { intros x Hx. destruct (decide (x = Some 1)); [by left|].
      destruct (decide (x = None)); [by right|].
      exfalso. eapply elem_of_nil, Helf. done. }
    apply NoDup_cons in Hnd as [Hab Hnd]. apply NoDup_cons in Hnd as [Hb Hnd].
    assert (Hrest : rest = []).
    { destruct rest as [|c rest]; [done|]. exfalso.
      assert (a <> b) by (intros ->; apply Hab; by left).
      assert (a <> c) by (intros ->; apply Hab; right; by left).
      assert (b <> c) by (intros ->; apply Hb; by left).
      destruct (Hsmall a ltac:(by left)), (Hsmall b ltac:(right; by left)),
        (Hsmall c ltac:(right; right; by left)); congruence. }
    subst rest.
    assert (a <> b) by (intros ->; apply Hab; by left).
    destruct (Hsmall a ltac:(by left)), (Hsmall b ltac:(right; by left));
      subst; done.
  - (* one known length other than 1 *)
    assert (Hx1 : x1 ∈ a :: b :: rest /\ x1 <> Some 1 /\ x1 <> None).
    { destruct (Helf x1) as [H _]. destruct (H ltac:(by left)) as [? ?]. done. }
    destruct Hx1 as (Hin & H1 & HN). destruct x1 as [m|]; [|done].
    split; [by apply Hel|]. split.
    + intros m' Hm'%Hel. destruct (decide (m' = 1)); [by right|left].
      assert (Some m' ∈ [Some m]) as Hm.
      { apply Helf. split; [|done]. split; congruence. }
      apply list_elem_of_singleton in Hm. congruence.
    + intros ->. done.
  - (* two known lengths other than 1 *)
    split; [done|].
    assert (Hx1 : x1 ∈ a :: b :: rest /\ x1 <> Some 1 /\ x1 <> None).
    { destruct (Helf x1) as [H _]. destruct (H ltac:(by left)) as [? ?]. done. }
    assert (Hx2 : x2 ∈ a :: b :: rest /\ x2 <> Some 1 /\ x2 <> None).
    { destruct (Helf x2) as [H _].
      destruct (H ltac:(right; by left)) as [? ?]. done. }
    destruct Hx1 as (Hin1 & H11 & H1N). destruct Hx2 as (Hin2 & H21 & H2N).
    destruct x1 as [m1|]; [|done]. destruct x2 as [m2|]; [|done].
    exists m1, m2. split; [by apply Hel|]. split; [by apply Hel|].
    apply NoDup_cons in Hndf as [Hne12 _].
    split; [|split; congruence].
    intros ->. apply Hne12. by left.
Qed.

(** X26. [get_most_specialized_shape], which gives the static length of one
    output axis from the static lengths the inputs have on that axis. It
    raises [ValueError] exactly when two inputs have different known
    lengths other than 1. Otherwise it returns the one known length other
    than 1 if there is one; else [None] if some input has an unknown
    length; else 1. It raises nothing else. *)
Theorem get_most_specialized_shape_outcome (shapes : list (option nat)) :
  shapes <> [] ->
  match get_most_specialized_shape shapes with
  | Ok (Some m) =>
      Some m ∈ shapes
      /\ (forall m', Some m' ∈ shapes -> m' = m \/ m' = 1)
      /\ (m = 1 -> None ∉ shapes)
  | Ok None => None ∈ shapes /\ forall m', Some m' ∈ shapes -> m' = 1
  | Raise e =>
      e = ValueError
      /\ exists m1 m2,
           Some m1 ∈ shapes /\ Some m2 ∈ shapes
           /\ m1 <> m2 /\ m1 <> 1 /\ m2 <> 1
  | OutOfFuel => False
  end.
Proof. apply get_most_specialized_shape_cases. Qed.

Lemma sequence_result_raise {A} (l : list (Result A)) (e : Exn) (k : nat) :
  l !! k = Some (Raise e) ->
  (forall r, r ∈ l -> match r with
                      | Ok _ => True
                      | Raise e' => e' = e
                      | OutOfFuel => False
                      end) ->
  sequence_result l = Raise e.
Proof.
  revert k. induction l as [|r l IH]; intros k Hk Hall; [done|].
  cbn. pose proof (Hall r ltac:(by left)) as Hr.
  destruct r as [a|e'|]; [|by subst|done].
  destruct k as [|k]; [done|]. cbn in Hk.
  rewrite (IH k Hk); [done|]. intros r' Hr'. apply Hall. by right.
Qed.

(** X27. [Elemwise.make_node] on two tensors of one rank whose static lengths
    on some axis are known, different, and neither 1: it raises
    [ValueError] and builds nothing. *)
Theorem Elemwise_make_node_incompatible (sop : ScalarOp) (x y : Var)
    (d : Dtype) (k m1 m2 : nat) (n : ident) :
  isinstance_TensorType (vtype x) = true ->
  isinstance_TensorType (vtype y) = true ->
  scalar_output_dtype sop [dtype (vtype x); dtype (vtype y)] = inr d ->
  ndim (vtype x) = ndim (vtype y) ->
  shape (vtype x) !! k = Some (Some m1) ->
  shape (vtype y) !! k = Some (Some m2) ->
  m1 <> m2 -> m1 <> 1 -> m2 <> 1 ->
  Elemwise_make_node sop [] [Sym x; Sym y] n = (Raise ValueError, n).
Proof.
  intros Tx Ty Hd Hrank Hxk Hyk H12 H1 H2.
  unfold Elemwise_make_node.
  erewrite bind_Ok_eq; [|cbn; rewrite Tx, Ty; reflexivity].
  cbn [map]. rewrite Hd. erewrite bind_Ok_eq; [|reflexivity].
  rewrite bool_decide_eq_false_2 by done. rewrite bind_ret_l.
  cbn [foldr map]. rewrite <- Hrank, Nat.max_0_r, Nat.max_id.
  erewrite bind_Ok_eq.
  2:{ cbn [mapM]. unfold left_complete.
      rewrite <- Hrank, Nat.sub_diag, bool_decide_eq_true_2 by done.
      reflexivity. }
  apply bind_Raise_eq. unfold lift. f_equal.
  apply (sequence_result_raise _ _ k).
  - unfold transpose_shapes. rewrite !list_lookup_fmap.
    assert (Hk : k < ndim (vtype x)) by (by eapply lookup_lt_Some).
    rewrite lookup_seq_lt by done. cbn. rewrite Hxk, Hyk. cbn.
    pose proof (get_most_specialized_shape_cases [Some m1; Some m2]
                  ltac:(done)) as Hc.
    destruct (get_most_specialized_shape [Some m1; Some m2]) as [[m|]|e|].
    + destruct Hc as (_ & Hc & _).
      destruct (Hc m1 ltac:(by left)), (Hc m2 ltac:(right; by left));
        congruence.
    + destruct Hc as [_ Hc]. specialize (Hc m1 ltac:(by left)). done.
    + by destruct Hc as [-> _].
    + done.
  - intros r (col & -> & Hcol)%list_elem_of_fmap.
    unfold transpose_shapes in Hcol.
    apply list_elem_of_fmap in Hcol as (j & -> & Hj).
    apply elem_of_seq in Hj as [_ Hj]. cbn in Hj.
    destruct (lookup_lt_is_Some_2 (shape (vtype x)) j Hj) as [sx Hsx].
    destruct (lookup_lt_is_Some_2 (shape (vtype y)) j)
      as [sy Hsy]; [unfold ndim in *; lia|].
    cbn. rewrite Hsx, Hsy. cbn.
    pose proof (get_most_specialized_shape_cases [sx; sy] ltac:(done)) as Hc.
    destruct (get_most_specialized_shape [sx; sy]) as [?|e|]; [done| |done].
    by destruct Hc as [-> _].
Qed.

End Elemwise_facts.

(** X26 at the static lengths 3 and unknown. *)
Lemma get_most_specialized_shape_outcome_witness :
  Some 3 ∈ [Some 3; None]
  /\ (forall m', Some m' ∈ [Some 3; None] -> m' = 3 \/ m' = 1)
  /\ (3 = 1 -> None ∉ [Some 3; None]).
Proof.
  apply (get_most_specialized_shape_outcome [Some 3; None]). discriminate.
Defined.

(** X27 at matrices of two and of three rows. *)
Lemma Elemwise_make_node_incompatible_witness :
  Elemwise_make_node Add []
    [Sym More_examples.two_rows; Sym More_examples.three_rows] 20
  = (Raise ValueError, 20).
Proof.
  apply (Elemwise_make_node_incompatible Add More_examples.two_rows
           More_examples.three_rows float64 0 2 3 20);
    try reflexivity; lia.
Defined.

(** ** Pickling a [Gemm] op *)

Lemma Gemm_init_no_setup (inplace : bool) :
  Gemm_init inplace !! "setup_z_Nz_Sz"%string = None.
Proof. by destruct inplace. Qed.

(** X28. The state of a [Gemm] op survives pickling: [__setstate__] on a new
    object, given what [__getstate__] returned for an op that [__init__]
    built, restores the attributes of that op. The state that
    [__getstate__] returns never holds the key [setup_z_Nz_Sz]. A state
    saved without a [destroy_map] gets one on loading when its [inplace]
    is true, and a state without [inplace] and without [destroy_map]
    cannot be loaded. *)
Theorem Gemm_state_round_trip (inplace : bool) (d dct : Attrs) :
  Gemm_setstate ∅ (Gemm_getstate (Gemm_init inplace)) = Some (Gemm_init inplace)
  /\ Gemm_getstate d !! "setup_z_Nz_Sz"%string = None
  /\ (dct !! "destroy_map"%string = None ->
      dct !! "inplace"%string = Some (AttrBool true) ->
      Gemm_setstate ∅ dct
      = Some (<[ "destroy_map"%string := AttrMap [(0, [0])] ]> dct))
  /\ (dct !! "destroy_map"%string = None ->
      dct !! "inplace"%string = None ->
      Gemm_setstate ∅ dct = None)
  /\ (forall d', Gemm_setstate d dct = Some d' ->
        forall v, d' !! "inplace"%string = Some v -> truthy v = true ->
                  is_Some (d' !! "destroy_map"%string)).
Proof.
  split; [|split; [|split; [|split]]].
  - unfold Gemm_getstate.
    rewrite delete_id by apply Gemm_init_no_setup.
    unfold Gemm_setstate. rewrite (right_id_L ∅ (∪)).
    destruct inplace; by vm_compute.
  - unfold Gemm_getstate. apply lookup_delete_eq.
  - intros Hd Hi. unfold Gemm_setstate. rewrite (right_id_L ∅ (∪)).
    by rewrite Hd, Hi.
  - intros Hd Hi. unfold Gemm_setstate. rewrite (right_id_L ∅ (∪)).
    by rewrite Hd, Hi.
  - intros d'. unfold Gemm_setstate.
    destruct ((dct ∪ d) !! "destroy_map"%string) as [m|] eqn:Em.
    { intros [= <-] v _ _. by rewrite Em. }
    destruct ((dct ∪ d) !! "inplace"%string) as [i|] eqn:Ei; [|done].
    destruct (truthy i) eqn:Et.
    + intros [= <-] v _ _. rewrite lookup_insert_eq. by eexists.
    + intros [= <-] v Hv Htv. rewrite Ei in Hv. injection Hv as <-.
      congruence.
Qed.
